(** * Tool-invocation and orchestration layer: a shallow embedding

    The development follows the TypeScript sources file by file:
    - [memoryService.ts]  bounded, similarity-searchable memory store;
    - [geminiService.ts]  retry wrapper, embedding call, orchestration loop
                          of the overseer agent and its parallel fan-out,
                          context block, specialist agents;
    - [mcpClient.ts]      connection router and simulated transport;
    - [mcpRouter.ts]      credential profiles and key resolution;
    - [mcpServer.ts]      internal tool server and its [save_memory] tool;
    - [mcpTransport.ts]   internal transport;
    - [videoService.ts]   model table and fallback of video generation;
    - [imageService.ts]   provider routing of image generation.

    JavaScript numbers that hold measurements (embeddings, similarities) are
    IEEE 754 binary64 values and are modelled by Rocq's primitive floats,
    whose operations are the same correctly rounded ones.  Numbers that hold
    counts and [Date.now()] instants are integers and are modelled in [Z].
    Asynchronous code is modelled by explicit state passing over a world
    [W] that stands for everything outside the function at hand. *)

From Stdlib Require Import List ZArith Bool Lia Arith PeanoNat.
From Stdlib Require Import Ascii String DecimalString.
From Stdlib Require Import Permutation Sorted.
From Stdlib Require Import Floats.
From Stdlib Require Reals Lra Psatz.
Import ListNotations.

Set Implicit Arguments.
Unset Strict Implicit.

(* ================================================================== *)
(** * Part I: the model *)
(* ================================================================== *)

(** ** Fragments of the JavaScript runtime used by the sources *)

Module Js.

(** A thrown value as the sources look at it: [error.message] and
    [error.status], either of which may be absent. *)
Record Error : Type := mkError {
  message : option string;
  status  : option string
}.

Definition newError (msg : string) : Error :=
  {| message := Some msg; status := None |}.

(** The settlement of a promise: it rejects with an error or fulfils
    with a value. *)
Inductive Outcome (T : Type) : Type :=
| Throw  (e : Error)
| Return (v : T).
Arguments Throw {T} e.
Arguments Return {T} v.

(** A string is modelled by its UTF-8 encoding, one [ascii] for each
    byte.  A well-formed needle occurs in such an encoding exactly where
    it occurs in the string, so [startsWith] and [includes] may compare
    bytes. *)

(** [String.prototype.toLowerCase], on the ASCII letters.  The needles the
    sources look for afterwards contain none of the letters that a
    non-ASCII code point lower-cases to, so bytes above 127 are kept. *)
Definition lowerAscii (c : ascii) : ascii :=
  let n := nat_of_ascii c in
  if (65 <=? n)%nat && (n <=? 90)%nat then ascii_of_nat (n + 32) else c.

Fixpoint toLowerCase (s : string) : string :=
  match s with
  | EmptyString => EmptyString
  | String c s' => String (lowerAscii c) (toLowerCase s')
  end.

(** [String.prototype.startsWith] *)
Definition startsWith (s needle : string) : bool := String.prefix needle s.

(** [String.prototype.includes] *)
Fixpoint includes (s needle : string) : bool :=
  startsWith s needle ||
  match s with
  | EmptyString => false
  | String _ s' => includes s' needle
  end.

(** [String.prototype.trim] removes white space and line terminators
    from both ends: U+0009 to U+000D, U+0020, U+00A0, U+1680, U+2000 to
    U+200A, U+2028, U+2029, U+202F, U+205F, U+3000 and U+FEFF.  A string
    is modelled by its UTF-8 encoding, one [ascii] for each byte, so
    these code points are sequences of one, two or three bytes. *)
Definition isSpace (c : ascii) : bool :=
  let n := nat_of_ascii c in
  ((9 <=? n)%nat && (n <=? 13)%nat) || (n =? 32)%nat.

(** U+00A0 *)
Definition isSpace2 (c1 c2 : ascii) : bool :=
  (nat_of_ascii c1 =? 194)%nat && (nat_of_ascii c2 =? 160)%nat.

Definition isSpace3 (c1 c2 c3 : ascii) : bool :=
  let n1 := nat_of_ascii c1 in
  let n2 := nat_of_ascii c2 in
  let n3 := nat_of_ascii c3 in
  (* U+1680 *)
  ((n1 =? 225)%nat && (n2 =? 154)%nat && (n3 =? 128)%nat) ||
  (* U+2000 to U+200A, U+2028, U+2029, U+202F *)
  ((n1 =? 226)%nat && (n2 =? 128)%nat &&
   (((128 <=? n3)%nat && (n3 <=? 138)%nat) ||
    (n3 =? 168)%nat || (n3 =? 169)%nat || (n3 =? 175)%nat)) ||
  (* U+205F *)
  ((n1 =? 226)%nat && (n2 =? 129)%nat && (n3 =? 159)%nat) ||
  (* U+3000 *)
  ((n1 =? 227)%nat && (n2 =? 128)%nat && (n3 =? 128)%nat) ||
  (* U+FEFF *)
  ((n1 =? 239)%nat && (n2 =? 187)%nat && (n3 =? 191)%nat).

Fixpoint trimStart (s : string) : string :=
  match s with
  | EmptyString => EmptyString
  | String c1 s1 =>
      if isSpace c1 then trimStart s1
      else
        match s1 with
        | String c2 s2 =>
            if isSpace2 c1 c2 then trimStart s2
            else
              match s2 with
              | String c3 s3 => if isSpace3 c1 c2 c3 then trimStart s3 else s
              | EmptyString => s
              end
        | EmptyString => s
        end
  end.

(** The string consists of white space only. *)
Fixpoint blank (s : string) : bool :=
  match s with
  | EmptyString => true
  | String c1 s1 =>
      if isSpace c1 then blank s1
      else
        match s1 with
        | String c2 s2 =>
            if isSpace2 c1 c2 then blank s2
            else
              match s2 with
              | String c3 s3 => isSpace3 c1 c2 c3 && blank s3
              | EmptyString => false
              end
        | EmptyString => false
        end
  end.

Fixpoint trimEnd (s : string) : string :=
  match s with
  | EmptyString => EmptyString
  | String c s' => if blank s then EmptyString else String c (trimEnd s')
  end.

Definition trim (s : string) : string := trimEnd (trimStart s).

(** Decimal rendering of an integer inside a template literal. *)
Definition showZ (z : Z) : string := NilZero.string_of_int (Z.to_int z).
Definition showNat (n : nat) : string := showZ (Z.of_nat n).

(** Truthiness of an optional boolean property ([undefined] is falsy). *)
Definition truthy (b : option bool) : bool :=
  match b with Some true => true | _ => false end.

(** A string that may be [undefined], inside a template literal. *)
Definition show (v : option string) : string :=
  match v with Some s => s | None => "undefined"%string end.

Section Arrays.
Context {A : Type}.

(** [Array.prototype.sort(comparefn)].  The comparator is given by
    [after a b], which holds when [comparefn(a, b) > 0], that is when
    [a] has to come after [b].  The sort is stable; for a consistent
    comparator its result is the one of a stable insertion sort. *)
Variable after : A -> A -> bool.

Fixpoint insert (x : A) (l : list A) : list A :=
  match l with
  | [] => [x]
  | y :: l' => if after x y then y :: insert x l' else x :: y :: l'
  end.

Definition sort (l : list A) : list A := fold_right insert [] l.

(** [Array.prototype.slice(0, n)] for an integer [n]: a negative [n]
    counts from the end of the array. *)
Definition slice0 (l : list A) (n : Z) : list A :=
  if (n <? 0)%Z
  then firstn (Z.to_nat (Z.max (Z.of_nat (List.length l) + n) 0)) l
  else firstn (Z.to_nat n) l.

(** [Array.prototype.unshift] and [push] with one argument. *)
Definition unshift (x : A) (l : list A) : list A := x :: l.
Definition push (l : list A) (x : A) : list A := l ++ [x].
End Arrays.

(** A [Map]: keys are unique and iteration follows insertion order;
    [set] on a present key replaces the value where it stands. *)
Section Maps.
Context {V : Type}.
Definition JsMap := list (string * V).

Fixpoint map_set (k : string) (v : V) (m : JsMap) : JsMap :=
  match m with
  | [] => [(k, v)]
  | (k', v') :: m' =>
      if String.eqb k' k then (k, v) :: m' else (k', v') :: map_set k v m'
  end.

Fixpoint map_get (k : string) (m : JsMap) : option V :=
  match m with
  | [] => None
  | (k', v') :: m' => if String.eqb k' k then Some v' else map_get k m'
  end.

Definition map_delete (k : string) (m : JsMap) : JsMap :=
  filter (fun kv => negb (String.eqb (fst kv) k)) m.

Definition map_values (m : JsMap) : list V := map snd m.
End Maps.
Arguments JsMap V : clear implicits.

End Js.

(** ** [types.ts]: the records the services exchange *)

Module Types.

Inductive MemoryType : Type := user_fact | interaction | system_note.

Record MemoryNode : Type := mkMemoryNode {
  id        : string;
  content   : string;
  embedding : list float;
  timestamp : Z;
  type      : MemoryType;
  relevance : float;
  tags      : list string;
  isPinned  : option bool
}.

Definition with_relevance (m : MemoryNode) (r : float) : MemoryNode :=
  {| id := id m; content := content m; embedding := embedding m;
     timestamp := timestamp m; type := type m; relevance := r;
     tags := tags m; isPinned := isPinned m |}.

Definition with_isPinned (m : MemoryNode) (p : option bool) : MemoryNode :=
  {| id := id m; content := content m; embedding := embedding m;
     timestamp := timestamp m; type := type m; relevance := relevance m;
     tags := tags m; isPinned := p |}.

Inductive McpPlatform : Type :=
| google | vertex | openai | anthropic | xai | deepseek
| huggingface | replicate | custom.

Record McpProfile : Type := mkMcpProfile {
  profile_id : string;
  name       : string;
  key        : string;
  isActive   : bool;
  platform   : McpPlatform
}.

Record McpTool : Type := mkMcpTool {
  tool_name        : string;
  tool_description : option string
}.

Inductive ContentType : Type := ct_text | ct_image | ct_resource.

Record Content : Type := mkContent {
  content_type : ContentType;
  text         : option string;
  data         : option string;
  mimeType     : option string;
  uri          : option string
}.

Definition textContent (s : string) : Content :=
  {| content_type := ct_text; text := Some s; data := None;
     mimeType := None; uri := None |}.

(** [content] is declared mandatory, but a value that merely passes for
    a result at run time may lack it. *)
Record McpCallToolResult : Type := mkCallToolResult {
  result_content : option (list Content);
  isError        : option bool
}.

Inductive ConnectionStatus : Type := connected | disconnected | error_.

End Types.

(** ** [geminiService.ts], first part: the embedding call *)

Module Embedding.
Import Js.

(** What [ai.models.embedContent] resolves to: [embedding] and its
    [values] may both be missing. *)
Record EmbedContentResponse : Type := mkEmbedResponse {
  embedding_values : option (option (list float))
}.

(** The embedding provider as the store sees it: the credential that
    [getClient] finds, and how the provider settles a request. *)
Record Provider : Type := mkProvider {
  universalKey : option string;
  embedContent : string -> Outcome EmbedContentResponse
}.

Definition getClient (p : Provider) : Outcome string :=
  match universalKey p with
  | None => Throw (newError "Access Credential missing. Configure API Key in Hub.")
  | Some k => Return k
  end.

(** [getEmbedding]: every failure inside the [try] block is turned into
    [null]; an array, even an empty one, is truthy. *)
Definition getEmbedding (p : Provider) (text : string) : Outcome (option (list float)) :=
  match getClient p with
  | Throw _ => Return None
  | Return _ =>
      match embedContent p text with
      | Throw _ => Return None
      | Return result =>
          match embedding_values result with
          | Some (Some values) => Return (Some values)
          | _ => Return None
          end
      end
  end.

End Embedding.

(** ** [memoryService.ts] *)

Module memoryService.
Import Js Types Embedding.
Local Open Scope float_scope.

Definition MAX_MEMORIES : nat := 200.

(** The browser side of the store: whether [window] exists and whether
    [localStorage.setItem] accepts a value (it throws when the quota is
    exceeded). *)
Record Browser : Type := mkBrowser {
  hasWindow : bool;
  setItemOk : list MemoryNode -> bool
}.

(** The service instance together with the item kept under
    [STORAGE_KEY]; the JSON text is represented by the collection it
    encodes. *)
Record Store : Type := mkStore {
  memories : list MemoryNode;
  stored   : option (list MemoryNode)
}.

Definition pinned (m : MemoryNode) : bool := truthy (isPinned m).
Definition unpinned (m : MemoryNode) : bool := negb (truthy (isPinned m)).

(** [(a, b) => b.timestamp - a.timestamp] is positive *)
Definition older (a b : MemoryNode) : bool := (0 <? timestamp b - timestamp a)%Z.

(** The body of [if (this.memories.length > MAX_MEMORIES)]. *)
Definition evict (mems : list MemoryNode) : list MemoryNode :=
  let pinned_ := filter pinned mems in
  let unpinned_ := filter unpinned mems in
  let unpinned_ := sort older unpinned_ in
  let spaceForUnpinned := Z.max 0 (Z.of_nat MAX_MEMORIES - Z.of_nat (List.length pinned_)) in
  let unpinned_ := slice0 unpinned_ spaceForUnpinned in
  sort older (pinned_ ++ unpinned_).

Definition saveMemories (b : Browser) (s : Store) : Store :=
  if negb (hasWindow b) then s
  else
    let mems := if (MAX_MEMORIES <? List.length (memories s))%nat
                then evict (memories s) else memories s in
    {| memories := mems;
       stored := if setItemOk b mems then Some mems else stored s |}.

(** The accumulation loop of [cosineSimilarity]. *)
Fixpoint accumulate (vecA vecB : list float) (dotProduct magA magB : float)
  : float * float * float :=
  match vecA, vecB with
  | a :: vecA', b :: vecB' =>
      accumulate vecA' vecB' (dotProduct + a * b) (magA + a * a) (magB + b * b)
  | _, _ => (dotProduct, magA, magB)
  end.

Definition cosineSimilarity (vecA vecB : list float) : float :=
  if negb (List.length vecA =? List.length vecB)%nat then 0
  else
    let '(dotProduct, magA, magB) := accumulate vecA vecB 0 0 0 in
    let magnitude := sqrt magA * sqrt magB in
    if magnitude =? 0 then 0 else dotProduct / magnitude.

(** What [addMemory] reads from its surroundings besides the provider:
    the two [Date.now()] readings and the random suffix of the id. *)
Record Clock : Type := mkClock {
  now_id    : Z;
  rand_id   : string;
  now_stamp : Z
}.

Definition addMemory (b : Browser) (p : Provider) (c : Clock)
    (content_ : string) (type_ : MemoryType) (tags_ : list string) (s : Store)
  : option MemoryNode * Store :=
  match getEmbedding p content_ with
  | Throw _ => (None, s)
  | Return None => (None, s)
  | Return (Some embedding_) =>
      let newNode :=
        {| id := "mem-" ++ showZ (now_id c) ++ "-" ++ rand_id c;
           content := content_;
           embedding := embedding_;
           timestamp := now_stamp c;
           type := type_;
           tags := tags_;
           relevance := 0;
           isPinned := Some false |} in
      let s1 := {| memories := unshift newNode (memories s); stored := stored s |} in
      (Some newNode, saveMemories b s1)
  end.

(** [togglePin] flips the first node that carries the id. *)
Fixpoint flipFirst (id_ : string) (mems : list MemoryNode) : option (list MemoryNode) :=
  match mems with
  | [] => None
  | m :: mems' =>
      if String.eqb (id m) id_
      then Some (with_isPinned m (Some (negb (truthy (isPinned m)))) :: mems')
      else option_map (cons m) (flipFirst id_ mems')
  end.

Definition togglePin (b : Browser) (id_ : string) (s : Store) : Store :=
  match flipFirst id_ (memories s) with
  | Some mems => saveMemories b {| memories := mems; stored := stored s |}
  | None => s
  end.

Definition getPinned (s : Store) : list MemoryNode := filter pinned (memories s).

(** [(a, b) => b.relevance - a.relevance] is positive *)
Definition lessRelevant (a b : MemoryNode) : bool := 0 <? relevance b - relevance a.

Definition search (p : Provider) (query : string) (limit : Z) (minSimilarity : float)
    (s : Store) : list MemoryNode :=
  if (List.length (memories s) =? 0)%nat then []
  else
    match getEmbedding p query with
    | Throw _ => []
    | Return None => []
    | Return (Some queryEmbedding) =>
        let scored :=
          map (fun mem => with_relevance mem (cosineSimilarity queryEmbedding (embedding mem)))
              (memories s) in
        slice0 (sort lessRelevant (filter (fun mem => minSimilarity <=? relevance mem) scored))
               limit
    end.

(** The default arguments of [search]: [limit = 5] and
    [minSimilarity = 0.6], the latter as the double the literal denotes. *)
Definition defaultLimit : Z := 5.
Definition defaultMinSimilarity : float := 0x1.3333333333333p-1.

Definition getRecent (limit : Z) (s : Store) : list MemoryNode :=
  slice0 (sort older (memories s)) limit.

Definition deleteMemory (b : Browser) (id_ : string) (s : Store) : Store :=
  saveMemories b
    {| memories := filter (fun m => negb (String.eqb (id m) id_)) (memories s);
       stored := stored s |}.

(** [clear], in a browser: the collection is emptied and the stored item
    removed. *)
Definition clear (s : Store) : Store := {| memories := []; stored := None |}.

(** [clear], wherever it is called: it has no [typeof window] guard, so
    outside a browser it empties the collection and then throws the
    [ReferenceError] of the missing [localStorage]. *)
Definition clearAnywhere (b : Browser) (s : Store) : Outcome unit * Store :=
  if hasWindow b then (Return tt, clear s)
  else (Throw (newError "localStorage is not defined"),
        {| memories := []; stored := stored s |}).

End memoryService.

(** ** [JSON.stringify] on the values the orchestrator serialises *)

Module Json.
Local Open Scope string_scope.

Definition dquote : string := String (ascii_of_nat 34) EmptyString.

Definition hexDigit (n : nat) : ascii :=
  if (n <? 10)%nat then ascii_of_nat (48 + n) else ascii_of_nat (87 + n).

(** One character inside a JSON string literal. *)
Definition escapeChar (c : ascii) : string :=
  let n := nat_of_ascii c in
  if (n =? 34)%nat then "\" ++ dquote
  else if (n =? 92)%nat then "\\"
  else if (n =? 8)%nat then "\b"
  else if (n =? 9)%nat then "\t"
  else if (n =? 10)%nat then "\n"
  else if (n =? 12)%nat then "\f"
  else if (n =? 13)%nat then "\r"
  else if (n <? 32)%nat
    then "\u00" ++ String (hexDigit (n / 16)) (String (hexDigit (n mod 16)) "")
  else String c "".

Fixpoint escape (s : string) : string :=
  match s with
  | EmptyString => ""
  | String c s' => escapeChar c ++ escape s'
  end.

Definition quote (s : string) : string := dquote ++ escape s ++ dquote.

(** A property with an [undefined] value is left out. *)
Definition field (k : string) (v : option string) : list string :=
  match v with
  | Some s => [quote k ++ ":" ++ quote s]
  | None => []
  end.

Definition object (fields : list string) : string :=
  "{" ++ String.concat "," fields ++ "}".

Definition array (items : list string) : string :=
  "[" ++ String.concat "," items ++ "]".

End Json.


(** ** [mcpClient.ts]: the connection router *)

Module mcpClient.
Import Js Types.
Local Open Scope string_scope.

Section Client.

(** The world outside the router, the handles of the transports it talks
    through, and the arguments of a tool call (typed [any]). *)
Variables (W Transport Args : Type).

Record RpcError : Type := mkRpcError {
  code        : Z;
  rpc_message : string
}.

Record JsonRpcRequest : Type := mkRequest {
  method : string;
  params : option (string * Args);
  req_id : Z
}.

(** [result?: any], as far as the router inspects it. *)
Record RpcResult : Type := mkRpcResult {
  r_tools   : option (list McpTool);
  r_content : option (list Content);
  r_isError : option bool
}.

Record JsonRpcResponse : Type := mkResponse {
  rpc_result : option RpcResult;
  rpc_error  : option RpcError
}.

Record McpConnection : Type := mkConnection {
  conn_id    : string;
  transport  : Transport;
  tools      : list McpTool;
  status     : ConnectionStatus;
  conn_error : option string
}.

(** The operations of [IMcpTransport] and the clock. *)
Record Net : Type := mkNet {
  start : Transport -> W -> Outcome unit * W;
  close : Transport -> W -> W;
  send  : Transport -> JsonRpcRequest -> W -> Outcome JsonRpcResponse * W;
  now   : W -> Z
}.

Variable net : Net.

Definition Connections := JsMap McpConnection.

Definition failed (id_ : string) (t : Transport) (e : Error) : McpConnection :=
  {| conn_id := id_; transport := t; tools := []; status := error_;
     conn_error := message e |}.

Definition registerConnection (id_ : string) (t : Transport)
    (conns : Connections) (w : W) : Connections * W :=
  match start net t w with
  | (Throw e, w1) => (map_set id_ (failed id_ t e) conns, w1)
  | (Return _, w1) =>
      let request := {| method := "tools/list"; params := None; req_id := now net w1 |} in
      match send net t request w1 with
      | (Throw e, w2) => (map_set id_ (failed id_ t e) conns, w2)
      | (Return response, w2) =>
          match rpc_error response with
          | Some err =>
              (map_set id_ (failed id_ t (newError (rpc_message err))) conns, w2)
          | None =>
              match rpc_result response with
              | None =>
                  (map_set id_ (failed id_ t
                     (newError "Cannot read properties of undefined (reading 'tools')"))
                     conns, w2)
              | Some r =>
                  let tools_ := match r_tools r with Some ts => ts | None => [] end in
                  (map_set id_ {| conn_id := id_; transport := t; tools := tools_;
                                  status := connected; conn_error := None |} conns, w2)
              end
          end
      end
  end.

(** [registerSimulatedConnection]: [t] is the [SimulatedTransport] built
    around the handler. *)
Definition registerSimulatedConnection (id_ : string) (t : Transport)
    (tools_ : list McpTool) (conns : Connections) : Connections :=
  map_set id_ {| conn_id := id_; transport := t; tools := tools_;
                 status := connected; conn_error := None |} conns.

Definition disconnect (id_ : string) (conns : Connections) (w : W) : Connections * W :=
  match map_get id_ conns with
  | Some conn => (map_delete id_ conns, close net (transport conn) w)
  | None => (conns, w)
  end.

Definition getConnections (conns : Connections) : list McpConnection :=
  map_values conns.

Definition isConnected (c : McpConnection) : bool :=
  match status c with connected => true | _ => false end.

Definition getAllTools (conns : Connections) : list (McpTool * string) :=
  flat_map (fun conn =>
              if isConnected conn
              then map (fun t => (t, conn_id conn)) (tools conn) else [])
           (map_values conns).

(** [conn.status === 'connected' && conn.tools.some(t => t.name === name)] *)
Definition owns (name_ : string) (conn : McpConnection) : bool :=
  isConnected conn && existsb (fun t => String.eqb (tool_name t) name_) (tools conn).

(** The [for ... of this.connections.values()] scan with its [break]. *)
Definition findTarget (name_ : string) (conns : Connections) : option McpConnection :=
  find (owns name_) (map_values conns).

Definition toolNotFound (name_ : string) : Error :=
  newError ("Tool '" ++ name_ ++ "' not found in any active MCP connection.").

(** What [callTool] makes of the transport's answer. *)
Definition interpret (name_ : string) (response : JsonRpcResponse) : McpCallToolResult :=
  match rpc_error response with
  | Some err =>
      {| result_content :=
           Some [textContent ("Error calling " ++ name_ ++ ": " ++ rpc_message err)];
         isError := Some true |}
  | None =>
      match rpc_result response with
      | Some r =>
          match r_content r with
          | Some c => {| result_content := Some c; isError := r_isError r |}
          | None => {| result_content := None; isError := None |}
          end
      | None => {| result_content := None; isError := None |}
      end
  end.

Definition callTool (name_ : string) (args : Args) (conns : Connections) (w : W)
  : Outcome McpCallToolResult * W :=
  match findTarget name_ conns with
  | None => (Throw (toolNotFound name_), w)
  | Some targetConn =>
      let request := {| method := "tools/call"; params := Some (name_, args);
                        req_id := now net w |} in
      match send net (transport targetConn) request w with
      | (Throw e, w1) => (Throw e, w1)
      | (Return response, w1) => (Return (interpret name_ response), w1)
      end
  end.

End Client.
End mcpClient.

(** ** [mcpRouter.ts]: credential profiles *)

Module mcpRouter.
Import Js Types.
Local Open Scope string_scope.

(** The router instance and the item kept under its storage key. *)
Record Router : Type := mkRouter {
  profiles        : list McpProfile;
  stored_profiles : option (list McpProfile)
}.

Definition empty : Router := {| profiles := []; stored_profiles := None |}.

(** [hasWindow] tells whether [window] is defined. *)
Definition saveProfiles (hasWindow : bool) (r : Router) : Router :=
  if negb hasWindow then r
  else {| profiles := profiles r; stored_profiles := Some (profiles r) |}.

Definition getProfiles (r : Router) : list McpProfile := profiles r.

Definition detectPlatform (key_ : string) (platform_ : McpPlatform) : McpPlatform :=
  match platform_ with
  | custom | google =>
      if startsWith (trim key_) "hf_" then huggingface
      else if startsWith (trim key_) "sk-" then openai
      else platform_
  | _ => platform_
  end.

(** [uuid] is the value [crypto.randomUUID()] returns for this call. *)
Definition addProfile (hasWindow : bool) (uuid : string)
    (name_ key_ : string) (platform_ : McpPlatform) (r : Router)
  : McpProfile * Router :=
  let isFirst := (List.length (profiles r) =? 0)%nat in
  let finalPlatform := detectPlatform key_ platform_ in
  let newProfile :=
    {| profile_id := uuid; name := name_; key := key_;
       isActive := isFirst; platform := finalPlatform |} in
  (newProfile,
   saveProfiles hasWindow
     {| profiles := push (profiles r) newProfile;
        stored_profiles := stored_profiles r |}).

Definition removeProfile (hasWindow : bool) (id_ : string) (r : Router) : Router :=
  saveProfiles hasWindow
    {| profiles := filter (fun p => negb (String.eqb (profile_id p) id_)) (profiles r);
       stored_profiles := stored_profiles r |}.

(** [p.id === id] for [id : string | null] *)
Definition idIs (id_ : option string) (p : McpProfile) : bool :=
  match id_ with
  | Some i => String.eqb (profile_id p) i
  | None => false
  end.

Definition setActiveProfile (hasWindow : bool) (id_ : option string) (r : Router) : Router :=
  saveProfiles hasWindow
    {| profiles :=
         map (fun p => {| profile_id := profile_id p; name := name p; key := key p;
                          isActive := idIs id_ p; platform := platform p |})
             (profiles r);
       stored_profiles := stored_profiles r |}.

(** The calls the panel makes on the router. *)
Inductive Op : Type :=
| OpAdd (uuid name_ key_ : string) (platform_ : McpPlatform)
| OpRemove (id_ : string)
| OpSetActive (id_ : option string).

Definition step (hasWindow : bool) (r : Router) (op : Op) : Router :=
  match op with
  | OpAdd uuid n k p => snd (addProfile hasWindow uuid n k p r)
  | OpRemove i => removeProfile hasWindow i r
  | OpSetActive i => setActiveProfile hasWindow i r
  end.

Definition run (hasWindow : bool) (ops : list Op) : Router :=
  fold_left (step hasWindow) ops empty.

Definition uuidsOf (ops : list Op) : list string :=
  flat_map (fun op => match op with OpAdd u _ _ _ => [u] | _ => [] end) ops.

Definition activeCount (r : Router) : nat :=
  List.length (filter isActive (profiles r)).

(** *** Key resolution *)

(** The two places [getEnvVar] looks in, [process.env] and
    [import.meta.env]; a variable that is not set has no value. *)
Record Environment : Type := mkEnvironment {
  processEnv : string -> option string;
  metaEnv    : string -> option string
}.

(** A string that may be [undefined], used as a condition: the value
    when it is truthy. *)
Definition whenTruthy (v : option string) : option string :=
  match v with
  | Some EmptyString | None => None
  | Some s => Some s
  end.

Definition getEnvVar (env : Environment) (key_ : string) : option string :=
  match whenTruthy (processEnv env key_) with
  | Some v => Some v
  | None => whenTruthy (metaEnv env ("VITE_" ++ key_))
  end.

(** [a || b] on two results of [getEnvVar] *)
Definition orVar (a b : option string) : option string :=
  match a with
  | Some v => Some v
  | None => b
  end.

Definition platform_eqb (a b : McpPlatform) : bool :=
  match a, b with
  | google, google | vertex, vertex | openai, openai | anthropic, anthropic
  | xai, xai | deepseek, deepseek | huggingface, huggingface
  | replicate, replicate | custom, custom => true
  | _, _ => false
  end.

(** Step 2 of [getSmartKey]: the variables of the platform. *)
Definition discovered (env : Environment) (platform_ : McpPlatform) : option string :=
  match platform_ with
  | huggingface => orVar (getEnvVar env "HF_TOKEN") (getEnvVar env "HUGGING_FACE_TOKEN")
  | openai => getEnvVar env "OPENAI_API_KEY"
  | anthropic => getEnvVar env "ANTHROPIC_API_KEY"
  | replicate => getEnvVar env "REPLICATE_API_TOKEN"
  | google | vertex =>
      orVar (orVar (getEnvVar env "API_KEY") (getEnvVar env "GOOGLE_API_KEY"))
            (getEnvVar env "GEMINI_API_KEY")
  | xai => getEnvVar env "XAI_API_KEY"
  | deepseek => getEnvVar env "DEEPSEEK_API_KEY"
  | custom => None
  end.

(** Step 4 of [getSmartKey]: the key patterns. *)
Definition guessed (platform_ : McpPlatform) (r : Router) : option string :=
  match platform_ with
  | huggingface =>
      option_map key (find (fun p => startsWith (trim (key p)) "hf_") (profiles r))
  | openai =>
      option_map key (find (fun p => startsWith (trim (key p)) "sk-") (profiles r))
  | google =>
      match find isActive (profiles r) with
      | Some activeGeneric =>
          if negb (startsWith (key activeGeneric) "hf_")
             && negb (startsWith (key activeGeneric) "sk-")
          then Some (key activeGeneric) else None
      | None => None
      end
  | _ => None
  end.

Definition getSmartKey (env : Environment) (platform_ : McpPlatform) (r : Router)
  : option string :=
  match find (fun p => isActive p && platform_eqb (platform p) platform_) (profiles r) with
  | Some active => Some (key active)
  | None =>
      match discovered env platform_ with
      | Some key_ => Some key_
      | None =>
          match find (fun p => platform_eqb (platform p) platform_) (profiles r) with
          | Some specific => Some (key specific)
          | None => guessed platform_ r
          end
      end
  end.

(** [this.getSmartKey('google') || undefined] *)
Definition getUniversalKey (env : Environment) (r : Router) : option string :=
  whenTruthy (getSmartKey env google r).

Definition getHuggingFaceKey (env : Environment) (r : Router) : option string :=
  getSmartKey env huggingface r.

Definition isProviderConfigured (env : Environment) (platform_ : McpPlatform) (r : Router)
  : bool :=
  match whenTruthy (getSmartKey env platform_ r) with
  | Some _ => true
  | None => false
  end.

End mcpRouter.


(** ** [geminiService.ts]: retry wrapper and overseer orchestration *)

Module geminiService.
Import Js Types.
Local Open Scope string_scope.

(** [error.message?.toLowerCase() || ''] *)
Definition errorMsg (error : Error) : string :=
  match message error with
  | Some m => toLowerCase m
  | None => EmptyString
  end.

Definition isRateLimit (error : Error) : bool :=
  includes (errorMsg error) "429" ||
  includes (errorMsg error) "quota" ||
  includes (errorMsg error) "resource_exhausted" ||
  match status error with
  | Some s => String.eqb s "RESOURCE_EXHAUSTED"
  | None => false
  end.

Section Retry.

Variables (W T : Type).

(** An asynchronous operation run in a world: it settles with an outcome
    and a new world, or never settles ([None]). *)
Definition Async : Type := W -> option (Outcome T * W).

(** [backoffWait backoff]: draws [jitter = Math.random() * 1000] and
    waits [backoff + jitter] milliseconds. *)
Variable backoffWait : Z -> W -> W.

(** How a run of the wrapper ends; [attempts] counts the calls of [fn]. *)
Record Run : Type := mkRun {
  result   : Outcome T;
  attempts : nat;
  world    : W
}.

(** The [while (true)] loop of [withRetry]; [retries] is its counter and
    [calls] the number of calls of [fn] made so far. *)
Fixpoint retryLoop (fuel : nat) (fn : Async) (maxRetries : nat) (initialDelay : Z)
    (retries calls : nat) (w : W) : option Run :=
  match fuel with
  | O => None
  | S fuel' =>
      match fn w with
      | None => None
      | Some (Return v, w1) =>
          Some {| result := Return v; attempts := S calls; world := w1 |}
      | Some (Throw error, w1) =>
          if isRateLimit error && (retries <? maxRetries)%nat then
            let backoff := (initialDelay * 2 ^ Z.of_nat retries)%Z in
            retryLoop fuel' fn maxRetries initialDelay (S retries) (S calls)
                      (backoffWait backoff w1)
          else
            Some {| result := Throw error; attempts := S calls; world := w1 |}
      end
  end.

Definition withRetry (fuel : nat) (fn : Async) (maxRetries : nat) (initialDelay : Z)
    (w : W) : option Run :=
  retryLoop fuel fn maxRetries initialDelay 0 0 w.

(** The default parameters [maxRetries = 4, initialDelay = 3000], which
    every caller in the file relies on. *)
Definition withRetryDefault (fuel : nat) (fn : Async) (w : W) : option Run :=
  withRetry fuel fn 4 3000 w.

End Retry.

(** *** The overseer agent *)

Record Dispatch : Type := mkDispatch {
  agent    : string;
  d_prompt : string
}.

Record TaskSpec : Type := mkTaskSpec {
  t_id            : option string;
  t_title         : string;
  t_isParallel    : option bool;
  t_dependencies  : option (list string);
  t_assignedAgent : option string;
  t_subtasks      : option (list string)
}.

Record SubTask : Type := mkSubTask {
  sub_id        : string;
  sub_title     : string;
  sub_completed : bool
}.

Record Task : Type := mkTask {
  task_id       : string;
  title         : string;
  subtasks      : list SubTask;
  completed     : bool;
  isParallel    : bool;
  dependencies  : list string;
  assignedAgent : option string
}.

(** [call.args as any], with the properties the overseer reads. *)
Record Args : Type := mkArgs {
  a_tasks       : option (list TaskSpec);
  a_dispatches  : option (list Dispatch);
  a_prompt      : option string;
  a_aspectRatio : option string;
  a_resolution  : option string;
  a_modelId     : option string
}.

Record FunctionCall : Type := mkCall {
  call_name : string;
  call_id   : option string;
  call_args : option Args
}.

Record Chunk : Type := mkChunk {
  web_uri   : option string;
  web_title : option string
}.

Record Response : Type := mkResponse {
  functionCalls   : option (list FunctionCall);
  response_text   : option string;
  groundingChunks : option (list Chunk)
}.

Inductive Payload : Type :=
| ResultContent (parts : list string)
| ResultError (msg : string).

Record FunctionResponse : Type := mkFunctionResponse {
  fr_name     : string;
  fr_response : Payload;
  fr_id       : option string
}.

Inductive Message : Type :=
| Prompt (text : string)
| FunctionResponses (frs : list FunctionResponse).

Inductive DispatchStatus : Type := SUCCESS | ERROR.

Record DispatchResult : Type := mkDispatchResult {
  r_agent    : string;
  r_prompt   : string;
  r_status   : DispatchStatus;
  r_response : option string;
  r_error    : option string
}.

Record VideoConfig : Type := mkVideoConfig {
  v_prompt      : option string;
  v_aspectRatio : string;
  v_resolution  : string;
  v_modelId     : option string
}.

Record ImageResult : Type := mkImageResult { image_data : string; image_model : string }.
Record VideoResult : Type := mkVideoResult { video_uri : string }.
Record NavigatorResult : Type := mkNavigatorResult { nav_text : option string }.

(** The variables [tasks], [videoUri] and [image] of one attempt. *)
Record Locals : Type := mkLocals {
  l_tasks    : list Task;
  l_videoUri : string;
  l_image    : string
}.

Record OverseerResult : Type := mkOverseerResult {
  o_text           : option string;
  o_groundingLinks : list (string * string);
  o_tasks          : list Task;
  o_videoUri       : string;
  o_image          : string
}.

(** [a || b] on strings that may be [undefined] *)
Definition orElse (a : option string) (b : string) : string :=
  match a with
  | Some EmptyString | None => b
  | Some s => s
  end.

Definition showStatus (s : DispatchStatus) : string :=
  match s with SUCCESS => "SUCCESS" | ERROR => "ERROR" end.

(** [JSON.stringify(results)] *)
Definition stringifyResult (r : DispatchResult) : string :=
  Json.object (Json.field "agent" (Some (r_agent r)) ++
               Json.field "prompt" (Some (r_prompt r)) ++
               Json.field "status" (Some (showStatus (r_status r))) ++
               Json.field "response" (r_response r) ++
               Json.field "error" (r_error r))%list.

Definition stringifyResults (rs : list DispatchResult) : string :=
  Json.array (map stringifyResult rs).

Definition showContentType (t : ContentType) : string :=
  match t with ct_text => "text" | ct_image => "image" | ct_resource => "resource" end.

(** [c.text || JSON.stringify(c)] *)
Definition partText (c : Content) : string :=
  orElse (text c)
    (Json.object (Json.field "type" (Some (showContentType (content_type c))) ++
                  Json.field "text" (text c) ++
                  Json.field "data" (data c) ++
                  Json.field "mimeType" (mimeType c) ++
                  Json.field "uri" (uri c))%list).

Fixpoint mapi_from {A B : Type} (f : A -> nat -> B) (i : nat) (l : list A) : list B :=
  match l with
  | [] => []
  | x :: l' => f x i :: mapi_from f (S i) l'
  end.

(** [Array.prototype.map] with the index passed to the callback *)
Definition mapi {A B : Type} (f : A -> nat -> B) (l : list A) : list B :=
  mapi_from f 0 l.

(** The [TypeError] of reading [property] of [undefined], with the
    message V8 gives it. *)
Definition typeError (property : string) : Error :=
  {| message := Some ("Cannot read properties of undefined (reading '" ++ property ++ "')");
     status := None |}.

Section Overseer.

Variable W : Type.

(** Everything the overseer calls: the chat session with the provider,
    the specialist agents, the media services, the tool router, timers
    and the clock.  Each call settles and leaves a new world. *)
Record Env : Type := mkEnv {
  clock                : W -> Z;
  credential           : W -> option string;
  sendMessage          : Message -> W -> Outcome Response * W;
  runHrManagerAgent    : string -> W -> Outcome (option string) * W;
  runIntegrationAgent  : string -> W -> Outcome (option string) * W;
  runResearcherAgent   : string -> W -> Outcome (option string) * W;
  runDataAnalystAgent  : string -> W -> Outcome (option string) * W;
  runDeveloperAgent    : string -> W -> Outcome (option string) * W;
  runAntigravityAgent  : string -> W -> Outcome (option string) * W;
  runSpeedsterAgent    : string -> W -> Outcome (option string) * W;
  runNavigatorAgent    : string -> W -> Outcome NavigatorResult * W;
  generateImage        : string -> W -> Outcome ImageResult * W;
  generateVideo        : VideoConfig -> W -> Outcome VideoResult * W;
  callTool             : string -> option Args -> W -> Outcome McpCallToolResult * W;
  wait                 : Z -> W -> W;
  backoffWait          : Z -> W -> W
}.

Variable env : Env.

Definition succeeded (d : Dispatch) (output : option string) : DispatchResult :=
  {| r_agent := agent d; r_prompt := d_prompt d; r_status := SUCCESS;
     r_response := output; r_error := None |}.

Definition failed (d : Dispatch) (e : Error) : DispatchResult :=
  {| r_agent := agent d; r_prompt := d_prompt d; r_status := ERROR;
     r_response := None; r_error := message e |}.

(** A [case] of the [switch] whose agent returns the output text. *)
Definition textCase (run : string -> W -> Outcome (option string) * W)
    (d : Dispatch) (locals : Locals) (w : W) : DispatchResult * Locals * W :=
  match run (d_prompt d) w with
  | (Return output, w1) => (succeeded d output, locals, w1)
  | (Throw e, w1) => (failed d e, locals, w1)
  end.

(** The callback of [args.dispatches.map]: the [switch] over [d.agent]
    inside its own [try]/[catch]. *)
Definition runDispatch (d : Dispatch) (locals : Locals) (w : W)
  : DispatchResult * Locals * W :=
  if String.eqb (agent d) "HR_MANAGER" then textCase (runHrManagerAgent env) d locals w
  else if String.eqb (agent d) "INTEGRATION_LEAD" then textCase (runIntegrationAgent env) d locals w
  else if String.eqb (agent d) "RESEARCHER" then textCase (runResearcherAgent env) d locals w
  else if String.eqb (agent d) "DATA_ANALYST" then textCase (runDataAnalystAgent env) d locals w
  else if String.eqb (agent d) "DEVELOPER" then textCase (runDeveloperAgent env) d locals w
  else if String.eqb (agent d) "ANTIGRAVITY" then textCase (runAntigravityAgent env) d locals w
  else if String.eqb (agent d) "VISIONARY" then
    match generateImage env (d_prompt d) w with
    | (Return v, w1) =>
        (succeeded d (Some ("Visual manifest complete via " ++ image_model v ++
                            ". Data available in asset preview.")),
         {| l_tasks := l_tasks locals; l_videoUri := l_videoUri locals;
            l_image := image_data v |}, w1)
    | (Throw e, w1) => (failed d e, locals, w1)
    end
  else if String.eqb (agent d) "DIRECTOR" then
    match generateVideo env {| v_prompt := Some (d_prompt d); v_aspectRatio := "16:9";
                               v_resolution := "720p"; v_modelId := None |} w with
    | (Return vi, w1) =>
        (succeeded d (Some ("Video sequence rendered: " ++ video_uri vi)),
         {| l_tasks := l_tasks locals; l_videoUri := video_uri vi;
            l_image := l_image locals |}, w1)
    | (Throw e, w1) => (failed d e, locals, w1)
    end
  else if String.eqb (agent d) "NAVIGATOR" then
    match runNavigatorAgent env (d_prompt d) w with
    | (Return n, w1) => (succeeded d (nav_text n), locals, w1)
    | (Throw e, w1) => (failed d e, locals, w1)
    end
  else if String.eqb (agent d) "SPEEDSTER" then textCase (runSpeedsterAgent env) d locals w
  else (succeeded d (Some EmptyString), locals, w).

(** [await Promise.all(args.dispatches.map(...))]: no callback rejects, so
    the join yields one result per dispatch, in the order of the array.
    The sub-agents are run one after the other here; their interleaving
    is not observed by the join. *)
Fixpoint runDispatches (ds : list Dispatch) (locals : Locals) (w : W)
  : list DispatchResult * Locals * W :=
  match ds with
  | [] => ([], locals, w)
  | d :: ds' =>
      let '(r, locals1, w1) := runDispatch d locals w in
      let '(rs, locals2, w2) := runDispatches ds' locals1 w1 in
      (r :: rs, locals2, w2)
  end.

Definition newTask (now_ : Z) (t : TaskSpec) (idx : nat) : Task :=
  {| task_id := orElse (t_id t) ("task-" ++ showZ now_ ++ "-" ++ showNat idx);
     title := t_title t;
     completed := false;
     isParallel := match t_isParallel t with Some true => true | _ => false end;
     dependencies := match t_dependencies t with Some ds => ds | None => [] end;
     assignedAgent := t_assignedAgent t;
     subtasks :=
       mapi (fun st sidx =>
               {| sub_id := "subtask-" ++ showZ now_ ++ "-" ++ showNat idx ++ "-" ++ showNat sidx;
                  sub_title := st; sub_completed := false |})
            (match t_subtasks t with Some sts => sts | None => [] end) |}.

Definition fault (call : FunctionCall) (err : Error) : FunctionResponse :=
  {| fr_name := call_name call;
     fr_response := ResultError (orElse (message err) "Thread execution fault");
     fr_id := call_id call |}.

(** The callback of [response.functionCalls.map]: one tool call inside
    its [try]/[catch]. *)
Definition executeCall (call : FunctionCall) (locals : Locals) (w : W)
  : FunctionResponse * Locals * W :=
  (* if (call.name === 'generate_task_list' && args.tasks) *)
  match (if String.eqb (call_name call) "generate_task_list" then
           match call_args call with
           | None => Throw (typeError "tasks")
           | Some args =>
               match a_tasks args with
               | Some ts =>
                   Return {| l_tasks := l_tasks locals ++ mapi (newTask (clock env w)) ts;
                             l_videoUri := l_videoUri locals;
                             l_image := l_image locals |}
               | None => Return locals
               end
           end
         else Return locals) with
  | Throw e => (fault call e, locals, w)
  | Return locals1 =>
      (* if (call.name === 'parallel_dispatch' && args.dispatches) *)
      match (if String.eqb (call_name call) "parallel_dispatch" then
               match call_args call with
               | None => Throw (typeError "dispatches")
               | Some args => Return (a_dispatches args)
               end
             else Return None) with
      | Throw e => (fault call e, locals1, w)
      | Return (Some ds) =>
          let '(results, locals2, w2) := runDispatches ds locals1 w in
          ({| fr_name := call_name call;
              fr_response :=
                ResultContent ["Parallel Thread Batch: " ++ stringifyResults results];
              fr_id := call_id call |}, locals2, w2)
      | Return None =>
          (* if (call.name === 'generate_video'), with its own try/catch *)
          let '(locals2, w2) :=
            if String.eqb (call_name call) "generate_video" then
              match call_args call with
              | None => (locals1, w)
              | Some args =>
                  match generateVideo env
                          {| v_prompt := a_prompt args;
                             v_aspectRatio := orElse (a_aspectRatio args) "16:9";
                             v_resolution := orElse (a_resolution args) "720p";
                             v_modelId := a_modelId args |} w with
                  | (Return vidRes, w1) =>
                      ({| l_tasks := l_tasks locals1; l_videoUri := video_uri vidRes;
                          l_image := l_image locals1 |}, w1)
                  | (Throw _, w1) => (locals1, w1)
                  end
              end
            else (locals1, w) in
          match callTool env (call_name call) (call_args call) w2 with
          | (Throw e, w3) => (fault call e, locals2, w3)
          | (Return result, w3) =>
              match result_content result with
              | None => (fault call (typeError "map"), locals2, w3)
              | Some cs =>
                  ({| fr_name := call_name call;
                      fr_response := ResultContent (map partText cs);
                      fr_id := call_id call |}, locals2, w3)
              end
          end
      end
  end.

(** [await Promise.all(response.functionCalls.map(...))] *)
Fixpoint executeCalls (calls : list FunctionCall) (locals : Locals) (w : W)
  : list FunctionResponse * Locals * W :=
  match calls with
  | [] => ([], locals, w)
  | call :: calls' =>
      let '(fr, locals1, w1) := executeCall call locals w in
      let '(frs, locals2, w2) := executeCalls calls' locals1 w1 in
      (fr :: frs, locals2, w2)
  end.

(** [response.functionCalls && response.functionCalls.length > 0] *)
Definition pendingCalls (response : Response) : list FunctionCall :=
  match functionCalls response with
  | Some calls => calls
  | None => []
  end.

Definition hasCalls (response : Response) : bool :=
  negb (List.length (pendingCalls response) =? 0)%nat.

Definition MAX_TURNS : nat := 6.

(** How the [while] loop is left: by a rejected provider call or with
    the last response; [turns] is the loop counter at that point.  The
    optional [onConcurrencyChange] callback only reports the number of
    calls to the caller and is left out. *)
Record LoopRun : Type := mkLoopRun {
  last   : Outcome Response;
  locals : Locals;
  turns  : nat;
  after  : W
}.

Fixpoint turnLoop (fuel : nat) (turns_ : nat) (response : Response)
    (locals_ : Locals) (w : W) : option LoopRun :=
  match fuel with
  | O => None
  | S fuel' =>
      if hasCalls response && (turns_ <? MAX_TURNS)%nat then
        let w0 := wait env 350 w in
        let '(functionResponses, locals1, w1) :=
          executeCalls (pendingCalls response) locals_ w0 in
        match sendMessage env (FunctionResponses functionResponses) w1 with
        | (Throw e, w2) =>
            Some {| last := Throw e; locals := locals1; turns := turns_; after := w2 |}
        | (Return response', w2) => turnLoop fuel' (S turns_) response' locals1 w2
        end
      else
        Some {| last := Return response; locals := locals_; turns := turns_; after := w |}
  end.

Definition groundingLinksOf (response : Response) : list (string * string) :=
  match groundingChunks response with
  | None => []
  | Some chunks =>
      flat_map (fun chunk =>
                  match web_uri chunk with
                  | Some EmptyString | None => []
                  | Some u => [(orElse (web_title chunk) "Source", u)]
                  end) chunks
  end.

Definition noLocals : Locals :=
  {| l_tasks := []; l_videoUri := EmptyString; l_image := EmptyString |}.

(** The function handed to [withRetry]: credential, first message, the
    turn loop, and the assembly of the answer.  The text of the system
    instruction plays no part in the control flow and is left out. *)
Definition runOverseerAttempt (fuel : nat) (prompt : string)
  : Async W OverseerResult :=
  fun w =>
    match credential env w with
    | None =>
        Some (Throw (newError "Access Credential missing. Configure API Key in Hub."), w)
    | Some _ =>
        match sendMessage env (Prompt prompt) w with
        | (Throw e, w1) => Some (Throw e, w1)
        | (Return response, w1) =>
            match turnLoop fuel 0 response noLocals w1 with
            | None => None
            | Some run =>
                match last run with
                | Throw e => Some (Throw e, after run)
                | Return response' =>
                    Some (Return {| o_text := response_text response';
                                    o_groundingLinks := groundingLinksOf response';
                                    o_tasks := l_tasks (locals run);
                                    o_videoUri := l_videoUri (locals run);
                                    o_image := l_image (locals run) |},
                          after run)
                end
            end
        end
    end.

Definition runOverseerAgent (fuel : nat) (prompt : string) (w : W)
  : option (Run W OverseerResult) :=
  withRetryDefault (backoffWait env) fuel (runOverseerAttempt fuel prompt) w.

End Overseer.

(** *** The context block of the system instruction *)

Definition newline : string := String (ascii_of_nat 10) EmptyString.

(** [Array.prototype.join('\n')] *)
Definition lines (l : list string) : string := String.concat newline l.

Definition pinnedBlock (pinned_ : list MemoryNode) : string :=
  newline ++ "<pinned_context>" ++ newline ++
  lines (map (fun m => "[PINNED] " ++ content m) pinned_) ++
  newline ++ "</pinned_context>" ++ newline.

Definition relevantBlock (relevant : list MemoryNode) : string :=
  newline ++ "<relevant_memory>" ++ newline ++
  lines (map (fun m => "- " ++ content m) relevant) ++
  newline ++ "</relevant_memory>" ++ newline.

(** [buildContextualSystemInstruction]: [search] is called with the
    limit 3 and its default threshold; it absorbs its own failures, so
    the [catch] around it is never entered. *)
Definition buildContextualSystemInstruction (p : Embedding.Provider)
    (s : memoryService.Store) (baseInstruction prompt : string) : string :=
  let pinned_ := memoryService.getPinned s in
  let contextBlock :=
    if negb (List.length pinned_ =? 0)%nat then pinnedBlock pinned_ else "" in
  let relevant := memoryService.search p prompt 3 memoryService.defaultMinSimilarity s in
  let relevantUnpinned := filter (fun r => negb (truthy (isPinned r))) relevant in
  let contextBlock :=
    if negb (List.length relevantUnpinned =? 0)%nat
    then contextBlock ++ relevantBlock relevantUnpinned else contextBlock in
  match contextBlock with
  | EmptyString => baseInstruction
  | _ =>
      baseInstruction ++ newline ++ contextBlock ++ newline ++
      "(Utilize the Neural Core Context above to maintain continuity and adhere to project constraints.)"
  end.

End geminiService.

(** ** [geminiService.ts]: the specialist agents *)

Module geminiAgents.
Import Js Types geminiService.
Local Open Scope string_scope.

(** What a specialist answers a call with:
    [{ result: { content: result.content.map(c => ({ text: c.text })) } }] *)
Record ToolReply : Type := mkToolReply {
  reply_name    : string;
  reply_content : list (option string);
  reply_id      : option string
}.

Inductive AgentMessage : Type :=
| AgentPrompt (text_ : string)
| ToolReplies (replies : list ToolReply).

Section Agents.

Variable W : Type.

(** What a specialist calls: the chat session with the provider, the tool
    router and the timer of the retry wrapper.  As for the overseer, the
    system instruction and the declarations of the tools only shape what
    the provider answers and are left out.  [agentSettles calls w] names
    the places of the calls of a batch started in [w] in the order in
    which the event loop lets them settle. *)
Record AgentEnv : Type := mkAgentEnv {
  agentCredential  : W -> option string;
  agentSendMessage : AgentMessage -> W -> Outcome Response * W;
  agentCallTool    : string -> option Args -> W -> Outcome McpCallToolResult * W;
  agentSettles     : list FunctionCall -> W -> list nat;
  agentBackoffWait : Z -> W -> W
}.

Variable env : AgentEnv.

(** The callback of [response.functionCalls.map]: no [try] around the
    call of the router. *)
Definition replyTo (call : FunctionCall) (w : W) : Outcome ToolReply * W :=
  match agentCallTool env (call_name call) (call_args call) w with
  | (Throw e, w1) => (Throw e, w1)
  | (Return result, w1) =>
      match result_content result with
      | None => (Throw (typeError "map"), w1)
      | Some cs =>
          (Return {| reply_name := call_name call; reply_content := map text cs;
                     reply_id := call_id call |}, w1)
      end
  end.

(** [await Promise.all(response.functionCalls.map(...))].  Mapping the
    array starts every call; the calls then settle in an order that the
    event loop decides, not the array.  The join is fulfilled, with the
    replies in the order of the array, when every call is; it rejects
    with the first rejection to settle.

    [settleOrder n named] is the order in which the calls of a batch of
    [n] settle, as places in the array: the places [named] by the
    environment, each once and as far as they exist, and then the others
    in the order of the array. *)
Definition settleOrder (n : nat) (named : list nat) : list nat :=
  let picked := nodup Nat.eq_dec (filter (fun i => (i <? n)%nat) named) in
  (picked ++ filter (fun i => negb (existsb (Nat.eqb i) picked)) (seq 0 n))%list.

(** The calls settle one after the other in that order, each in the
    world the one before it left. *)
Fixpoint settle (calls : list FunctionCall) (order : list nat) (w : W)
  : list (nat * Outcome ToolReply) * W :=
  match order with
  | nil => (nil, w)
  | (i :: order')%list =>
      match nth_error calls i with
      | None => settle calls order' w
      | Some call =>
          let '(o, w1) := replyTo call w in
          let '(os, w2) := settle calls order' w1 in
          (((i, o) :: os)%list, w2)
      end
  end.

Fixpoint firstRejection (os : list (nat * Outcome ToolReply)) : option Error :=
  match os with
  | nil => None
  | ((_, Throw e) :: _)%list => Some e
  | ((_, Return _) :: os')%list => firstRejection os'
  end.

(** The reply of the call at place [i], if it was fulfilled. *)
Definition replyAt (os : list (nat * Outcome ToolReply)) (i : nat) : list ToolReply :=
  match find (fun o => (fst o =? i)%nat) os with
  | Some (_, Return r) => (r :: nil)%list
  | _ => nil
  end.

(** The calls that are still in flight when the join rejects are awaited
    by nobody; what they do is accounted for here, in the world the join
    leaves. *)
Definition replyAll (calls : list FunctionCall) (w : W) : Outcome (list ToolReply) * W :=
  let '(os, w') :=
    settle calls (settleOrder (List.length calls) (agentSettles env calls w)) w in
  match firstRejection os with
  | Some e => (Throw e, w')
  | None => (Return (flat_map (replyAt os) (seq 0 (List.length calls))), w')
  end.

(** How the [while] loop of a specialist is left. *)
Record AgentRun : Type := mkAgentRun {
  agentLast  : Outcome Response;
  agentTurns : nat;
  agentAfter : W
}.

(** [while (response.functionCalls && response.functionCalls.length > 0
    && turns < 5)] *)
Fixpoint replyLoop (fuel : nat) (turns_ : nat) (response : Response) (w : W)
  : option AgentRun :=
  match fuel with
  | O => None
  | S fuel' =>
      if hasCalls response && (turns_ <? 5)%nat then
        match replyAll (pendingCalls response) w with
        | (Throw e, w1) =>
            Some {| agentLast := Throw e; agentTurns := turns_; agentAfter := w1 |}
        | (Return replies, w1) =>
            match agentSendMessage env (ToolReplies replies) w1 with
            | (Throw e, w2) =>
                Some {| agentLast := Throw e; agentTurns := turns_; agentAfter := w2 |}
            | (Return response', w2) => replyLoop fuel' (S turns_) response' w2
            end
        end
      else Some {| agentLast := Return response; agentTurns := turns_; agentAfter := w |}
  end.

(** The function a looping specialist hands to [withRetry]. *)
Definition loopAttempt (fuel : nat) (prompt : string) : Async W (option string) :=
  fun w =>
    match agentCredential env w with
    | None =>
        Some (Throw (newError "Access Credential missing. Configure API Key in Hub."), w)
    | Some _ =>
        match agentSendMessage env (AgentPrompt prompt) w with
        | (Throw e, w1) => Some (Throw e, w1)
        | (Return response, w1) =>
            match replyLoop fuel 0 response w1 with
            | None => None
            | Some run =>
                match agentLast run with
                | Throw e => Some (Throw e, agentAfter run)
                | Return response' => Some (Return (response_text response'), agentAfter run)
                end
            end
        end
    end.

(** The function a specialist with a single round of tool calls hands to
    [withRetry]. *)
Definition roundAttempt (prompt : string) : Async W (option string) :=
  fun w =>
    match agentCredential env w with
    | None =>
        Some (Throw (newError "Access Credential missing. Configure API Key in Hub."), w)
    | Some _ =>
        match agentSendMessage env (AgentPrompt prompt) w with
        | (Throw e, w1) => Some (Throw e, w1)
        | (Return response, w1) =>
            if hasCalls response then
              match replyAll (pendingCalls response) w1 with
              | (Throw e, w2) => Some (Throw e, w2)
              | (Return replies, w2) =>
                  match agentSendMessage env (ToolReplies replies) w2 with
                  | (Throw e, w3) => Some (Throw e, w3)
                  | (Return response', w3) => Some (Return (response_text response'), w3)
                  end
              end
            else Some (Return (response_text response), w1)
        end
    end.

Definition runResearcherAgent (fuel : nat) (prompt : string) (w : W)
  : option (Run W (option string)) :=
  withRetryDefault (agentBackoffWait env) fuel (loopAttempt fuel prompt) w.

Definition runDataAnalystAgent (fuel : nat) (prompt : string) (w : W)
  : option (Run W (option string)) :=
  withRetryDefault (agentBackoffWait env) fuel (loopAttempt fuel prompt) w.

(** [runDeveloperAgent] without the [onCanvasUpdate] callback, which is
    how the overseer calls it. *)
Definition runDeveloperAgent (fuel : nat) (prompt : string) (w : W)
  : option (Run W (option string)) :=
  withRetryDefault (agentBackoffWait env) fuel (loopAttempt fuel prompt) w.

Definition runHrManagerAgent (fuel : nat) (prompt : string) (w : W)
  : option (Run W (option string)) :=
  withRetryDefault (agentBackoffWait env) fuel (roundAttempt prompt) w.

Definition runIntegrationAgent (fuel : nat) (prompt : string) (w : W)
  : option (Run W (option string)) :=
  withRetryDefault (agentBackoffWait env) fuel (roundAttempt prompt) w.

Definition runAntigravityAgent (fuel : nat) (prompt : string) (w : W)
  : option (Run W (option string)) :=
  withRetryDefault (agentBackoffWait env) fuel (roundAttempt prompt) w.

End Agents.

End geminiAgents.

(** ** [mcpServer.ts]: the internal tool server *)

Module mcpServer.
Import Js Types.
Local Open Scope string_scope.

Record McpResource : Type := mkResource {
  resource_uri         : string;
  resource_name        : string;
  resource_description : option string;
  resource_mimeType    : option string
}.

Record ResourceContent : Type := mkResourceContent {
  rc_uri      : string;
  rc_mimeType : option string;
  rc_text     : option string;
  rc_blob     : option string
}.

Record McpReadResourceResult : Type := mkReadResult {
  contents : list ResourceContent
}.

Record McpPromptArgument : Type := mkPromptArgument {
  argument_name        : string;
  argument_description : option string;
  argument_required    : option bool
}.

Record McpPrompt : Type := mkPrompt {
  prompt_name        : string;
  prompt_description : option string;
  prompt_arguments   : option (list McpPromptArgument)
}.

Record PromptMessage : Type := mkPromptMessage {
  role            : string;
  message_content : Content
}.

Record McpGetPromptResult : Type := mkPromptResult {
  result_description : option string;
  messages           : list PromptMessage
}.

Record RpcError : Type := mkRpcError {
  code          : Z;
  error_message : string
}.

(** The [TypeError] of reading a property of [request.params] when the
    request has no [params]. *)
Definition paramsMissing (property : string) : Error :=
  newError ("Cannot read properties of undefined (reading '" ++ property ++ "')").

Section Server.

(** The world the handlers act on and the arguments of a call (typed
    [any]; a call may come without arguments). *)
Variables (W Args : Type).

Record ToolEntry : Type := mkToolEntry {
  definition : McpTool;
  handler    : option Args -> W -> Outcome McpCallToolResult * W
}.

Record ResourceEntry : Type := mkResourceEntry {
  resource_definition : McpResource;
  reader              : W -> Outcome McpReadResourceResult * W
}.

Record PromptEntry : Type := mkPromptEntry {
  prompt_definition : McpPrompt;
  prompt_handler    : option Args -> W -> Outcome McpGetPromptResult * W
}.

Record Server : Type := mkServer {
  tools     : JsMap ToolEntry;
  resources : JsMap ResourceEntry;
  prompts   : JsMap PromptEntry
}.

Definition newServer : Server := {| tools := []; resources := []; prompts := [] |}.

(** [request.params], with the properties [handleMessage] reads. *)
Record Params : Type := mkParams {
  param_name      : option string;
  param_arguments : option Args;
  param_uri       : option string
}.

Record JsonRpcRequest : Type := mkRequest {
  method     : string;
  params     : option Params;
  request_id : Z
}.

(** [result: any], by the method that produced it. *)
Inductive RpcResult : Type :=
| ToolsResult (ts : list McpTool)
| CallResult (r : McpCallToolResult)
| ResourcesResult (rs : list McpResource)
| ReadResult (r : McpReadResourceResult)
| PromptsResult (ps : list McpPrompt)
| PromptResult (r : McpGetPromptResult).

Record JsonRpcResponse : Type := mkResponse {
  response_id : Z;
  result      : option RpcResult;
  error       : option RpcError
}.

Definition registerTool (d : McpTool)
    (h : option Args -> W -> Outcome McpCallToolResult * W) (s : Server) : Server :=
  {| tools := map_set (tool_name d) {| definition := d; handler := h |} (tools s);
     resources := resources s; prompts := prompts s |}.

Definition registerResource (d : McpResource)
    (r : W -> Outcome McpReadResourceResult * W) (s : Server) : Server :=
  {| tools := tools s;
     resources := map_set (resource_uri d)
                    {| resource_definition := d; reader := r |} (resources s);
     prompts := prompts s |}.

Definition registerPrompt (d : McpPrompt)
    (h : option Args -> W -> Outcome McpGetPromptResult * W) (s : Server) : Server :=
  {| tools := tools s; resources := resources s;
     prompts := map_set (prompt_name d)
                  {| prompt_definition := d; prompt_handler := h |} (prompts s) |}.

Definition listTools (s : Server) : list McpTool :=
  map definition (map_values (tools s)).

Definition listResources (s : Server) : list McpResource :=
  map resource_definition (map_values (resources s)).

Definition listPrompts (s : Server) : list McpPrompt :=
  map prompt_definition (map_values (prompts s)).

(** [map.get(key)] for a key that may be [undefined] *)
Definition lookup {V : Type} (k : option string) (m : JsMap V) : option V :=
  match k with
  | Some k' => map_get k' m
  | None => None
  end.

Definition faultResult (msg : string) : McpCallToolResult :=
  {| result_content := Some [textContent msg]; isError := Some true |}.

Definition callTool (s : Server) (name_ : option string) (args : option Args) (w : W)
  : McpCallToolResult * W :=
  match lookup name_ (tools s) with
  | None => (faultResult ("Tool " ++ show name_ ++ " not found."), w)
  | Some tool =>
      match handler tool args w with
      | (Return r, w1) => (r, w1)
      | (Throw e, w1) => (faultResult ("Fault: " ++ show (message e)), w1)
      end
  end.

Definition readResource (s : Server) (uri_ : option string) (w : W)
  : Outcome McpReadResourceResult * W :=
  match lookup uri_ (resources s) with
  | None => (Return {| contents := [] |}, w)
  | Some resource => reader resource w
  end.

Definition getPrompt (s : Server) (name_ : option string) (args : option Args) (w : W)
  : Outcome McpGetPromptResult * W :=
  match lookup name_ (prompts s) with
  | None => (Throw (newError ("Prompt " ++ show name_ ++ " missing")), w)
  | Some prompt => prompt_handler prompt args w
  end.

(** The [switch] of [handleMessage]. *)
Definition dispatch (s : Server) (request : JsonRpcRequest) (w : W)
  : Outcome RpcResult * W :=
  if String.eqb (method request) "tools/list" then
    (Return (ToolsResult (listTools s)), w)
  else if String.eqb (method request) "tools/call" then
    match params request with
    | None => (Throw (paramsMissing "name"), w)
    | Some p =>
        let '(r, w1) := callTool s (param_name p) (param_arguments p) w in
        (Return (CallResult r), w1)
    end
  else if String.eqb (method request) "resources/list" then
    (Return (ResourcesResult (listResources s)), w)
  else if String.eqb (method request) "resources/read" then
    match params request with
    | None => (Throw (paramsMissing "uri"), w)
    | Some p =>
        match readResource s (param_uri p) w with
        | (Return r, w1) => (Return (ReadResult r), w1)
        | (Throw e, w1) => (Throw e, w1)
        end
    end
  else if String.eqb (method request) "prompts/list" then
    (Return (PromptsResult (listPrompts s)), w)
  else if String.eqb (method request) "prompts/get" then
    match params request with
    | None => (Throw (paramsMissing "name"), w)
    | Some p =>
        match getPrompt s (param_name p) (param_arguments p) w with
        | (Return r, w1) => (Return (PromptResult r), w1)
        | (Throw e, w1) => (Throw e, w1)
        end
    end
  else (Throw (newError "Method not found"), w).

Definition handleMessage (s : Server) (request : JsonRpcRequest) (w : W)
  : JsonRpcResponse * W :=
  match dispatch s request w with
  | (Return r, w1) =>
      ({| response_id := request_id request; result := Some r; error := None |}, w1)
  | (Throw e, w1) =>
      ({| response_id := request_id request; result := None;
          error := Some {| code := -32601;
                           error_message :=
                             geminiService.orElse (message e) "Internal server error" |} |},
       w1)
  end.

End Server.

End mcpServer.

(** ** [mcpTransport.ts] and the [SimulatedTransport] of [mcpClient.ts] *)

Module mcpTransport.
Import Js Types.
Local Open Scope string_scope.

Section Transports.

(** The world of the tool handlers, the arguments of a call, and the
    handles of the transports that reach other servers. *)
Variables (W Args Remote : Type).

(** The server singleton [mcpServer]. *)
Variable server : mcpServer.Server W Args.

(** The transports that leave the process ([SseTransport]), as the
    router sees them, and the clock. *)
Variable remote : mcpClient.Net W Remote (option Args).

(** The [handler] given to [registerSimulatedConnection]. *)
Definition Handler : Type :=
  string -> option Args -> W -> Outcome McpCallToolResult * W.

Inductive Transport : Type :=
| Internal
| Simulated (name_ : string) (handler : Handler)
| External (t : Remote).

(** The world with the [connected] flag of the [InternalTransport]
    instance.  The flag of a [SimulatedTransport] is written by [start]
    and [close] and read by nothing the router calls. *)
Record World : Type := mkWorld {
  internalConnected : bool;
  outside           : W
}.

Definition inside (flag : bool) {T : Type} (r : T * W) : T * World :=
  (fst r, {| internalConnected := flag; outside := snd r |}).

(** The request and the response are the same objects on both sides;
    these are the properties each side reads. *)
Definition received (m : mcpClient.JsonRpcRequest (option Args))
  : mcpServer.JsonRpcRequest Args :=
  {| mcpServer.method := mcpClient.method m;
     mcpServer.params :=
       match mcpClient.params m with
       | Some (name_, args) =>
           Some {| mcpServer.param_name := Some name_;
                   mcpServer.param_arguments := args;
                   mcpServer.param_uri := None |}
       | None => None
       end;
     mcpServer.request_id := mcpClient.req_id m |}.

Definition resultView (r : mcpServer.RpcResult) : mcpClient.RpcResult :=
  match r with
  | mcpServer.ToolsResult ts =>
      {| mcpClient.r_tools := Some ts; mcpClient.r_content := None;
         mcpClient.r_isError := None |}
  | mcpServer.CallResult c =>
      {| mcpClient.r_tools := None; mcpClient.r_content := result_content c;
         mcpClient.r_isError := isError c |}
  | _ =>
      {| mcpClient.r_tools := None; mcpClient.r_content := None;
         mcpClient.r_isError := None |}
  end.

Definition delivered (r : mcpServer.JsonRpcResponse) : mcpClient.JsonRpcResponse :=
  {| mcpClient.rpc_result := option_map resultView (mcpServer.result r);
     mcpClient.rpc_error :=
       option_map (fun e => {| mcpClient.code := mcpServer.code e;
                               mcpClient.rpc_message := mcpServer.error_message e |})
                  (mcpServer.error r) |}.

(** [InternalTransport] *)
Definition internalStart (w : World) : Outcome unit * World :=
  (Return tt, {| internalConnected := true; outside := outside w |}).

Definition internalClose (w : World) : World :=
  {| internalConnected := false; outside := outside w |}.

Definition internalSend (m : mcpClient.JsonRpcRequest (option Args)) (w : World)
  : Outcome mcpClient.JsonRpcResponse * World :=
  if negb (internalConnected w) then
    (Throw (newError "Internal Transport not connected"), w)
  else
    let '(response, w1) := mcpServer.handleMessage server (received m) (outside w) in
    (Return (delivered response), {| internalConnected := true; outside := w1 |}).

(** The request handler that [registerSimulatedConnection] builds
    around [handler]. *)
Definition simulatedHandler (handler : Handler)
    (req : mcpClient.JsonRpcRequest (option Args)) (w : W)
  : Outcome mcpClient.JsonRpcResponse * W :=
  if String.eqb (mcpClient.method req) "tools/call" then
    match mcpClient.params req with
    | None => (Throw (mcpServer.paramsMissing "name"), w)
    | Some (name_, args) =>
        match handler name_ args w with
        | (Throw e, w1) => (Throw e, w1)
        | (Return res, w1) =>
            (Return {| mcpClient.rpc_result :=
                         Some {| mcpClient.r_tools := None;
                                 mcpClient.r_content := result_content res;
                                 mcpClient.r_isError := isError res |};
                       mcpClient.rpc_error := None |}, w1)
        end
    end
  else
    (Return {| mcpClient.rpc_result :=
                 Some {| mcpClient.r_tools := None; mcpClient.r_content := None;
                         mcpClient.r_isError := None |};
               mcpClient.rpc_error := None |}, w).

(** [SimulatedTransport.send] *)
Definition simulatedSend (handler : Handler)
    (m : mcpClient.JsonRpcRequest (option Args)) (w : W)
  : Outcome mcpClient.JsonRpcResponse * W :=
  if String.eqb (mcpClient.method m) "tools/list" then
    (Return {| mcpClient.rpc_result :=
                 Some {| mcpClient.r_tools := Some []; mcpClient.r_content := None;
                         mcpClient.r_isError := None |};
               mcpClient.rpc_error := None |}, w)
  else simulatedHandler handler m w.

(** The three kinds of transport behind the operations of
    [IMcpTransport]. *)
Definition transports : mcpClient.Net World Transport (option Args) :=
  {| mcpClient.start := fun t w =>
       match t with
       | Internal => internalStart w
       | Simulated _ _ => (Return tt, w)
       | External r => inside (internalConnected w) (mcpClient.start remote r (outside w))
       end;
     mcpClient.close := fun t w =>
       match t with
       | Internal => internalClose w
       | Simulated _ _ => w
       | External r =>
           {| internalConnected := internalConnected w;
              outside := mcpClient.close remote r (outside w) |}
       end;
     mcpClient.send := fun t m w =>
       match t with
       | Internal => internalSend m w
       | Simulated _ handler =>
           inside (internalConnected w) (simulatedSend handler m (outside w))
       | External r =>
           inside (internalConnected w) (mcpClient.send remote r m (outside w))
       end;
     mcpClient.now := fun w => mcpClient.now remote (outside w) |}.

(** [connectInternal] *)
Definition connectInternal (conns : mcpClient.Connections Transport) (w : World)
  : mcpClient.Connections Transport * World :=
  mcpClient.registerConnection transports "internal" Internal conns w.

End Transports.

End mcpTransport.

(** ** [videoService.ts]: model table and fallback *)

Module videoService.
Import Js Types.
Local Open Scope string_scope.

Inductive ModelProvider : Type := viaGoogle | viaHuggingFace | viaReplicate.

Inductive Capability : Type := t2v | i2v.

Record VideoModel : Type := mkVideoModel {
  model_id       : string;
  model_name     : string;
  model_provider : ModelProvider;
  tier           : nat;
  capabilities   : list Capability;
  apiPath        : option string
}.

(** [VIDEO_MODELS[0]] *)
Definition firstModel : VideoModel :=
  {| model_id := "Wan-AI/Wan2.1-T2V-1.3B"; model_name := "Wan 2.1 (1.3B)";
     model_provider := viaHuggingFace; tier := 1; capabilities := [t2v];
     apiPath := Some "Wan-AI/Wan2.1-T2V-1.3B" |}.

(** The table [VIDEO_MODELS], without the descriptions shown to the user. *)
Definition VIDEO_MODELS : list VideoModel :=
  [ firstModel;
    {| model_id := "THUDM/CogVideoX-5b"; model_name := "CogVideoX 5B";
       model_provider := viaHuggingFace; tier := 1; capabilities := [t2v];
       apiPath := Some "THUDM/CogVideoX-5b" |};
    {| model_id := "stabilityai/stable-video-diffusion-img2vid-xt-1-1";
       model_name := "Stable Video Diffusion (SVD)";
       model_provider := viaHuggingFace; tier := 1; capabilities := [i2v];
       apiPath := Some "stabilityai/stable-video-diffusion-img2vid-xt-1-1" |};
    {| model_id := "genmo/mochi-1-preview"; model_name := "Mochi 1";
       model_provider := viaHuggingFace; tier := 1; capabilities := [t2v];
       apiPath := Some "genmo/mochi-1-preview" |};
    {| model_id := "Lightricks/LTX-Video"; model_name := "LTX Video";
       model_provider := viaHuggingFace; tier := 1; capabilities := [t2v; i2v];
       apiPath := Some "Lightricks/LTX-Video" |};
    {| model_id := "damo-vilab/text-to-video-ms-1.7b"; model_name := "ModelScope T2V";
       model_provider := viaHuggingFace; tier := 2; capabilities := [t2v];
       apiPath := Some "damo-vilab/text-to-video-ms-1.7b" |};
    {| model_id := "ali-vilab/i2vgen-xl"; model_name := "I2VGen-XL";
       model_provider := viaHuggingFace; tier := 2; capabilities := [i2v];
       apiPath := Some "ali-vilab/i2vgen-xl" |};
    {| model_id := "cerspense/zeroscope_v2_576w"; model_name := "ZeroScope v2";
       model_provider := viaHuggingFace; tier := 2; capabilities := [t2v];
       apiPath := Some "cerspense/zeroscope_v2_576w" |} ].

Definition FALLBACK_MODEL_ID : string := "cerspense/zeroscope_v2_576w".

(** [prompt] and [image] may be absent or empty at run time. *)
Record VideoGenerationConfig : Type := mkVideoConfig {
  prompt      : option string;
  aspectRatio : string;
  resolution  : string;
  image       : option string
}.

Record Video : Type := mkVideo {
  uri      : string;
  provider : string
}.

Definition given (v : option string) : bool :=
  match v with
  | Some EmptyString | None => false
  | Some _ => true
  end.

Definition can (c : Capability) (m : VideoModel) : bool :=
  existsb (fun c' => match c, c' with t2v, t2v | i2v, i2v => true | _, _ => false end)
          (capabilities m).

Definition showProvider (p : ModelProvider) : string :=
  match p with
  | viaGoogle => "google"
  | viaHuggingFace => "huggingface"
  | viaReplicate => "replicate"
  end.

Definition isAuthError (msg : string) : bool :=
  includes msg "Access Restricted" || includes msg "Token" ||
  includes msg "403" || includes msg "401" || includes msg "429" ||
  includes msg "Quota" || includes msg "billing" || includes msg "Network Error".

(** [VIDEO_MODELS.find(m => m.id === FALLBACK_MODEL_ID)?.capabilities.includes('i2v')] *)
Definition fallbackAnimates : bool :=
  match find (fun m => String.eqb (model_id m) FALLBACK_MODEL_ID) VIDEO_MODELS with
  | Some m => can i2v m
  | None => false
  end.

Section Generation.

Variable W : Type.

(** [runHuggingFaceGeneration]: the request to the inference endpoint *)
Variable runHuggingFaceGeneration :
  VideoGenerationConfig -> VideoModel -> W -> Outcome Video * W.

Fixpoint generateVideo (fuel : nat) (config : VideoGenerationConfig)
    (modelId : option string) (w : W) : option (Outcome Video * W) :=
  match fuel with
  | O => None
  | S fuel' =>
      let requestedModelId :=
        match modelId with
        | Some EmptyString | None => model_id firstModel
        | Some i => i
        end in
      let model :=
        match find (fun m => String.eqb (model_id m) requestedModelId) VIDEO_MODELS with
        | Some m => m
        | None => firstModel
        end in
      if can i2v model && negb (given (image config)) && given (prompt config)
         && negb (can t2v model)
      then
        Some (Throw (newError (model_name model ++
                               " is an Image-to-Video model. Please attach an image.")), w)
      else
        let '(attempt, w1) :=
          match model_provider model with
          | viaGoogle =>
              (Throw (newError
                 "Veo model is currently disabled. Please use an Open Source alternative."), w)
          | viaHuggingFace => runHuggingFaceGeneration config model w
          | viaReplicate =>
              (Throw (newError ("Provider " ++ showProvider (model_provider model) ++
                                " not supported yet.")), w)
          end in
        match attempt with
        | Return v => Some (Return v, w1)
        | Throw error =>
            match message error with
            | None =>
                Some (Throw (newError
                        "Cannot read properties of undefined (reading 'includes')"), w1)
            | Some msg =>
                if String.eqb requestedModelId FALLBACK_MODEL_ID then Some (Throw error, w1)
                else if isAuthError msg then
                  if given (image config) && negb fallbackAnimates
                     && negb (given (prompt config))
                  then Some (Throw error, w1)
                  else generateVideo fuel' config (Some FALLBACK_MODEL_ID) w1
                else Some (Throw error, w1)
            end
        end
  end.

End Generation.

End videoService.

(** ** [imageService.ts]: provider routing *)

Module imageService.
Import Js.
Local Open Scope string_scope.

(** ['google' | 'huggingface' | 'auto'] *)
Inductive Route : Type := toGoogle | toHuggingFace | automatic.

Record ImageGenerationConfig : Type := mkImageConfig {
  prompt      : string;
  size        : string;
  aspectRatio : string;
  provider    : option Route
}.

Record Image : Type := mkImage {
  data        : string;
  producedBy  : string;
  model       : string
}.

Section Routing.

Variable W : Type.

(** The request [generateWithGemini] makes once it has a key, and
    [generateWithHuggingFace] with its token (empty for anonymous
    access). *)
Variable requestGemini : ImageGenerationConfig -> string -> W -> Outcome Image * W.
Variable generateWithHuggingFace : ImageGenerationConfig -> string -> W -> Outcome Image * W.

Definition generateWithGemini (config : ImageGenerationConfig) (apiKey : option string)
    (w : W) : Outcome Image * W :=
  match apiKey with
  | Some EmptyString | None => (Throw (newError "Google API Key missing."), w)
  | Some k => requestGemini config k w
  end.

Definition present (v : option string) : bool :=
  match v with
  | Some EmptyString | None => false
  | Some _ => true
  end.

(** [generateImage], for the keys the router returns: [googleKey] from
    [getUniversalKey] and [hfKey] from [getHuggingFaceKey]. *)
Definition generateImage (googleKey hfKey : option string)
    (config : ImageGenerationConfig) (w : W) : Outcome Image * W :=
  let provider_ := match provider config with Some p => p | None => automatic end in
  let provider_ :=
    match provider_ with
    | automatic =>
        if present googleKey && negb (present hfKey) then toGoogle
        else if negb (present googleKey) then toHuggingFace
        else if present googleKey && present hfKey then toGoogle
        else toGoogle
    | p => p
    end in
  let token := match hfKey with Some EmptyString | None => "" | Some t => t end in
  let '(outcome, w') :=
    match provider_ with
    | toGoogle =>
        match generateWithGemini config googleKey w with
        | (Return v, w1) => (Return v, w1)
        | (Throw _, w1) => generateWithHuggingFace config token w1
        end
    | _ => generateWithHuggingFace config token w
    end in
  match outcome with
  | Return v => (Return v, w')
  | Throw error =>
      (Throw (newError ("Image Generation Failed: " ++ show (message error))), w')
  end.

End Routing.

End imageService.

(** ** [mcpServer.ts]: the [save_memory] tool of [registerInternalTools] *)

Module internalTools.
Import Js Types Embedding memoryService.
Local Open Scope string_scope.

(** The arguments the handler reads; [tags] is optional. *)
Record SaveMemoryArgs : Type := mkSaveMemoryArgs {
  save_content : string;
  save_tags    : option (list string)
}.

Definition saveMemoryTool : McpTool :=
  {| tool_name := "save_memory";
     tool_description :=
       Some "Save a new fact, user preference, or project detail to long-term vector memory." |}.

(** The handler, in a world that consists of the memory store; browser,
    provider and clock are those of [addMemory]. *)
Definition save_memory (b : Browser) (p : Provider) (c : Clock)
    (args : option SaveMemoryArgs) (s : Store) : Outcome McpCallToolResult * Store :=
  match args with
  | None => (Throw (mcpServer.paramsMissing "tags"), s)
  | Some a =>
      let tags_ := match save_tags a with Some ts => ts | None => [] end in
      match addMemory b p c (save_content a) system_note tags_ s with
      | (None, s') =>
          (Return {| result_content := Some [textContent "Memory write failed."];
                     isError := Some true |}, s')
      | (Some node, s') =>
          (Return {| result_content :=
                       Some [textContent
                               ("[Neural Core] Memory successfully assimilated. ID: " ++ id node)];
                     isError := None |}, s')
      end
  end.

(** The registration of the tool on a server. *)
Definition withSaveMemory (b : Browser) (p : Provider) (c : Clock)
    (s : mcpServer.Server Store SaveMemoryArgs) : mcpServer.Server Store SaveMemoryArgs :=
  mcpServer.registerTool saveMemoryTool (save_memory b p c) s.

End internalTools.

(* ================================================================== *)
(** * Part II: properties *)
(* ================================================================== *)

(** ** Arrays: [sort] and [slice] *)

Module JsFacts.
Import Js.

Section SortFacts.

Context {A : Type}.
Variable after : A -> A -> bool.

Lemma insert_perm (x : A) (l : list A) : Permutation (insert after x l) (x :: l).
Proof.
  induction l as [|y l IH]; simpl; [reflexivity|].
  destruct (after x y); [|reflexivity].
  rewrite IH. apply perm_swap.
Qed.

Lemma sort_perm (l : list A) : Permutation (sort after l) l.
Proof.
  induction l as [|x l IH]; simpl; [constructor|].
  rewrite insert_perm. now constructor.
Qed.

Lemma sort_In (l : list A) (x : A) : In x (sort after l) <-> In x l.
Proof.
  split; apply Permutation_in; [|symmetry]; apply sort_perm.
Qed.

Lemma sort_In_inv (l : list A) (x : A) : In x (sort after l) -> In x l.
Proof. apply sort_In. Qed.

Lemma In_sort (l : list A) (x : A) : In x l -> In x (sort after l).
Proof. apply sort_In. Qed.

Lemma sort_length (l : list A) : List.length (sort after l) = List.length l.
Proof. apply Permutation_length, sort_perm. Qed.

(** The comparator agrees with an order [le] ("may stand before") on the
    elements that satisfy [P]. *)
Variable P : A -> Prop.
Variable le : A -> A -> Prop.
Hypothesis after_false : forall x y, P x -> P y -> after x y = false -> le x y.
Hypothesis after_true : forall x y, P x -> P y -> after x y = true -> le y x.
Hypothesis le_trans : forall x y z, P x -> P y -> P z -> le x y -> le y z -> le x z.

Lemma insert_sorted (x : A) (l : list A) :
  P x -> Forall P l -> StronglySorted le l -> StronglySorted le (insert after x l).
Proof.
  intros Px Pl Hs. induction Hs as [|y l Hs IH Hy]; simpl.
  - repeat constructor.
  - inversion Pl as [|? ? Py Pl']; subst.
    destruct (after x y) eqn:E.
    + constructor; [now apply IH|].
      apply Forall_forall. intros z Hz.
      apply (Permutation_in _ (insert_perm x l)) in Hz.
      destruct Hz as [<-|Hz]; [now apply after_true|].
      rewrite Forall_forall in Hy. now apply Hy.
    + assert (Hxy : le x y) by now apply after_false.
      constructor; [now constructor|].
      constructor; [assumption|].
      rewrite Forall_forall in *. intros z Hz.
      apply le_trans with y; auto.
Qed.

Lemma sort_sorted (l : list A) : Forall P l -> StronglySorted le (sort after l).
Proof.
  induction 1 as [|x l Px Pl IH]; simpl; [constructor|].
  apply insert_sorted; [assumption| |assumption].
  apply Forall_forall. intros y Hy. apply sort_In_inv in Hy.
  rewrite Forall_forall in Pl. auto.
Qed.

End SortFacts.

Section ListFacts.

Context {A : Type}.

Lemma slice0_nonneg (l : list A) (n : Z) :
  (0 <= n)%Z -> slice0 l n = firstn (Z.to_nat n) l.
Proof.
  intros Hn. unfold slice0.
  destruct (n <? 0)%Z eqn:E; [|reflexivity]. apply Z.ltb_lt in E. lia.
Qed.

Lemma In_firstn_inv (n : nat) (l : list A) (x : A) : In x (firstn n l) -> In x l.
Proof.
  revert l. induction n as [|n IH]; intros [|y l]; simpl; try contradiction.
  intros [H|H]; auto.
Qed.

Lemma filter_perm (f : A -> bool) (l l' : list A) :
  Permutation l l' -> Permutation (filter f l) (filter f l').
Proof.
  induction 1 as [|x l l' _ IH|x y l|l l' l'' _ IH1 _ IH2]; simpl.
  - constructor.
  - destruct (f x); [now constructor|assumption].
  - destruct (f x), (f y); try reflexivity. apply perm_swap.
  - now transitivity (filter f l').
Qed.

Lemma filter_all (f : A -> bool) (l : list A) :
  (forall x, In x l -> f x = true) -> filter f l = l.
Proof.
  induction l as [|x l IH]; simpl; intros H; [reflexivity|].
  rewrite (H x (or_introl eq_refl)). f_equal. apply IH. auto.
Qed.

Lemma filter_none (f : A -> bool) (l : list A) :
  (forall x, In x l -> f x = false) -> filter f l = [].
Proof.
  induction l as [|x l IH]; simpl; intros H; [reflexivity|].
  rewrite (H x (or_introl eq_refl)). apply IH. auto.
Qed.

Lemma sorted_app_le (R : A -> A -> Prop) (l1 l2 : list A) :
  StronglySorted R (l1 ++ l2) ->
  forall x y, In x l1 -> In y l2 -> R x y.
Proof.
  induction l1 as [|a l1 IH]; simpl; intros Hs x y Hx Hy; [contradiction|].
  inversion Hs as [|? ? Hs' Ha]; subst.
  destruct Hx as [<-|Hx].
  - rewrite Forall_forall in Ha. apply Ha, in_or_app. now right.
  - now apply IH.
Qed.

End ListFacts.

End JsFacts.

(** ** The memory store: eviction, clearing, embedding failures *)

Module MemoryFacts.
Import Js Types Embedding memoryService JsFacts.
Local Open Scope string_scope.
Local Open Scope list_scope.

(** Newest first: [a] may stand before [b]. *)
Definition newerOrSame (a b : MemoryNode) : Prop := (timestamp b <= timestamp a)%Z.

Lemma sort_older_sorted (l : list MemoryNode) :
  StronglySorted newerOrSame (sort older l).
Proof.
  apply sort_sorted with (P := fun _ => True).
  - intros x y _ _ H. unfold older in H. apply Z.ltb_ge in H.
    unfold newerOrSame. lia.
  - intros x y _ _ H. unfold older in H. apply Z.ltb_lt in H.
    unfold newerOrSame. lia.
  - unfold newerOrSame. intros; lia.
  - apply Forall_forall. auto.
Qed.

Lemma pinned_unpinned (m : MemoryNode) : unpinned m = negb (pinned m).
Proof. reflexivity. Qed.

Lemma evict_unpinned (mems : list MemoryNode) :
  Permutation
    (filter unpinned (evict mems))
    (firstn (Z.to_nat (Z.max 0 (Z.of_nat MAX_MEMORIES
                                - Z.of_nat (List.length (filter pinned mems)))))
            (sort older (filter unpinned mems))).
Proof.
  unfold evict. rewrite slice0_nonneg by lia.
  set (k := Z.to_nat _). set (U := sort older (filter unpinned mems)).
  rewrite (filter_perm unpinned (sort_perm older _)).
  rewrite filter_app.
  rewrite (@filter_none _ unpinned (filter pinned mems)).
  - simpl. rewrite filter_all; [reflexivity|].
    intros x Hx. apply In_firstn_inv in Hx. unfold U in Hx.
    apply sort_In_inv in Hx. now apply filter_In in Hx.
  - intros x Hx. apply filter_In in Hx. rewrite pinned_unpinned.
    destruct Hx as [_ ->]. reflexivity.
Qed.

(** C1. When the size check of [saveMemories] fires (more than 200
    nodes), every node that was pinned is still in the store afterwards;
    the unpinned nodes split into the retained ones and the dropped ones
    so that no dropped node is more recent than a retained one; and the
    number of retained unpinned nodes is at most [max(0, 200 - pinned)]. *)
Theorem saveMemories_eviction (b : Browser) (s : Store) :
  hasWindow b = true ->
  (MAX_MEMORIES < List.length (memories s))%nat ->
  let before := memories s in
  let after_ := memories (saveMemories b s) in
  (forall m, In m before -> pinned m = true -> In m after_) /\
  (exists dropped,
      Permutation (filter unpinned before) (filter unpinned after_ ++ dropped) /\
      forall kept old, In kept (filter unpinned after_) -> In old dropped ->
                       (timestamp old <= timestamp kept)%Z) /\
  (Z.of_nat (List.length (filter unpinned after_))
   <= Z.max 0 (200 - Z.of_nat (List.length (filter pinned before))))%Z.
Proof.
  intros Hw Hlen before after_.
  assert (Hafter : after_ = evict before).
  { unfold after_, saveMemories. rewrite Hw. simpl.
    apply Nat.ltb_lt in Hlen. now rewrite Hlen. }
  rewrite Hafter. clear Hafter after_.
  pose proof (evict_unpinned before) as Hperm.
  set (k := Z.to_nat _) in Hperm. set (U := sort older (filter unpinned before)) in Hperm.
  split; [|split].
  - intros m Hin Hp. unfold evict. apply In_sort, in_or_app. left.
    apply filter_In. now split.
  - exists (skipn k U). split.
    + rewrite Hperm, firstn_skipn. symmetry. apply sort_perm.
    + intros kept old Hk Ho.
      apply (Permutation_in _ Hperm) in Hk.
      apply (@sorted_app_le _ newerOrSame (firstn k U) (skipn k U)); auto.
      rewrite firstn_skipn. apply sort_older_sorted.
  - rewrite (Permutation_length Hperm), length_firstn.
    unfold k, MAX_MEMORIES. lia.
Qed.

(** A store of 201 nodes, the two oldest of them pinned. *)
Definition sampleNode (i : nat) : MemoryNode :=
  {| id := ("mem-" ++ showNat i)%string; content := "note"; embedding := [];
     timestamp := Z.of_nat i; type := interaction; relevance := 0;
     tags := []; isPinned := if (i <? 2)%nat then Some true else None |}.

Definition fullStore : Store :=
  {| memories := map sampleNode (seq 0 201); stored := None |}.

Definition browser : Browser :=
  {| hasWindow := true; setItemOk := fun _ => true |}.

Lemma saveMemories_eviction_witness :
  hasWindow browser = true /\
  (MAX_MEMORIES < List.length (memories fullStore))%nat /\
  (forall m, In m (memories fullStore) -> pinned m = true ->
             In m (memories (saveMemories browser fullStore))).
Proof.
  split; [reflexivity|].
  split; [apply Nat.ltb_lt; vm_compute; reflexivity|].
  apply (saveMemories_eviction (b := browser) (s := fullStore)).
  - reflexivity.
  - apply Nat.ltb_lt. vm_compute. reflexivity.
Defined.

(** *** [clear] *)

Definition pinnedFact : MemoryNode :=
  {| id := "mem-1"; content := "User prefers dark mode"; embedding := [];
     timestamp := 1; type := user_fact; relevance := 0;
     tags := []; isPinned := Some true |}.

Definition pinnedStore : Store :=
  {| memories := [pinnedFact]; stored := Some [pinnedFact] |}.

(** C9, as stated, fails: a pinned node present before [clear] is gone
    after it. *)
Lemma clear_drops_pinned :
  In pinnedFact (memories pinnedStore) /\
  pinned pinnedFact = true /\
  ~ In pinnedFact (memories (clear pinnedStore)).
Proof.
  split; [now left|]. split; [reflexivity|]. simpl. tauto.
Qed.

(** C9, amended.  [clear] is a full wipe: whatever the store held, pinned
    or not, the collection is empty afterwards, no pinned node is left
    and the stored item is removed. *)
Theorem clear_wipes_everything (s : Store) :
  memories (clear s) = [] /\
  getPinned (clear s) = [] /\
  stored (clear s) = None /\
  (forall m, ~ In m (memories (clear s))).
Proof.
  repeat split. simpl. tauto.
Qed.

(** [clear] has no guard for a missing [window]: outside a browser the
    collection is emptied all the same, the call then fails on
    [localStorage], and the stored item stays as it was. *)
Lemma clearAnywhere_outcome (b : Browser) (s : Store) :
  memories (snd (clearAnywhere b s)) = [] /\
  (hasWindow b = true -> clearAnywhere b s = (Return tt, clear s)) /\
  (hasWindow b = false ->
   fst (clearAnywhere b s) = Throw (newError "localStorage is not defined") /\
   stored (snd (clearAnywhere b s)) = stored s).
Proof.
  unfold clearAnywhere. destruct (hasWindow b); simpl; repeat split; auto; discriminate.
Qed.

(** *** Embedding failures *)

(** The provider call fails for [text]: no credential, a rejected
    request, or an answer without embedding values. *)
Definition embeddingFails (p : Provider) (text_ : string) : Prop :=
  universalKey p = None \/
  (exists e, embedContent p text_ = Throw e) \/
  (exists r, embedContent p text_ = Return r /\
             (embedding_values r = None \/ embedding_values r = Some None)).

Lemma getEmbedding_fails (p : Provider) (text_ : string) :
  embeddingFails p text_ -> getEmbedding p text_ = Return None.
Proof.
  unfold getEmbedding, getClient.
  intros [H|[[e H]|[r [H [H'|H']]]]]; try rewrite H;
    destruct (universalKey p); try reflexivity; rewrite ?H, ?H'; reflexivity.
Qed.

(** [getEmbedding] never rejects. *)
Lemma getEmbedding_returns (p : Provider) (text_ : string) :
  exists v, getEmbedding p text_ = Return v.
Proof.
  unfold getEmbedding. destruct (getClient p) as [e0|k]; [now eexists|].
  destruct (embedContent p text_) as [e|r]; [now eexists|].
  destruct (embedding_values r) as [[vals|]|]; now eexists.
Qed.

(** C8. When the embedding call fails, [addMemory] returns no node and
    leaves the store (collection and stored item) as it was, and [search]
    returns the empty list; the failure itself is absorbed by
    [getEmbedding], which settles with [null]. *)
Theorem embedding_failure_degrades (b : Browser) (p : Provider) (c : Clock)
    (content_ query : string) (type_ : MemoryType) (tags_ : list string)
    (limit : Z) (minSimilarity : float) (s : Store) :
  embeddingFails p content_ ->
  embeddingFails p query ->
  getEmbedding p content_ = Return None /\
  getEmbedding p query = Return None /\
  addMemory b p c content_ type_ tags_ s = (None, s) /\
  search p query limit minSimilarity s = [].
Proof.
  intros Hc Hq.
  pose proof (getEmbedding_fails Hc) as Ec.
  pose proof (getEmbedding_fails Hq) as Eq.
  repeat split; auto.
  - unfold addMemory. now rewrite Ec.
  - unfold search. rewrite Eq. now destruct (_ =? 0)%nat.
Qed.

Definition offlineProvider : Provider :=
  {| universalKey := Some "key";
     embedContent := fun _ => Throw (newError "fetch failed") |}.

Definition noon : Clock := {| now_id := 1700000000000; rand_id := "k3x9q"; now_stamp := 1700000000000 |}.

Lemma embedding_failure_degrades_witness :
  embeddingFails offlineProvider "User prefers dark mode" /\
  embeddingFails offlineProvider "theme preference" /\
  addMemory browser offlineProvider noon "User prefers dark mode" user_fact []
            pinnedStore = (None, pinnedStore) /\
  search offlineProvider "theme preference" 5 0.5%float pinnedStore = [].
Proof.
  assert (H : forall t, embeddingFails offlineProvider t).
  { intros t. right. left. eexists. reflexivity. }
  split; [apply H|]. split; [apply H|].
  split;
    apply (embedding_failure_degrades browser noon user_fact [] 5 0.5%float pinnedStore
             (H "User prefers dark mode"%string) (H "theme preference"%string)).
Defined.

End MemoryFacts.

(** ** Credential profiles: one active profile at most *)

Module RouterFacts.
Import Js Types mcpRouter.
Local Open Scope string_scope.
Local Open Scope list_scope.

Definition ids (r : Router) : list string := map profile_id (profiles r).

Example detectPlatform_prefixes :
  trim "  hf_abc d " = "hf_abc d" /\
  detectPlatform " hf_abc" custom = huggingface /\
  detectPlatform "sk-123" google = openai /\
  detectPlatform "sk-123" anthropic = anthropic /\
  detectPlatform "AIza-1" google = google.
Proof. repeat split. Qed.

(** White space beyond ASCII is trimmed as well: a no-break space
    (U+00A0) before the key and an em space (U+2003) and a byte order
    mark (U+FEFF) after it. *)
Example detectPlatform_unicode :
  let nbsp := String (ascii_of_nat 194) (String (ascii_of_nat 160) EmptyString) in
  let emsp := String (ascii_of_nat 226) (String (ascii_of_nat 128)
                (String (ascii_of_nat 131) EmptyString)) in
  let bom := String (ascii_of_nat 239) (String (ascii_of_nat 187)
               (String (ascii_of_nat 191) EmptyString)) in
  (trim (nbsp ++ " hf_abc" ++ emsp ++ bom) = "hf_abc" /\
   detectPlatform (nbsp ++ "hf_abc") google = huggingface /\
   detectPlatform (emsp ++ "sk-123" ++ nbsp) custom = openai /\
   trim (nbsp ++ emsp) = "" /\
   trim ("caf" ++ String (ascii_of_nat 195) (String (ascii_of_nat 169) " "))
   = "caf" ++ String (ascii_of_nat 195) (String (ascii_of_nat 169) ""))%string.
Proof. repeat split. Qed.

Lemma saveProfiles_profiles (hw : bool) (r : Router) :
  profiles (saveProfiles hw r) = profiles r.
Proof. unfold saveProfiles. now destruct hw. Qed.

Lemma addProfile_profiles hw uuid n k p r :
  profiles (snd (addProfile hw uuid n k p r))
  = profiles r ++ [fst (addProfile hw uuid n k p r)].
Proof. unfold addProfile. simpl. now rewrite saveProfiles_profiles. Qed.

Lemma removeProfile_profiles hw i r :
  profiles (removeProfile hw i r)
  = filter (fun p => negb (String.eqb (profile_id p) i)) (profiles r).
Proof. unfold removeProfile. now rewrite saveProfiles_profiles. Qed.

Lemma setActiveProfile_profiles hw i r :
  profiles (setActiveProfile hw i r)
  = map (fun p => {| profile_id := profile_id p; name := name p; key := key p;
                     isActive := idIs i p; platform := platform p |}) (profiles r).
Proof. unfold setActiveProfile. now rewrite saveProfiles_profiles. Qed.

(** With distinct ids, at most one profile carries a given id. *)
Lemma at_most_one_with_id (i : option string) (ps : list McpProfile) :
  NoDup (map profile_id ps) ->
  (List.length (filter (idIs i) ps) <= 1)%nat.
Proof.
  induction ps as [|p ps IH]; simpl; intros Hnd; [lia|].
  inversion Hnd as [|? ? Hnotin Hnd']; subst.
  destruct (idIs i p) eqn:E; [|auto].
  simpl. rewrite (@JsFacts.filter_none _ (idIs i) ps); [simpl; lia|].
  intros q Hq. destruct i as [i|]; simpl in *; [|reflexivity].
  apply String.eqb_eq in E. apply String.eqb_neq. intros E'.
  apply Hnotin. rewrite E, <- E'. now apply in_map.
Qed.

Lemma filter_isActive_map (i : option string) (ps : list McpProfile) :
  List.length (filter isActive
     (map (fun p => {| profile_id := profile_id p; name := name p; key := key p;
                       isActive := idIs i p; platform := platform p |}) ps))
  = List.length (filter (idIs i) ps).
Proof.
  induction ps as [|p ps IH]; simpl; [reflexivity|].
  destruct (idIs i p); simpl; now rewrite IH.
Qed.

Lemma filter_length_le {A : Type} (f g : A -> bool) (l : list A) :
  (List.length (filter f (filter g l)) <= List.length (filter f l))%nat.
Proof.
  induction l as [|x l IH]; simpl; [lia|].
  destruct (g x); simpl; destruct (f x); simpl; lia.
Qed.

(** The invariant carried along a run: the ids in the store are distinct
    and differ from every id still to be generated. *)
Definition fresh (r : Router) (rest : list string) : Prop :=
  NoDup (ids r) /\ NoDup rest /\ forall u, In u (ids r) -> ~ In u rest.

Lemma step_fresh hw r op rest :
  fresh r (uuidsOf [op] ++ rest) -> fresh (step hw r op) rest.
Proof.
  unfold fresh, ids. intros (Hr & Hrest & Hdisj).
  destruct op as [u n k p|i|i]; simpl in *.
  - rewrite saveProfiles_profiles. unfold push. simpl.
    rewrite map_app. simpl. inversion Hrest as [|? ? Hu Hrest']; subst.
    split; [|split; [assumption|]].
    + apply NoDup_app; [assumption|repeat constructor; simpl; tauto|].
      intros x Hx [Hxu|[]]. apply (Hdisj x Hx). now left.
    + intros x Hx Hin. apply in_app_or in Hx. destruct Hx as [Hx|[Hxu|[]]].
      * apply (Hdisj x Hx). now right.
      * subst x. contradiction.
  - rewrite removeProfile_profiles.
    split; [|split; [assumption|]].
    + induction (profiles r) as [|q qs IH]; simpl in *; [constructor|].
      inversion Hr as [|? ? Hq Hqs]; subst.
      assert (Hsub : forall x, In x (map profile_id
                 (filter (fun p => negb (String.eqb (profile_id p) i)) qs)) ->
                 In x (map profile_id qs)).
      { intros x Hx. apply in_map_iff in Hx. destruct Hx as (y & <- & Hy).
        apply filter_In in Hy. apply in_map. tauto. }
      destruct (negb _); simpl.
      * constructor; [intros Hx; apply Hq; auto|]. apply IH; auto.
      * apply IH; auto.
    + intros x Hx. apply Hdisj. apply in_map_iff in Hx.
      destruct Hx as (y & <- & Hy). apply filter_In in Hy. apply in_map. tauto.
  - rewrite setActiveProfile_profiles, map_map. simpl. tauto.
Qed.

Lemma step_active hw r op rest :
  fresh r (uuidsOf [op] ++ rest) ->
  (activeCount r <= 1)%nat -> (activeCount (step hw r op) <= 1)%nat.
Proof.
  unfold fresh, ids, activeCount. intros (Hr & _ & _) Hc.
  destruct op as [u n k p|i|i]; simpl.
  - rewrite saveProfiles_profiles. unfold push. simpl.
    rewrite filter_app, length_app. simpl.
    destruct (profiles r) as [|q qs]; simpl in *; [lia|]. lia.
  - rewrite removeProfile_profiles.
    etransitivity; [apply filter_length_le|exact Hc].
  - rewrite setActiveProfile_profiles, filter_isActive_map.
    now apply at_most_one_with_id.
Qed.

Lemma uuidsOf_cons op ops : uuidsOf (op :: ops) = uuidsOf [op] ++ uuidsOf ops.
Proof. unfold uuidsOf. simpl. now rewrite app_nil_r. Qed.

Lemma run_active_from hw ops r :
  fresh r (uuidsOf ops) -> (activeCount r <= 1)%nat ->
  (activeCount (fold_left (step hw) ops r) <= 1)%nat.
Proof.
  revert r. induction ops as [|op ops IH]; intros r Hf Hc; [assumption|].
  rewrite uuidsOf_cons in Hf. simpl fold_left.
  apply IH; [now apply step_fresh|now apply step_active with (uuidsOf ops)].
Qed.

(** The profile [p] with its flag set to [b]. *)
Definition flagged (b : bool) (p : McpProfile) : McpProfile :=
  {| profile_id := profile_id p; name := name p; key := key p;
     isActive := b; platform := platform p |}.

Lemma Forall2_map_eq {A B : Type} (f : A -> B) (l : list A) :
  Forall2 (fun x y => y = f x) l (map f l).
Proof. induction l; simpl; constructor; auto. Qed.

(** With distinct ids, the profiles whose flag is set by comparing the
    id with that of [p] reduce, once filtered by the flag, to [p]. *)
Lemma filter_active_unique (p : McpProfile) (ps : list McpProfile) :
  NoDup (map profile_id ps) -> In p ps ->
  filter isActive (map (fun q => flagged (String.eqb (profile_id q) (profile_id p)) q) ps)
  = [flagged true p].
Proof.
  induction ps as [|p0 ps IH]; simpl; intros Hnd Hin; [contradiction|].
  inversion Hnd as [|? ? Hnotin Hnd']; subst.
  assert (Hrest : ~ In (profile_id p0) (map profile_id ps) ->
                  forall i, i = profile_id p0 ->
                  filter isActive (map (fun q => flagged (String.eqb (profile_id q) i) q) ps)
                  = []).
  { intros Hn i ->. apply JsFacts.filter_none. intros q Hq.
    apply in_map_iff in Hq. destruct Hq as (q0 & <- & Hq0). simpl.
    apply String.eqb_neq. intros E. apply Hn. rewrite <- E. now apply in_map. }
  destruct Hin as [->|Hin].
  - rewrite String.eqb_refl. simpl. now rewrite (Hrest Hnotin _ eq_refl).
  - assert (Hne : String.eqb (profile_id p0) (profile_id p) = false).
    { apply String.eqb_neq. intros E. apply Hnotin. rewrite E. now apply in_map. }
    rewrite Hne. simpl. now apply IH.
Qed.

(** C10. From the empty store, and with [crypto.randomUUID] never
    returning the same id twice, at most one profile is active after any
    sequence of calls.  [addProfile] appends the new profile and
    activates it exactly when the store holds no profile at that moment.
    [setActiveProfile] keeps every profile, in place and with its id,
    name, key and platform, and sets its flag exactly when it carries the
    given id: where the ids are distinct, the active profiles are then
    the one profile with that id; for [null] every flag is cleared.
    [removeProfile] drops the profiles with the given id and keeps the
    others as they are. *)
Theorem profiles_single_active (hw : bool) :
  (forall ops, NoDup (uuidsOf ops) -> (activeCount (run hw ops) <= 1)%nat) /\
  (forall uuid n k p r,
      isActive (fst (addProfile hw uuid n k p r))
      = (List.length (profiles r) =? 0)%nat /\
      profiles (snd (addProfile hw uuid n k p r))
      = profiles r ++ [fst (addProfile hw uuid n k p r)]) /\
  (forall i r,
      Forall2 (fun p q => q = flagged (String.eqb (profile_id p) i) p)
              (profiles r) (profiles (setActiveProfile hw (Some i) r))) /\
  (forall r p,
      NoDup (ids r) -> In p (profiles r) ->
      filter isActive (profiles (setActiveProfile hw (Some (profile_id p)) r))
      = [flagged true p]) /\
  (forall r,
      Forall2 (fun p q => q = flagged false p)
              (profiles r) (profiles (setActiveProfile hw None r))) /\
  (forall i r,
      profiles (removeProfile hw i r)
      = filter (fun p => negb (String.eqb (profile_id p) i)) (profiles r)).
Proof.
  split; [|split; [|split; [|split; [|split]]]].
  - intros ops Hnd. unfold run. apply run_active_from.
    + unfold fresh, ids, empty. simpl. repeat split; auto. constructor.
    + unfold activeCount, empty. simpl. lia.
  - intros uuid n k p r. split; [reflexivity|apply addProfile_profiles].
  - intros i r. rewrite setActiveProfile_profiles.
    apply (Forall2_map_eq (fun p => flagged (String.eqb (profile_id p) i) p)).
  - intros r p Hnd Hin. rewrite setActiveProfile_profiles.
    exact (filter_active_unique Hnd Hin).
  - intros r. rewrite setActiveProfile_profiles.
    apply (Forall2_map_eq (fun p => flagged false p)).
  - apply removeProfile_profiles.
Qed.

Definition panelSession : list Op :=
  [ OpAdd "id-a" "Main" "AIza-main" google;
    OpAdd "id-b" "Hub" "hf_token" custom;
    OpSetActive (Some "id-b");
    OpRemove "id-b";
    OpAdd "id-c" "Spare" "sk-spare" google ].

(** After the third call the hub profile alone is active. *)
Example panelSession_switch :
  profiles (run true (firstn 3 panelSession))
  = [ {| profile_id := "id-a"; name := "Main"; key := "AIza-main";
         isActive := false; platform := google |};
      {| profile_id := "id-b"; name := "Hub"; key := "hf_token";
         isActive := true; platform := huggingface |} ].
Proof. reflexivity. Qed.

Lemma profiles_single_active_witness :
  NoDup (uuidsOf panelSession) /\ (activeCount (run true panelSession) <= 1)%nat.
Proof.
  assert (H : NoDup (uuidsOf panelSession)).
  { simpl. repeat constructor; simpl; intuition discriminate. }
  split; [exact H|].
  exact (proj1 (profiles_single_active true) panelSession H).
Defined.

End RouterFacts.

(** ** The connection router: first match in registration order *)

Module ClientFacts.
Import Js Types mcpClient.
Local Open Scope string_scope.
Local Open Scope list_scope.

Section Resolution.

Variables (W Transport Args : Type).
Variable net : Net W Transport Args.

(** [find] returns the first element that passes the test. *)
Lemma find_first {A : Type} (f : A -> bool) (l : list A) (x : A) :
  find f l = Some x ->
  exists before rest,
    l = before ++ x :: rest /\ f x = true /\ Forall (fun y => f y = false) before.
Proof.
  induction l as [|y l IH]; simpl; [discriminate|].
  destruct (f y) eqn:E.
  - intros [= ->]. exists [], l. repeat split; auto.
  - intros H. destruct (IH H) as (before & rest & -> & Hx & Hb).
    exists (y :: before), rest. repeat split; auto.
Qed.

Lemma find_none {A : Type} (f : A -> bool) (l : list A) :
  find f l = None <-> Forall (fun y => f y = false) l.
Proof.
  induction l as [|y l IH]; simpl.
  - split; [constructor|reflexivity].
  - destruct (f y) eqn:E; split.
    + discriminate.
    + intros H. inversion H; congruence.
    + intros H. constructor; [assumption|]. now apply IH.
    + intros H. inversion H. now apply IH.
Qed.

(** Registering under an id the map does not hold puts the connection
    last in the iteration order; registering again under a held id keeps
    the place of the first registration. *)
Lemma map_set_fresh (k : string) (c : McpConnection Transport) (m : Connections Transport) :
  map_get k m = None -> map_values (map_set k c m) = map_values m ++ [c].
Proof.
  unfold map_values.
  induction m as [|[k' v'] m IH]; simpl; [reflexivity|].
  destruct (String.eqb k' k); [discriminate|].
  intros H. simpl. now rewrite IH.
Qed.

Lemma map_set_present (k : string) (c old : McpConnection Transport) (m : Connections Transport) :
  map_get k m = Some old ->
  exists before rest,
    map_values m = before ++ old :: rest /\
    map_values (map_set k c m) = before ++ c :: rest.
Proof.
  unfold map_values.
  induction m as [|[k' v'] m IH]; simpl; [discriminate|].
  destruct (String.eqb k' k).
  - intros [= ->]. now exists [], (map snd m).
  - intros H. destruct (IH H) as (before & rest & E1 & E2).
    exists (v' :: before), rest. simpl. now rewrite E1, E2.
Qed.

(** The request [callTool] sends, and what it makes of the answer. *)
Definition dispatchTo (c : McpConnection Transport) (name_ : string) (args : Args) (w : W)
  : Outcome McpCallToolResult * W :=
  match send net (transport c)
             {| method := "tools/call"; params := Some (name_, args);
                req_id := now net w |} w with
  | (Throw e, w1) => (Throw e, w1)
  | (Return response, w1) => (Return (interpret name_ response), w1)
  end.

(** C5. For every connection map, either some connection is connected
    and lists the tool, and then every call of [callTool] for that name is
    sent through the transport of the first such connection in the
    iteration (registration) order of the map, whatever the arguments and
    the moment of the call; or no connected connection lists the tool, and
    then every call fails with the tool-not-found error without sending
    anything.  A newly registered id is iterated last, and registering
    again under a held id keeps the place of that id. *)
Theorem callTool_first_match (name_ : string) (conns : Connections Transport) :
  ((exists before target rest,
       map_values conns = before ++ target :: rest /\
       owns name_ target = true /\
       Forall (fun c => owns name_ c = false) before /\
       forall args w, callTool net name_ args conns w = dispatchTo target name_ args w)
   \/
   (Forall (fun c => owns name_ c = false) (map_values conns) /\
    forall args w, callTool net name_ args conns w = (Throw (toolNotFound name_), w)))
  /\
  (forall id_ t tools_,
      map_get id_ conns = None ->
      map_values (registerSimulatedConnection id_ t tools_ conns)
      = map_values conns ++
        [{| conn_id := id_; transport := t; tools := tools_;
            status := connected; conn_error := None |}]) /\
  (forall id_ t tools_ old,
      map_get id_ conns = Some old ->
      exists before rest,
        map_values conns = before ++ old :: rest /\
        map_values (registerSimulatedConnection id_ t tools_ conns)
        = before ++ {| conn_id := id_; transport := t; tools := tools_;
                       status := connected; conn_error := None |} :: rest).
Proof.
  split; [|split].
  - destruct (findTarget name_ conns) as [target|] eqn:E.
    + left. unfold findTarget in E.
      destruct (find_first E) as (before & rest & Hv & Ho & Hb).
      exists before, target, rest. repeat split; auto.
      intros args w. unfold callTool, findTarget, dispatchTo. now rewrite E.
    + right. split.
      * now apply find_none.
      * intros args w. unfold callTool. now rewrite E.
  - intros id_ t tools_ H. unfold registerSimulatedConnection.
    now apply map_set_fresh.
  - intros id_ t tools_ old H. unfold registerSimulatedConnection.
    now apply map_set_present.
Qed.

End Resolution.

(** Two simulated packages that both expose a tool [X]. *)
Definition toolX : McpTool := {| tool_name := "X"; tool_description := None |}.

Definition twoPackages : Connections nat :=
  registerSimulatedConnection "pkg-b" 2 [toolX]
    (registerSimulatedConnection "pkg-a" 1 [toolX] []).

(** Every transport answers with its own handle as the text. *)
Definition echoNet : Net nat nat unit :=
  {| start := fun _ w => (Return tt, w);
     close := fun _ w => w;
     send := fun t _ w =>
       (Return {| rpc_result :=
                    Some {| r_tools := None;
                            r_content := Some [textContent (showNat t)];
                            r_isError := None |};
                  rpc_error := None |}, S w);
     now := fun w => Z.of_nat w |}.

Example callTool_two_packages :
  fst (callTool echoNet "X" tt twoPackages 0)
  = Return {| result_content := Some [textContent "1"]; isError := None |} /\
  fst (callTool echoNet "X" tt twoPackages 7)
  = Return {| result_content := Some [textContent "1"]; isError := None |} /\
  fst (callTool echoNet "Y" tt twoPackages 0) = Throw (toolNotFound "Y") /\
  List.length (getAllTools twoPackages) = 2%nat.
Proof. repeat split. Qed.

Lemma callTool_first_match_witness :
  map_get "pkg-c" twoPackages = None /\
  map_values (registerSimulatedConnection "pkg-c" 3%nat [toolX] twoPackages)
  = map_values twoPackages ++
    [{| conn_id := "pkg-c"; transport := 3%nat; tools := [toolX];
        status := connected; conn_error := None |}].
Proof.
  split; [reflexivity|].
  apply (proj1 (proj2 (callTool_first_match echoNet "X" twoPackages))).
  reflexivity.
Defined.

(** Once the first package is disconnected, the second one answers. *)
Example callTool_after_disconnect :
  fst (callTool echoNet "X" tt (fst (disconnect echoNet "pkg-a" twoPackages 0%nat)) 0)
  = Return {| result_content := Some [textContent "2"]; isError := None |}.
Proof. reflexivity. Qed.

End ClientFacts.

(** ** Orchestration: retry bound, turn bound, fan-out join *)

Module OrchestrationFacts.
Import Js Types geminiService.
Local Open Scope string_scope.
Local Open Scope list_scope.

Section RetryFacts.

Variables (W T : Type).
Variable backoffWait : Z -> W -> W.
Variable fn : Async W T.
Variables (maxRetries : nat) (initialDelay : Z).

(** Every attempt is rejected with a rate-limit signature. *)
Definition alwaysRateLimited : Prop :=
  forall w, exists e w', fn w = Some (Throw e, w') /\ isRateLimit e = true.

(** [exhausts retries w k e w']: from the world [w], with the loop
    counter at [retries], the operation is called [k + 1] times and
    every call is rejected with a rate-limit signature; after each
    rejection but the last the wrapper waits [initialDelay * 2 ^ counter]
    milliseconds (and the jitter) and counts one more retry; [e] is the
    error of the last call and [w'] the world that call leaves. *)
Inductive exhausts : nat -> W -> nat -> Error -> W -> Prop :=
| exhausts_last retries w e w' :
    fn w = Some (Throw e, w') -> isRateLimit e = true ->
    exhausts retries w 0 e w'
| exhausts_more retries w e0 w1 k e w' :
    fn w = Some (Throw e0, w1) -> isRateLimit e0 = true ->
    exhausts (S retries) (backoffWait (initialDelay * 2 ^ Z.of_nat retries) w1) k e w' ->
    exhausts retries w (S k) e w'.

Lemma exhausts_last_call (retries k : nat) (w w' : W) (e : Error) :
  exhausts retries w k e w' ->
  exists w_last, fn w_last = Some (Throw e, w') /\ isRateLimit e = true.
Proof.
  induction 1 as [retries w e w' Hfn He|retries w e0 w1 k e w' Hfn He _ IH].
  - now exists w.
  - exact IH.
Qed.

(** Such a sequence of calls uses up the retries, and the loop ends with
    the last error. *)
Lemma retryLoop_exhausted (retries k : nat) (w w' : W) (e : Error) :
  exhausts retries w k e w' ->
  forall fuel calls,
    (retries + k = maxRetries)%nat -> (k < fuel)%nat ->
    retryLoop backoffWait fuel fn maxRetries initialDelay retries calls w
    = Some {| result := Throw e; attempts := (calls + k + 1)%nat; world := w' |}.
Proof.
  induction 1 as [retries w e w' Hfn He|retries w e0 w1 k e w' Hfn He _ IH];
    intros fuel calls Hk Hfuel; (destruct fuel as [|fuel]; [lia|]);
    simpl; rewrite Hfn, He; simpl.
  - replace (retries <? maxRetries)%nat with false
      by (symmetry; apply Nat.ltb_ge; lia).
    do 2 f_equal. lia.
  - replace (retries <? maxRetries)%nat with true
      by (symmetry; apply Nat.ltb_lt; lia).
    rewrite (IH fuel (S calls)) by lia. do 2 f_equal. lia.
Qed.

Lemma always_exhausts :
  alwaysRateLimited ->
  forall k retries w, exists e w', exhausts retries w k e w'.
Proof.
  intros Hall. induction k as [|k IH]; intros retries w;
    destruct (Hall w) as (e0 & w1 & Hfn & He).
  - exists e0, w1. now constructor.
  - destruct (IH (S retries) (backoffWait (initialDelay * 2 ^ Z.of_nat retries) w1))
      as (e & w' & H).
    exists e, w'. econstructor; eassumption.
Qed.

Lemma retryLoop_rate_limited :
  alwaysRateLimited ->
  forall k fuel retries calls w,
    (retries + k = maxRetries)%nat -> (k < fuel)%nat ->
    exists run e w_last,
      retryLoop backoffWait fuel fn maxRetries initialDelay retries calls w = Some run /\
      attempts run = (calls + k + 1)%nat /\
      result run = Throw e /\ isRateLimit e = true /\
      fn w_last = Some (Throw e, world run) /\
      exhausts retries w k e (world run).
Proof.
  intros Hall k fuel retries calls w Hk Hfuel.
  destruct (always_exhausts Hall k retries w) as (e & w' & H).
  destruct (exhausts_last_call H) as (wl & Hl & He).
  eexists _, e, wl. split; [exact (retryLoop_exhausted H calls Hk Hfuel)|].
  simpl. repeat split; auto.
Qed.

(** Whatever the operation does, as long as each call settles, the loop
    ends after at most [maxRetries + 1] calls. *)
Lemma retryLoop_settles :
  (forall w, fn w <> None) ->
  forall k fuel retries calls w,
    (retries + k = maxRetries)%nat -> (k < fuel)%nat ->
    exists run,
      retryLoop backoffWait fuel fn maxRetries initialDelay retries calls w = Some run /\
      (attempts run <= calls + k + 1)%nat.
Proof.
  intros Hfn. induction k as [|k IH]; intros fuel retries calls w Hk Hfuel;
    (destruct fuel as [|fuel]; [lia|]); simpl;
    specialize (Hfn w); destruct (fn w) as [[[e|v] w1]|]; try contradiction;
    try (eexists; split; [reflexivity|simpl; lia]).
  - replace (retries <? maxRetries)%nat with false
      by (symmetry; apply Nat.ltb_ge; lia).
    rewrite andb_false_r. eexists; split; [reflexivity|simpl; lia].
  - destruct (isRateLimit e && (retries <? maxRetries)%nat).
    + destruct (IH fuel (S retries) (S calls)
                   (backoffWait (initialDelay * 2 ^ Z.of_nat retries) w1))
        as (run & E & Hle); try lia.
      exists run. split; [exact E|lia].
    + eexists; split; [reflexivity|simpl; lia].
Qed.

(** C2. When the operation is rejected with a rate-limit signature
    [maxRetries + 1] times in a row, the waits of the wrapper in between
    ([exhausts 0 w maxRetries e w']), the wrapper has made exactly these
    [maxRetries + 1] calls and no other, and rejects with the error of
    the last of them, in the world that call left.  An operation that is
    rejected in this way in every world gives such a sequence of calls
    from any world.  If the first attempt is rejected with any other
    error, that was the only call and the wrapper rejects with that very
    error, in the world that call left; more generally, an attempt
    rejected with such an error is never followed by another one. *)
Theorem withRetry_attempts :
  (forall fuel w e w',
     exhausts 0 w maxRetries e w' -> (maxRetries < fuel)%nat ->
     withRetry backoffWait fuel fn maxRetries initialDelay w
     = Some {| result := Throw e; attempts := (maxRetries + 1)%nat; world := w' |}) /\
  (alwaysRateLimited ->
   forall fuel w, (maxRetries < fuel)%nat ->
     exists run e,
       withRetry backoffWait fuel fn maxRetries initialDelay w = Some run /\
       attempts run = (maxRetries + 1)%nat /\
       result run = Throw e /\ isRateLimit e = true /\
       exhausts 0 w maxRetries e (world run)) /\
  (forall w e w',
     fn w = Some (Throw e, w') -> isRateLimit e = false ->
     forall fuel, (0 < fuel)%nat ->
       withRetry backoffWait fuel fn maxRetries initialDelay w
       = Some {| result := Throw e; attempts := 1; world := w' |}) /\
  (forall w e w' fuel retries calls,
     fn w = Some (Throw e, w') -> isRateLimit e = false ->
     retryLoop backoffWait (S fuel) fn maxRetries initialDelay retries calls w
     = Some {| result := Throw e; attempts := S calls; world := w' |}).
Proof.
  split; [|split; [|split]].
  - intros fuel w e w' H Hfuel. unfold withRetry.
    now rewrite (retryLoop_exhausted H (fuel := fuel) 0%nat) by lia.
  - intros Hall fuel w Hfuel. unfold withRetry.
    destruct (@retryLoop_rate_limited Hall maxRetries fuel 0%nat 0%nat w)
      as (run & e & wl & H1 & H2 & H3 & H4 & _ & H5); try lia.
    exists run, e. repeat split; auto.
  - intros w e w' Hfn He fuel Hfuel. unfold withRetry.
    destruct fuel as [|fuel]; [lia|]. simpl. now rewrite Hfn, He.
  - intros w e w' fuel retries calls Hfn He. simpl. now rewrite Hfn, He.
Qed.

End RetryFacts.

Example isRateLimit_signatures :
  isRateLimit (newError "Error 429: Too Many Requests") = true /\
  isRateLimit (newError "You exceeded your current QUOTA") = true /\
  isRateLimit (newError "RESOURCE_EXHAUSTED: try later") = true /\
  isRateLimit {| message := None; status := Some "RESOURCE_EXHAUSTED" |} = true /\
  isRateLimit (newError "Failed to fetch") = false /\
  isRateLimit {| message := None; status := None |} = false.
Proof. repeat split. Qed.

(** A provider that is out of quota, and one that lacks the credential;
    the world counts the calls. *)
Definition outOfQuota : Async nat unit :=
  fun w => Some (Throw {| message := Some "Got status 429: Quota exceeded";
                          status := Some "RESOURCE_EXHAUSTED" |}, S w).

Definition noCredential : Async nat unit :=
  fun w => Some (Throw (newError "Access Credential missing. Configure API Key in Hub."), S w).

(** The same provider in a world that counts the calls and adds up the
    milliseconds waited (without the jitter). *)
Definition quotaError : Error :=
  {| message := Some "Got status 429: Quota exceeded";
     status := Some "RESOURCE_EXHAUSTED" |}.

Definition busy : Async (nat * Z) unit :=
  fun w => Some (Throw quotaError, (S (fst w), snd w)).

Definition sleeping (delay : Z) (w : nat * Z) : nat * Z := (fst w, (snd w + delay)%Z).

(** Five calls, and between them waits of 3, 6, 12 and 24 seconds. *)
Lemma busy_exhausts :
  exhausts sleeping busy 3000 0 (0%nat, 0%Z) 4 quotaError (5%nat, 45000%Z).
Proof.
  do 4 (eapply exhausts_more; [reflexivity|reflexivity|]).
  apply exhausts_last; reflexivity.
Qed.

Lemma withRetry_attempts_witness :
  exhausts sleeping busy 3000 0 (0%nat, 0%Z) 4 quotaError (5%nat, 45000%Z) /\
  withRetry sleeping 5 busy 4 3000 (0%nat, 0%Z)
  = Some {| result := Throw quotaError; attempts := 5; world := (5%nat, 45000%Z) |} /\
  isRateLimit (newError "Access Credential missing. Configure API Key in Hub.") = false /\
  withRetry (fun _ w => w) 5 noCredential 4 3000 0%nat
  = Some {| result := Throw (newError "Access Credential missing. Configure API Key in Hub.");
            attempts := 1; world := 1%nat |}.
Proof.
  split; [exact busy_exhausts|].
  split.
  - apply (proj1 (withRetry_attempts sleeping busy 4 3000) 5%nat _ _ _ busy_exhausts).
    lia.
  - split; [vm_compute; reflexivity|].
    apply (proj1 (proj2 (proj2 (withRetry_attempts (fun _ w => w) noCredential 4 3000)))
                 0%nat _ 1%nat).
    + reflexivity.
    + vm_compute; reflexivity.
    + lia.
Defined.

Section OverseerFacts.

Variable W : Type.
Variable env : Env W.

Lemma executeCalls_total (calls : list FunctionCall) (l : Locals) (w : W) :
  exists frs l' w', executeCalls env calls l w = (frs, l', w') /\
                    List.length frs = List.length calls.
Proof.
  revert l w. induction calls as [|c calls IH]; intros l w; simpl.
  - now exists [], l, w.
  - destruct (executeCall env c l w) as [[fr l1] w1].
    destruct (IH l1 w1) as (frs & l2 & w2 & E & Hlen). rewrite E.
    exists (fr :: frs), l2, w2. simpl. now rewrite Hlen.
Qed.

(** [rounds k response l w response' l' w']: [k] complete turns lead from
    the answer [response], the variables [l] and the world [w] to
    [response'], [l'] and [w'].  In each turn the answer at hand asks for
    tool calls; the engine waits 350 ms, executes all of them and sends
    their results to the provider, whose answer opens the next turn. *)
Inductive rounds : nat -> Response -> Locals -> W -> Response -> Locals -> W -> Prop :=
| rounds_none response l w : rounds 0 response l w response l w
| rounds_more k response l w frs l1 w1 response1 w2 response' l' w' :
    hasCalls response = true ->
    executeCalls env (pendingCalls response) l (wait env 350 w) = (frs, l1, w1) ->
    sendMessage env (FunctionResponses frs) w1 = (Return response1, w2) ->
    rounds k response1 l1 w2 response' l' w' ->
    rounds (S k) response l w response' l' w'.

(** A turn cut short: the calls are executed, and the provider rejects
    the message that carries their results. *)
Definition cutShort (response : Response) (l : Locals) (w : W) (e : Error)
    (l' : Locals) (w' : W) : Prop :=
  hasCalls response = true /\
  exists frs w1,
    executeCalls env (pendingCalls response) l (wait env 350 w) = (frs, l', w1) /\
    sendMessage env (FunctionResponses frs) w1 = (Throw e, w').

(** The loop stops by itself: with [k] turns left before the bound, any
    fuel above [k] is enough.  What it has done by then is a number of
    complete turns, [k] at most, followed by nothing if an answer came
    without tool calls or the bound was reached, and by a turn cut short
    otherwise. *)
Lemma turnLoop_rounds :
  forall k fuel turns_ response l w,
    (turns_ + k = MAX_TURNS)%nat -> (k < fuel)%nat ->
    exists run n rl l' w',
      turnLoop env fuel turns_ response l w = Some run /\
      turns run = (turns_ + n)%nat /\ (n <= k)%nat /\
      rounds n response l w rl l' w' /\
      match last run with
      | Return r =>
          r = rl /\ locals run = l' /\ after run = w' /\
          (hasCalls rl = false \/ n = k)
      | Throw e => (n < k)%nat /\ cutShort rl l' w' e (locals run) (after run)
      end.
Proof.
  induction k as [|k IH]; intros fuel turns_ response l w Hk Hfuel;
    (destruct fuel as [|fuel]; [lia|]); simpl.
  - replace (turns_ <? MAX_TURNS)%nat with false
      by (symmetry; apply Nat.ltb_ge; lia).
    rewrite andb_false_r.
    eexists _, 0%nat, response, l, w. split; [reflexivity|]. simpl.
    repeat split; auto; try lia. constructor.
  - destruct (hasCalls response) eqn:Hc; simpl.
    + replace (turns_ <? MAX_TURNS)%nat with true
        by (symmetry; apply Nat.ltb_lt; lia).
      destruct (executeCalls env (pendingCalls response) l (wait env 350 w))
        as [[frs l1] w1] eqn:Hx.
      destruct (sendMessage env (FunctionResponses frs) w1) as [[e|response1] w2] eqn:Hs.
      * eexists _, 0%nat, response, l, w. split; [reflexivity|]. simpl.
        repeat split; auto; try lia; [constructor|].
        now exists frs, w1.
      * destruct (IH fuel (S turns_) response1 l1 w2)
          as (run & n & rl & l' & w' & E & Ht & Hn & Hr & Hl); try lia.
        exists run, (S n), rl, l', w'. repeat split; auto; try lia.
        -- econstructor; eassumption.
        -- destruct (last run) as [e|r].
           ++ destruct Hl as [Hlt Hcut]. split; [lia|exact Hcut].
           ++ destruct Hl as (H1 & H2 & H3 & [H4|H4]); repeat split; auto.
    + eexists _, 0%nat, response, l, w. split; [reflexivity|]. simpl.
      repeat split; auto; try lia. constructor.
Qed.

Lemma turnLoop_bounded :
  forall k fuel turns_ response l w,
    (turns_ + k = MAX_TURNS)%nat -> (k < fuel)%nat ->
    exists run,
      turnLoop env fuel turns_ response l w = Some run /\
      (turns_ <= turns run <= MAX_TURNS)%nat /\
      match last run with
      | Throw _ => (turns run < MAX_TURNS)%nat
      | Return _ => True
      end.
Proof.
  intros k fuel turns_ response l w Hk Hfuel.
  destruct (@turnLoop_rounds k fuel turns_ response l w Hk Hfuel)
    as (run & n & rl & l' & w' & E & Ht & Hn & _ & Hl).
  exists run. split; [exact E|]. split; [lia|].
  destruct (last run); [|trivial]. destruct Hl. lia.
Qed.

(** A provider that answers every message with at least one tool call. *)
Definition alwaysRequestsTool : Prop :=
  forall m w, exists response w',
    sendMessage env m w = (Return response, w') /\ hasCalls response = true.

Lemma rounds_hasCalls :
  alwaysRequestsTool ->
  forall n response l w rl l' w',
    rounds n response l w rl l' w' -> hasCalls response = true -> hasCalls rl = true.
Proof.
  intros Hstub n response l w rl l' w' H.
  induction H as [|k response l w frs l1 w1 response1 w2 rl l' w' Hc Hx Hs _ IH];
    intros Hc0; [exact Hc0|].
  apply IH. destruct (Hstub (FunctionResponses frs) w1) as (r & w3 & E & Hr).
  rewrite Hs in E. now inversion E; subst.
Qed.

Lemma turnLoop_exhausts :
  alwaysRequestsTool ->
  forall k fuel turns_ response l w,
    hasCalls response = true ->
    (turns_ + k = MAX_TURNS)%nat -> (k < fuel)%nat ->
    exists run response_last,
      turnLoop env fuel turns_ response l w = Some run /\
      turns run = MAX_TURNS /\
      last run = Return response_last /\
      rounds k response l w response_last (locals run) (after run).
Proof.
  intros Hstub k fuel turns_ response l w Hc Hk Hfuel.
  destruct (@turnLoop_rounds k fuel turns_ response l w Hk Hfuel)
    as (run & n & rl & l' & w' & E & Ht & Hn & Hr & Hl).
  pose proof (rounds_hasCalls Hstub Hr Hc) as Hcl.
  destruct (last run) as [e|r] eqn:L.
  - destruct Hl as (_ & _ & frs & w1 & _ & Hs).
    destruct (Hstub (FunctionResponses frs) w1) as (r & w3 & E' & _).
    rewrite Hs in E'. discriminate E'.
  - destruct Hl as (H1 & H2 & H3 & [H4|H4]); [congruence|].
    subst. exists run, rl. repeat split; auto; lia.
Qed.

Lemma runOverseerAttempt_settles (fuel : nat) (prompt : string) (w : W) :
  (MAX_TURNS < fuel)%nat -> runOverseerAttempt env fuel prompt w <> None.
Proof.
  intros Hfuel. unfold runOverseerAttempt.
  destruct (credential env w); [|discriminate].
  destruct (sendMessage env (Prompt prompt) w) as [[e|response] w1]; [discriminate|].
  destruct (@turnLoop_bounded MAX_TURNS fuel 0%nat response noLocals w1)
    as (run & E & _); try (simpl; lia).
  rewrite E. destruct (last run); discriminate.
Qed.

(** C3. Whatever the provider answers, the loop of one attempt of
    [runOverseerAgent] ends, and what it has done by then is a number of
    complete tool-call turns ([rounds]), 6 at most, each of which
    executed the calls of the answer at hand and sent their results to
    the provider; the loop ends with the answer of the last of these
    turns when that answer asks for no tool call or 6 turns are made, and
    otherwise, after fewer than 6 turns, with the rejection of the
    provider in a further turn, cut short.  Against a provider that asks
    for a tool call in every answer, the loop makes exactly 6 such turns,
    and [runOverseerAgent] sends the prompt, makes these 6 turns and
    returns, after a single attempt, the text of the answer to the last
    of them.  The bound holds for each attempt; the whole call, retries
    included, ends for every provider, after at most 5 attempts. *)
Theorem overseer_turn_bound :
  (forall fuel response l w,
      (MAX_TURNS < fuel)%nat ->
      exists run response_last l' w',
        turnLoop env fuel 0 response l w = Some run /\
        (turns run <= 6)%nat /\
        rounds (turns run) response l w response_last l' w' /\
        match last run with
        | Return r =>
            r = response_last /\ locals run = l' /\ after run = w' /\
            (hasCalls response_last = false \/ turns run = 6%nat)
        | Throw e =>
            (turns run < 6)%nat /\
            cutShort response_last l' w' e (locals run) (after run)
        end) /\
  (alwaysRequestsTool ->
   forall fuel response l w,
     (MAX_TURNS < fuel)%nat -> hasCalls response = true ->
     exists run response_last,
       turnLoop env fuel 0 response l w = Some run /\
       turns run = 6%nat /\
       last run = Return response_last /\
       rounds 6 response l w response_last (locals run) (after run)) /\
  (alwaysRequestsTool ->
   forall fuel prompt w key_,
     (MAX_TURNS < fuel)%nat -> credential env w = Some key_ ->
     exists res out response w1 response_last l',
       runOverseerAgent env fuel prompt w = Some res /\
       attempts res = 1%nat /\
       result res = Return out /\
       sendMessage env (Prompt prompt) w = (Return response, w1) /\
       rounds 6 response noLocals w1 response_last l' (world res) /\
       o_text out = response_text response_last /\
       o_tasks out = l_tasks l') /\
  (forall fuel prompt w,
      (MAX_TURNS < fuel)%nat ->
      exists res,
        runOverseerAgent env fuel prompt w = Some res /\ (attempts res <= 5)%nat).
Proof.
  split; [|split; [|split]].
  - intros fuel response l w Hfuel.
    destruct (@turnLoop_rounds MAX_TURNS fuel 0%nat response l w)
      as (run & n & rl & l' & w' & E & Ht & Hn & Hr & Hl); try (simpl; lia).
    simpl in Ht. unfold MAX_TURNS in *. subst n.
    exists run, rl, l', w'. repeat split; auto.
  - intros Hstub fuel response l w Hfuel Hc.
    apply (@turnLoop_exhausts Hstub 6%nat); auto.
  - intros Hstub fuel prompt w key_ Hfuel Hkey.
    destruct (Hstub (Prompt prompt) w) as (response & w1 & Hsend & Hc).
    destruct (@turnLoop_exhausts Hstub 6%nat fuel 0%nat response noLocals w1)
      as (run & rl & E & Ht & Hl & Hr); auto.
    assert (Hatt : runOverseerAttempt env fuel prompt w
                   = Some (Return {| o_text := response_text rl;
                                     o_groundingLinks := groundingLinksOf rl;
                                     o_tasks := l_tasks (locals run);
                                     o_videoUri := l_videoUri (locals run);
                                     o_image := l_image (locals run) |}, after run)).
    { unfold runOverseerAttempt. now rewrite Hkey, Hsend, E, Hl. }
    unfold runOverseerAgent, withRetryDefault, withRetry.
    destruct fuel as [|fuel']; [lia|].
    cbn [retryLoop]. rewrite Hatt.
    eexists _, _, response, w1, rl, (locals run). repeat split; simpl; eauto.
  - intros fuel prompt w Hfuel.
    unfold runOverseerAgent, withRetryDefault, withRetry.
    destruct (@retryLoop_settles W OverseerResult (backoffWait env)
                (runOverseerAttempt env fuel prompt) 4%nat 3000%Z
                (fun w0 => @runOverseerAttempt_settles fuel prompt w0 Hfuel)
                4%nat fuel 0%nat 0%nat w) as (res & E & Hle);
      try (unfold MAX_TURNS in *; lia).
    exists res. split; [exact E|lia].
Qed.

(** *** The parallel fan-out *)

(** The sub-agents by name, each as what it reports to the overseer:
    the text the agent returns, or the line the overseer writes for an
    image, a video or a page. *)
Definition visionary (prompt : string) (w : W) : Outcome (option string) * W :=
  match generateImage env prompt w with
  | (Return v, w1) =>
      (Return (Some ("Visual manifest complete via " ++ image_model v ++
                     ". Data available in asset preview.")%string), w1)
  | (Throw e, w1) => (Throw e, w1)
  end.

Definition director (prompt : string) (w : W) : Outcome (option string) * W :=
  match generateVideo env {| v_prompt := Some prompt; v_aspectRatio := "16:9";
                             v_resolution := "720p"; v_modelId := None |} w with
  | (Return vi, w1) => (Return (Some ("Video sequence rendered: " ++ video_uri vi)%string), w1)
  | (Throw e, w1) => (Throw e, w1)
  end.

Definition navigator (prompt : string) (w : W) : Outcome (option string) * W :=
  match runNavigatorAgent env prompt w with
  | (Return n, w1) => (Return (nav_text n), w1)
  | (Throw e, w1) => (Throw e, w1)
  end.

Definition subAgents : list (string * (string -> W -> Outcome (option string) * W)) :=
  [ ("HR_MANAGER", runHrManagerAgent env);
    ("INTEGRATION_LEAD", runIntegrationAgent env);
    ("RESEARCHER", runResearcherAgent env);
    ("DATA_ANALYST", runDataAnalystAgent env);
    ("DEVELOPER", runDeveloperAgent env);
    ("ANTIGRAVITY", runAntigravityAgent env);
    ("VISIONARY", visionary);
    ("DIRECTOR", director);
    ("NAVIGATOR", navigator);
    ("SPEEDSTER", runSpeedsterAgent env) ].

(** What the sub-agent of a dispatch does with the prompt of the
    dispatch; a name that is no agent's runs nothing and reports the
    empty text. *)
Definition subAgent (d : Dispatch) (w : W) : Outcome (option string) * W :=
  match find (fun entry => String.eqb (agent d) (fst entry)) subAgents with
  | Some (_, run) => run (d_prompt d) w
  | None => (Return (Some EmptyString), w)
  end.

(** The result recorded for a dispatch whose sub-agent settled with [o]. *)
Definition report (d : Dispatch) (o : Outcome (option string)) : DispatchResult :=
  match o with
  | Return output => succeeded d output
  | Throw e => failed d e
  end.

(** [joined ds w results w']: from [w], the sub-agent of every dispatch
    of [ds] has run, and [results] holds, in the order of [ds], the
    report of what each one did; [w'] is the world they leave. *)
Inductive joined : list Dispatch -> W -> list DispatchResult -> W -> Prop :=
| joined_nil w : joined [] w [] w
| joined_cons d ds w o w1 results w' :
    subAgent d w = (o, w1) ->
    joined ds w1 results w' ->
    joined (d :: ds) w (report d o :: results) w'.

Definition tagged (d : Dispatch) (r : DispatchResult) : Prop :=
  r_agent r = agent d /\ r_prompt r = d_prompt d /\
  (exists w, r = report d (fst (subAgent d w))) /\
  ((r_status r = SUCCESS /\ r_error r = None) \/
   (r_status r = ERROR /\ r_response r = None)).

Lemma report_tagged (d : Dispatch) (w : W) : tagged d (report d (fst (subAgent d w))).
Proof.
  unfold tagged. split; [|split; [|split]].
  - now destruct (fst (subAgent d w)).
  - now destruct (fst (subAgent d w)).
  - now exists w.
  - destruct (fst (subAgent d w)); simpl; tauto.
Qed.

(** The [switch] runs the sub-agent the dispatch names, and its
    [try]/[catch] records what that sub-agent did. *)
Lemma runDispatch_subAgent (d : Dispatch) (l : Locals) (w : W) :
  fst (fst (runDispatch env d l w)) = report d (fst (subAgent d w)) /\
  snd (runDispatch env d l w) = snd (subAgent d w).
Proof.
  unfold runDispatch, subAgent, subAgents, textCase, visionary, director, navigator.
  cbn [find fst].
  repeat match goal with
         | |- context [if ?b then _ else _] => destruct b
         end;
    try match goal with
        | |- context [match ?x with pair _ _ => _ end] =>
            destruct x as [[?|?] ?]
        end; simpl; auto.
Qed.

Lemma runDispatches_joined (ds : list Dispatch) (l : Locals) (w : W) :
  joined ds w (fst (fst (runDispatches env ds l w))) (snd (runDispatches env ds l w)).
Proof.
  revert l w. induction ds as [|d ds IH]; intros l w; simpl; [constructor|].
  destruct (runDispatch_subAgent d l w) as [Hr Hw].
  destruct (runDispatch env d l w) as [[r l1] w1].
  specialize (IH l1 w1).
  destruct (runDispatches env ds l1 w1) as [[rs l2] w2].
  simpl in *. subst r w1.
  apply joined_cons with (w1 := snd (subAgent d w)); [|exact IH].
  now destruct (subAgent d w).
Qed.

Lemma joined_tagged (ds : list Dispatch) (w w' : W) (results : list DispatchResult) :
  joined ds w results w' -> Forall2 tagged ds results.
Proof.
  induction 1 as [|d ds w o w1 results w' Hd _ IH]; constructor; [|exact IH].
  replace o with (fst (subAgent d w)) by now rewrite Hd.
  apply report_tagged.
Qed.

(** The answer to a [parallel_dispatch] call that carries [results]. *)
Definition aggregated (call : FunctionCall) (results : list DispatchResult)
  : FunctionResponse :=
  {| fr_name := call_name call;
     fr_response := ResultContent ["Parallel Thread Batch: " ++ stringifyResults results]%string;
     fr_id := call_id call |}.

Lemma executeCall_parallel (call : FunctionCall) (args : Args) (ds : list Dispatch)
    (l : Locals) (w : W) :
  call_name call = "parallel_dispatch" ->
  call_args call = Some args ->
  a_dispatches args = Some ds ->
  executeCall env call l w
  = (aggregated call (fst (fst (runDispatches env ds l w))),
     snd (fst (runDispatches env ds l w)), snd (runDispatches env ds l w)).
Proof.
  intros Hn Ha Hd. unfold executeCall, aggregated. rewrite Hn, Ha, Hd. cbn.
  now destruct (runDispatches env ds l w) as [[rs l2] w2].
Qed.

(** C4. A [parallel_dispatch] call with [N] sub-dispatches runs the
    sub-agent of every one of them and is answered by one function
    response whose text aggregates [N] results, one per dispatch and in
    order ([joined]).  The result of a dispatch carries its agent and its
    prompt; it is tagged [ERROR], with the message of the rejection,
    exactly when the sub-agent of that dispatch was rejected, and
    [SUCCESS], with the output, exactly when it returned, whatever the
    other sub-agents did; the answer is never the fault response of the
    enclosing [catch].  A turn that consists of such a call goes on to
    send that aggregate to the provider. *)
Theorem parallel_dispatch_join (call : FunctionCall) (args : Args) (ds : list Dispatch) :
  call_name call = "parallel_dispatch" ->
  call_args call = Some args ->
  a_dispatches args = Some ds ->
  (forall l w,
      exists results l' w',
        executeCall env call l w = (aggregated call results, l', w') /\
        List.length results = List.length ds /\
        joined ds w results w' /\
        Forall2 tagged ds results) /\
  (forall d o,
      r_agent (report d o) = agent d /\ r_prompt (report d o) = d_prompt d /\
      match o with
      | Throw e =>
          r_status (report d o) = ERROR /\ r_error (report d o) = message e /\
          r_response (report d o) = None
      | Return output =>
          r_status (report d o) = SUCCESS /\ r_response (report d o) = output /\
          r_error (report d o) = None
      end) /\
  (forall fuel turns_ response l w,
      pendingCalls response = [call] -> (turns_ < MAX_TURNS)%nat ->
      exists results l' w',
        joined ds (wait env 350 w) results w' /\
        turnLoop env (S fuel) turns_ response l w
        = match sendMessage env (FunctionResponses [aggregated call results]) w' with
          | (Throw e, w2) =>
              Some {| last := Throw e; locals := l'; turns := turns_; after := w2 |}
          | (Return response', w2) => turnLoop env fuel (S turns_) response' l' w2
          end).
Proof.
  intros Hn Ha Hd.
  assert (Hexec : forall l w,
             exists results l' w',
               executeCall env call l w = (aggregated call results, l', w') /\
               List.length results = List.length ds /\
               joined ds w results w' /\
               Forall2 tagged ds results).
  { intros l w. rewrite (executeCall_parallel l w Hn Ha Hd).
    do 3 eexists. split; [reflexivity|].
    pose proof (runDispatches_joined ds l w) as Hj.
    pose proof (joined_tagged Hj) as Ht.
    split; [|split; [exact Hj|exact Ht]]. symmetry. exact (Forall2_length Ht). }
  split; [exact Hexec|]. split.
  { intros d [e|output]; simpl; repeat split. }
  intros fuel turns_ response l w Hp Ht.
  destruct (Hexec l (wait env 350 w)) as (results & l' & w' & E & Hlen & Hj & _).
  exists results, l', w'. split; [exact Hj|].
  cbn [turnLoop]. unfold hasCalls. rewrite Hp. cbn [List.length Nat.eqb negb andb].
  apply Nat.ltb_lt in Ht. rewrite Ht.
  cbn [executeCalls]. rewrite E. reflexivity.
Qed.

End OverseerFacts.

(** *** Scenarios *)

(** An environment in which nothing fails; the world counts the messages
    sent to the provider, which answers each with its number and no tool
    call. *)
Definition calmEnv : Env nat :=
  {| clock := fun w => Z.of_nat w;
     credential := fun _ => Some "key";
     sendMessage := fun _ w =>
       (Return {| functionCalls := None;
                  response_text := Some ("answer " ++ showNat w)%string;
                  groundingChunks := None |}, S w);
     runHrManagerAgent := fun _ w => (Return (Some "hired"), w);
     runIntegrationAgent := fun _ w => (Return (Some "integrated"), w);
     runResearcherAgent := fun _ w => (Return (Some "found"), w);
     runDataAnalystAgent := fun _ w => (Return (Some "analysed"), w);
     runDeveloperAgent := fun _ w => (Return (Some "built"), w);
     runAntigravityAgent := fun _ w => (Return (Some "deployed"), w);
     runSpeedsterAgent := fun _ w => (Return (Some "done"), w);
     runNavigatorAgent := fun _ w => (Return {| nav_text := Some "here" |}, w);
     generateImage := fun _ w => (Return {| image_data := "png"; image_model := "imagen" |}, w);
     generateVideo := fun _ w => (Return {| video_uri := "blob:video" |}, w);
     callTool := fun _ _ w =>
       (Return {| result_content := Some [textContent "ok"]; isError := None |}, w);
     wait := fun _ w => w;
     backoffWait := fun _ w => w |}.

Definition listContainers : FunctionCall :=
  {| call_name := "list_active_containers"; call_id := Some "c1"; call_args := None |}.

(** The provider of [calmEnv], but asking for a tool call every time. *)
Definition insistentEnv : Env nat :=
  {| clock := clock calmEnv;
     credential := credential calmEnv;
     sendMessage := fun _ w =>
       (Return {| functionCalls := Some [listContainers];
                  response_text := Some ("answer " ++ showNat w)%string;
                  groundingChunks := None |}, S w);
     runHrManagerAgent := runHrManagerAgent calmEnv;
     runIntegrationAgent := runIntegrationAgent calmEnv;
     runResearcherAgent := runResearcherAgent calmEnv;
     runDataAnalystAgent := runDataAnalystAgent calmEnv;
     runDeveloperAgent := runDeveloperAgent calmEnv;
     runAntigravityAgent := runAntigravityAgent calmEnv;
     runSpeedsterAgent := runSpeedsterAgent calmEnv;
     runNavigatorAgent := runNavigatorAgent calmEnv;
     generateImage := generateImage calmEnv;
     generateVideo := generateVideo calmEnv;
     callTool := callTool calmEnv;
     wait := wait calmEnv;
     backoffWait := backoffWait calmEnv |}.

Lemma insistent_always : alwaysRequestsTool insistentEnv.
Proof. intros m w. do 2 eexists. split; reflexivity. Qed.

(** Seven messages reach the provider: the prompt and six rounds of tool
    results; the text returned is the seventh answer. *)
Example insistent_run :
  option_map (fun res => (attempts res, result res, world res))
             (runOverseerAgent insistentEnv 7 "plan the launch" 0%nat)
  = Some (1%nat,
          Return {| o_text := Some "answer 6"; o_groundingLinks := [];
                    o_tasks := []; o_videoUri := EmptyString; o_image := EmptyString |},
          7%nat).
Proof. vm_compute. reflexivity. Qed.

Lemma overseer_turn_bound_witness :
  alwaysRequestsTool insistentEnv /\
  (MAX_TURNS < 7)%nat /\
  credential insistentEnv 0%nat = Some "key" /\
  exists res out response w1 response_last l',
    runOverseerAgent insistentEnv 7 "plan the launch" 0%nat = Some res /\
    attempts res = 1%nat /\
    result res = Return out /\
    sendMessage insistentEnv (Prompt "plan the launch") 0%nat = (Return response, w1) /\
    rounds insistentEnv 6 response noLocals w1 response_last l' (world res) /\
    o_text out = response_text response_last /\
    o_tasks out = l_tasks l'.
Proof.
  split; [exact insistent_always|].
  split; [unfold MAX_TURNS; lia|].
  split; [reflexivity|].
  apply (proj1 (proj2 (proj2 (overseer_turn_bound insistentEnv))) insistent_always
               7%nat "plan the launch" 0%nat "key").
  - unfold MAX_TURNS; lia.
  - reflexivity.
Defined.

(** Three dispatches; the researcher, second in line, is rejected. *)
Definition flakyEnv : Env nat :=
  {| clock := clock calmEnv;
     credential := credential calmEnv;
     sendMessage := sendMessage calmEnv;
     runHrManagerAgent := runHrManagerAgent calmEnv;
     runIntegrationAgent := runIntegrationAgent calmEnv;
     runResearcherAgent := fun _ w => (Throw (newError "browser crashed"), w);
     runDataAnalystAgent := runDataAnalystAgent calmEnv;
     runDeveloperAgent := runDeveloperAgent calmEnv;
     runAntigravityAgent := runAntigravityAgent calmEnv;
     runSpeedsterAgent := runSpeedsterAgent calmEnv;
     runNavigatorAgent := runNavigatorAgent calmEnv;
     generateImage := generateImage calmEnv;
     generateVideo := generateVideo calmEnv;
     callTool := callTool calmEnv;
     wait := wait calmEnv;
     backoffWait := backoffWait calmEnv |}.

Definition threeDispatches : list Dispatch :=
  [ {| agent := "DEVELOPER"; d_prompt := "write it" |};
    {| agent := "RESEARCHER"; d_prompt := "look it up" |};
    {| agent := "SPEEDSTER"; d_prompt := "sum it up" |} ].

Definition fanOutArgs : Args :=
  {| a_tasks := None; a_dispatches := Some threeDispatches; a_prompt := None;
     a_aspectRatio := None; a_resolution := None; a_modelId := None |}.

Definition fanOut : FunctionCall :=
  {| call_name := "parallel_dispatch"; call_id := Some "c7";
     call_args := Some fanOutArgs |}.

Example fanOut_results :
  fst (fst (runDispatches flakyEnv threeDispatches noLocals 0%nat))
  = [ {| r_agent := "DEVELOPER"; r_prompt := "write it"; r_status := SUCCESS;
         r_response := Some "built"; r_error := None |};
      {| r_agent := "RESEARCHER"; r_prompt := "look it up"; r_status := ERROR;
         r_response := None; r_error := Some "browser crashed" |};
      {| r_agent := "SPEEDSTER"; r_prompt := "sum it up"; r_status := SUCCESS;
         r_response := Some "done"; r_error := None |} ].
Proof. vm_compute. reflexivity. Qed.

(** The text handed back to the provider, written with ['] for the
    quotation mark. *)
Fixpoint withQuotes (s : string) : string :=
  match s with
  | EmptyString => EmptyString
  | String c s' =>
      String (if Ascii.eqb c "'"%char then ascii_of_nat 34 else c) (withQuotes s')
  end.

Example fanOut_text :
  fst (fst (executeCall flakyEnv fanOut noLocals 0%nat))
  = {| fr_name := "parallel_dispatch";
       fr_response := ResultContent [withQuotes
         ("Parallel Thread Batch: [" ++
          "{'agent':'DEVELOPER','prompt':'write it','status':'SUCCESS','response':'built'}," ++
          "{'agent':'RESEARCHER','prompt':'look it up','status':'ERROR','error':'browser crashed'}," ++
          "{'agent':'SPEEDSTER','prompt':'sum it up','status':'SUCCESS','response':'done'}]")%string];
       fr_id := Some "c7" |}.
Proof. vm_compute. reflexivity. Qed.

Lemma parallel_dispatch_join_witness :
  call_name fanOut = "parallel_dispatch" /\
  call_args fanOut = Some fanOutArgs /\
  a_dispatches fanOutArgs = Some threeDispatches /\
  exists results l' w',
    executeCall flakyEnv fanOut noLocals 0%nat = (aggregated fanOut results, l', w') /\
    List.length results = 3%nat /\
    joined flakyEnv threeDispatches 0%nat results w' /\
    Forall2 (tagged flakyEnv) threeDispatches results.
Proof.
  split; [reflexivity|]. split; [reflexivity|]. split; [reflexivity|].
  apply (proj1 (@parallel_dispatch_join nat flakyEnv fanOut fanOutArgs threeDispatches
                  eq_refl eq_refl eq_refl) noLocals 0%nat).
Defined.

End OrchestrationFacts.

(** ** Binary64 arithmetic: facts derived from the specification of the
    primitive operations *)

Module FloatFacts.
Local Open Scope float_scope.

(** *** Products, zeros, quotients *)

Lemma SFmul_comm (x y : spec_float) : SF64mul x y = SF64mul y x.
Proof.
  unfold SF64mul.
  destruct x as [sx|sx| |sx mx ex], y as [sy|sy| |sy my ey]; simpl;
    rewrite ?(xorb_comm sx sy); try reflexivity.
  now rewrite (Pos.mul_comm mx my), (Z.add_comm ex ey).
Qed.

Lemma mul_comm (x y : float) : x * y = y * x.
Proof. apply Prim2SF_inj. rewrite !mul_spec. apply SFmul_comm. Qed.

Lemma Prim2SF_zero : Prim2SF 0 = S754_zero false.
Proof. reflexivity. Qed.

Lemma eqb_zero_inv (x : float) : (x =? 0) = true -> x = 0 \/ x = (-0).
Proof.
  rewrite eqb_spec, Prim2SF_zero. intros H.
  rewrite <- (SF2Prim_Prim2SF x).
  destruct (Prim2SF x) as [[|]| [|] | |[|] m e]; try discriminate H; simpl; auto.
Qed.

Lemma is_nan_spec (x : float) : is_nan x = true <-> Prim2SF x = S754_nan.
Proof.
  unfold is_nan. rewrite eqb_spec.
  destruct (Prim2SF x) as [[|]| [|] | |[|] m e]; simpl; split; try discriminate; auto.
  all: unfold SFeqb, SFcompare; rewrite ?Z.compare_refl, ?Pos.compare_cont_refl; simpl; discriminate.
Qed.

Lemma Prim2SF_infinity : Prim2SF infinity = S754_infinity false.
Proof. reflexivity. Qed.

Lemma is_finite_cases (x : float) :
  is_finite x = true ->
  (exists s, Prim2SF x = S754_zero s) \/ (exists s m e, Prim2SF x = S754_finite s m e).
Proof.
  unfold is_finite, is_nan, is_infinity.
  rewrite !eqb_spec, abs_spec, Prim2SF_infinity.
  destruct (Prim2SF x) as [s|s| |s m e]; simpl; intros H.
  - left. now exists s.
  - destruct s; discriminate H.
  - discriminate H.
  - right. now exists s, m, e.
Qed.

Lemma mul_zero_finite (t : float) : is_finite t = true -> (0 * t =? 0) = true.
Proof.
  intros H. rewrite eqb_spec, mul_spec, Prim2SF_zero.
  destruct (is_finite_cases H) as [[s ->]|(s & m & e & ->)]; reflexivity.
Qed.

Lemma Prim2SF_one : Prim2SF 1 = S754_finite false 4503599627370496 (-52).
Proof. reflexivity. Qed.

Lemma div_eucl_shift (m : positive) :
  Z.div_eucl (Z.shiftl (Z.pos m) 53) (Z.pos m) = (9007199254740992%Z, 0%Z).
Proof.
  rewrite Z.shiftl_mul_pow2 by lia. rewrite Z.mul_comm.
  rewrite (surjective_pairing (Z.div_eucl _ _)).
  change (fst (Z.div_eucl ?a ?b)) with (Z.div a b).
  change (snd (Z.div_eucl ?a ?b)) with (Z.modulo a b).
  rewrite Z.div_mul, Z.mod_mul by lia. reflexivity.
Qed.

Lemma SFdiv_self (s : bool) (m : positive) (e : Z) :
  SF64div (S754_finite s m e) (S754_finite s m e) = S754_finite false 4503599627370496 (-52).
Proof.
  unfold SF64div, SFdiv, SFdiv_core_binary.
  rewrite !Z.sub_diag. cbn [Zdigits2].
  change (Z.min (fexp prec emax 0) 0) with (-53)%Z.
  change (0 - -53)%Z with 53%Z. cbv iota.
  rewrite div_eucl_shift, xorb_nilpotent.
  unfold new_location. destruct (Z.even (Z.pos m)); reflexivity.
Qed.

Lemma div_self (x : float) :
  is_finite x = true -> (x =? 0) = false -> x / x = 1.
Proof.
  intros Hf Hz. apply Prim2SF_inj. rewrite div_spec, Prim2SF_one.
  destruct (is_finite_cases Hf) as [[s E]|(s & m & e & E)].
  - rewrite eqb_spec, E, Prim2SF_zero in Hz. destruct s; discriminate Hz.
  - rewrite E. apply SFdiv_self.
Qed.

(** *** The order of the doubles *)

Local Open Scope Z_scope.

Lemma digits2_pos_bounds (m : positive) :
  2 ^ (Z.pos (digits2_pos m) - 1) <= Z.pos m < 2 ^ Z.pos (digits2_pos m).
Proof.
  induction m as [m IH|m IH|]; simpl digits2_pos.
  - rewrite Pos2Z.inj_succ. replace (Z.succ (Z.pos (digits2_pos m)) - 1)
      with (Z.succ (Z.pos (digits2_pos m) - 1)) by lia.
    rewrite !Z.pow_succ_r by lia. lia.
  - rewrite Pos2Z.inj_succ. replace (Z.succ (Z.pos (digits2_pos m)) - 1)
      with (Z.succ (Z.pos (digits2_pos m) - 1)) by lia.
    rewrite !Z.pow_succ_r by lia. lia.
  - simpl. lia.
Qed.

Definition emin64 : Z := -1074.

Lemma valid_finite_bounds (s : bool) (m : positive) (e : Z) :
  valid_binary (S754_finite s m e) = true ->
  emin64 <= e <= 971 /\
  Z.pos m < 9007199254740992 /\
  (emin64 < e -> 4503599627370496 <= Z.pos m).
Proof.
  unfold emin64. simpl. unfold bounded, canonical_mantissa, fexp.
  change (SpecFloat.emin prec emax) with (-1074). change (emax - prec) with 971.
  change prec with 53.
  intros H. apply andb_prop in H. destruct H as [H1 H2].
  apply Z.eqb_eq in H1. apply Z.leb_le in H2.
  change (IntDef.Z.max ?a ?b) with (Z.max a b) in H1.
  pose proof (digits2_pos_bounds m) as [Hlo Hhi].
  set (d := Z.pos (digits2_pos m)) in *.
  assert (Hd : 0 < d) by (unfold d; lia).
  split; [lia|]. split.
  - apply Z.lt_le_trans with (2 ^ d); [assumption|].
    change 9007199254740992 with (2 ^ 53).
    apply Z.pow_le_mono_r; lia.
  - intros He. assert (d = 53) by lia.
    replace (d - 1) with 52 in Hlo by lia. exact Hlo.
Qed.

Definition mag (m : positive) (e : Z) : Z := Z.pos m * 2 ^ (e + 1074).

Definition top : Z := 2 ^ 2098.

(** The position of a float on the integer line, in units of the least
    subnormal. *)
Definition ord (x : spec_float) : Z :=
  match x with
  | S754_zero _ => 0
  | S754_infinity s => if s then - top else top
  | S754_nan => 0
  | S754_finite s m e => if s then - mag m e else mag m e
  end.

Lemma mag_bounds (s : bool) (m : positive) (e : Z) :
  valid_binary (S754_finite s m e) = true -> 0 < mag m e < top.
Proof.
  intros H. apply valid_finite_bounds in H. unfold emin64 in H.
  destruct H as (He & Hm & _). unfold mag, top.
  assert (0 < 2 ^ (e + 1074)) by (apply Z.pow_pos_nonneg; lia).
  split; [lia|].
  apply Z.lt_le_trans with (9007199254740992 * 2 ^ (e + 1074)).
  - apply Z.mul_lt_mono_pos_r; lia.
  - change 9007199254740992 with (2 ^ 53). rewrite <- Z.pow_add_r by lia.
    apply Z.pow_le_mono_r; lia.
Qed.

Lemma mag_lt (s1 s2 : bool) (m1 m2 : positive) (e1 e2 : Z) :
  valid_binary (S754_finite s1 m1 e1) = true ->
  valid_binary (S754_finite s2 m2 e2) = true ->
  e1 < e2 -> mag m1 e1 < mag m2 e2.
Proof.
  intros H1 H2 He. apply valid_finite_bounds in H1, H2. unfold emin64 in *.
  destruct H1 as (He1 & Hm1 & _), H2 as (He2 & _ & Hm2).
  specialize (Hm2 ltac:(lia)). unfold mag.
  replace (e2 + 1074) with ((e2 - e1) + (e1 + 1074)) by lia.
  rewrite (Z.pow_add_r 2 (e2 - e1) (e1 + 1074)) by lia.
  assert (HA : 0 < 2 ^ (e1 + 1074)) by (apply Z.pow_pos_nonneg; lia).
  assert (HB : 2 ^ 1 <= 2 ^ (e2 - e1)) by (apply Z.pow_le_mono_r; lia).
  change (2 ^ 1) with 2 in HB.
  set (A := 2 ^ (e1 + 1074)) in *. set (B := 2 ^ (e2 - e1)) in *.
  apply Z.lt_le_trans with (9007199254740992 * A).
  { apply Z.mul_lt_mono_pos_r; assumption. }
  rewrite Z.mul_assoc. apply Z.mul_le_mono_nonneg_r; [lia|].
  apply Z.le_trans with (Z.pos m2 * 2); [lia|].
  apply Z.mul_le_mono_nonneg_l; lia.
Qed.

Lemma mag_compare (m1 m2 : positive) (e : Z) :
  -1074 <= e -> (mag m1 e ?= mag m2 e) = (m1 ?= m2)%positive.
Proof.
  intros He. unfold mag.
  assert (HA : 0 < 2 ^ (e + 1074)) by (apply Z.pow_pos_nonneg; lia).
  destruct (Pos.compare_spec m1 m2) as [E|E|E].
  - subst. apply Z.compare_refl.
  - apply Z.compare_lt_iff, Z.mul_lt_mono_pos_r; lia.
  - apply Z.compare_gt_iff, Z.mul_lt_mono_pos_r; lia.
Qed.

Definition not_nan (x : spec_float) : Prop := x <> S754_nan.

Ltac compare_by_lia :=
  f_equal; symmetry;
  first [ apply Z.compare_eq_iff; lia
        | apply Z.compare_lt_iff; lia
        | apply Z.compare_gt_iff; lia ].

Lemma SFcompare_ord (x y : spec_float) :
  valid_binary x = true -> valid_binary y = true ->
  not_nan x -> not_nan y ->
  SFcompare x y = Some (ord x ?= ord y).
Proof.
  intros Vx Vy Nx Ny.
  assert (Ht : 0 < top) by (unfold top; apply Z.pow_pos_nonneg; lia).
  destruct x as [sx|sx| |sx mx ex], y as [sy|sy| |sy my ey];
    try (exfalso; now (apply Nx || apply Ny));
    try pose proof (mag_bounds Vx) as Bx; try pose proof (mag_bounds Vy) as By;
    cbn [SFcompare ord];
    try (destruct sx; compare_by_lia);
    try (destruct sy; compare_by_lia);
    try (destruct sx, sy; compare_by_lia).
  f_equal.
  pose proof (valid_finite_bounds Vx) as (Hex & _). unfold emin64 in Hex.
  destruct sx, sy.
  - destruct (Z.compare_spec ex ey) as [E|E|E].
    + subst ey. rewrite Z.compare_opp, mag_compare by lia.
      rewrite Pos.compare_cont_spec, (Pos.compare_antisym mx my).
      now destruct (mx ?= my)%positive.
    + symmetry. apply Z.compare_gt_iff.
      pose proof (mag_lt Vx Vy E). lia.
    + symmetry. apply Z.compare_lt_iff.
      pose proof (mag_lt Vy Vx E). lia.
  - symmetry. apply Z.compare_lt_iff. lia.
  - symmetry. apply Z.compare_gt_iff. lia.
  - destruct (Z.compare_spec ex ey) as [E|E|E].
    + subst ey. rewrite mag_compare by lia.
      rewrite Pos.compare_cont_spec. now destruct (mx ?= my)%positive.
    + symmetry. apply Z.compare_lt_iff. exact (mag_lt Vx Vy E).
    + symmetry. apply Z.compare_gt_iff. exact (mag_lt Vy Vx E).
Qed.

(** *** Rounding keeps the sign of a non-zero value *)

Lemma shr_1_lower (j : Z) (mrs : shr_record) :
  0 <= j -> 2 ^ (j + 1) <= shr_m mrs -> 2 ^ j <= shr_m (shr_1 mrs).
Proof.
  intros Hj. rewrite Z.pow_add_r by lia. change (2 ^ 1) with 2.
  assert (0 < 2 ^ j) by (apply Z.pow_pos_nonneg; lia).
  destruct mrs as [m r s]. simpl.
  destruct m as [|[p|p|]|p]; simpl; lia.
Qed.

Lemma iter_shr_lower (n : positive) :
  forall (j : Z) (mrs : shr_record),
    0 <= j -> 2 ^ (j + Z.pos n) <= shr_m mrs ->
    2 ^ j <= shr_m (iter_pos shr_1 n mrs).
Proof.
  induction n as [n IH|n IH|]; intros j mrs Hj H; simpl.
  - apply IH; [lia|]. apply IH; [lia|]. apply shr_1_lower; [lia|].
    replace (j + Z.pos n + Z.pos n + 1) with (j + Z.pos n~1) by lia. exact H.
  - apply IH; [lia|]. apply IH; [lia|].
    replace (j + Z.pos n + Z.pos n) with (j + Z.pos n~0) by lia. exact H.
  - now apply shr_1_lower.
Qed.

Lemma shr_m_of_loc (m : Z) (l : location) : shr_m (shr_record_of_loc m l) = m.
Proof. now destruct l as [|[]]. Qed.

Lemma shr_fexp_pos (m : positive) (e : Z) (l : location) :
  -1074 <= e ->
  0 < shr_m (fst (shr_fexp prec emax (Z.pos m) e l)) /\
  -1074 <= snd (shr_fexp prec emax (Z.pos m) e l).
Proof.
  intros He. unfold shr_fexp, shr, fexp.
  change (SpecFloat.emin prec emax) with (-1074). change prec with 53.
  change (IntDef.Z.max ?a ?b) with (Z.max a b).
  cbn [Zdigits2].
  pose proof (digits2_pos_bounds m) as [Hlo _].
  set (d := Z.pos (digits2_pos m)) in *.
  destruct (Z.max (d + e - 53) (-1074) - e) as [|p|p] eqn:E; simpl fst; simpl snd.
  - rewrite shr_m_of_loc. lia.
  - split; [|lia].
    apply Z.lt_le_trans with (2 ^ 52); [reflexivity|].
    apply iter_shr_lower; [lia|]. rewrite shr_m_of_loc.
    replace (52 + Z.pos p) with (d - 1) by lia. exact Hlo.
  - rewrite shr_m_of_loc. lia.
Qed.

Lemma round_nearest_even_ge (m : Z) (l : location) : m <= round_nearest_even m l.
Proof. destruct l as [|[]]; simpl; try destruct (Z.even m); lia. Qed.

(** A float that carries the sign [s] and is neither zero nor NaN. *)
Definition signed (s : bool) (x : spec_float) : Prop :=
  (exists m e, x = S754_finite s m e) \/ x = S754_infinity s.

Lemma binary_round_aux_signed (s : bool) (m : positive) (e : Z) (l : location) :
  -1074 <= e -> signed s (binary_round_aux prec emax s (Z.pos m) e l).
Proof.
  intros He. unfold binary_round_aux.
  pose proof (shr_fexp_pos m l He) as [H1 H2].
  destruct (shr_fexp prec emax (Z.pos m) e l) as [mrs' e']. simpl in H1, H2.
  pose proof (@round_nearest_even_ge (shr_m mrs') (loc_of_shr_record mrs')) as Hr.
  destruct (round_nearest_even (shr_m mrs') (loc_of_shr_record mrs')) as [|m2|m2];
    try lia.
  pose proof (shr_fexp_pos m2 loc_Exact H2) as [H3 _].
  destruct (shr_fexp prec emax (Z.pos m2) e' loc_Exact) as [mrs'' e'']. simpl in H3.
  destruct (shr_m mrs'') as [|m3|m3]; try lia.
  destruct (e'' <=? emax - prec); [left; eauto|now right].
Qed.

Lemma binary_round_signed (s : bool) (m : positive) (e : Z) :
  -1074 <= e -> signed s (binary_round prec emax s m e).
Proof.
  intros He. unfold binary_round, shl_align.
  set (e' := fexp prec emax (Z.pos (digits2_pos m) + e)).
  assert (He' : -1074 <= e').
  { unfold e', fexp. change (SpecFloat.emin prec emax) with (-1074).
    change (IntDef.Z.max ?a ?b) with (Z.max a b). lia. }
  destruct (e' - e); now apply binary_round_aux_signed.
Qed.

(** *** Subtraction: the sign of the difference *)

Lemma iter_xO (m d : positive) : Z.pos (Pos.iter xO m d) = Z.pos m * 2 ^ Z.pos d.
Proof.
  induction d as [|d IH] using Pos.peano_ind.
  - simpl. lia.
  - rewrite Pos.iter_succ, Pos2Z.inj_xO, IH, Pos2Z.inj_succ, Z.pow_succ_r by lia. lia.
Qed.

Lemma aligned_mag (m : positive) (e ez : Z) :
  -1074 <= ez -> ez <= e ->
  Z.pos (fst (shl_align m e ez)) * 2 ^ (ez + 1074) = mag m e.
Proof.
  intros Hz He. unfold shl_align, mag.
  destruct (ez - e) as [|d|d] eqn:E; simpl fst.
  - replace ez with e by lia. reflexivity.
  - lia.
  - rewrite iter_xO, <- Z.mul_assoc, <- Z.pow_add_r by lia.
    do 2 f_equal. lia.
Qed.

Lemma cond_Zopp_mul (s : bool) (a b : Z) : cond_Zopp s a * b = cond_Zopp s (a * b).
Proof. destruct s; simpl; lia. Qed.

Lemma ord_finite (s : bool) (m : positive) (e : Z) :
  ord (S754_finite s m e) = cond_Zopp s (mag m e).
Proof. now destruct s. Qed.

Lemma SFltb_zero_signed (s : bool) (r : spec_float) :
  signed s r -> SFltb (S754_zero false) r = negb s.
Proof. intros [(m & e & ->)| ->]; now destruct s. Qed.

Lemma SFsub_positive (x y : spec_float) :
  valid_binary x = true -> valid_binary y = true ->
  not_nan x -> not_nan y ->
  SFltb (S754_zero false) (SF64sub y x) = true <-> ord x < ord y.
Proof.
  intros Vx Vy Nx Ny.
  assert (Ht : 0 < top) by (unfold top; apply Z.pow_pos_nonneg; lia).
  destruct x as [sx|sx| |sx mx ex], y as [sy|sy| |sy my ey];
    try (exfalso; now (apply Nx || apply Ny));
    try pose proof (mag_bounds Vx) as Bx; try pose proof (mag_bounds Vy) as By.
  1-8: cbn [SF64sub SFsub ord];
       try destruct sx; try destruct sy; cbn [negb SFltb SFcompare];
       split; intros H; try discriminate H; try reflexivity; lia.
  pose proof (valid_finite_bounds Vx) as (Hex & _).
  pose proof (valid_finite_bounds Vy) as (Hey & _). unfold emin64 in *.
  unfold SF64sub, SFsub. set (ez := Z.min ey ex).
  pose proof (@aligned_mag mx ex ez ltac:(unfold ez; lia) ltac:(unfold ez; lia)) as Ax.
  pose proof (@aligned_mag my ey ez ltac:(unfold ez; lia) ltac:(unfold ez; lia)) as Ay.
  assert (Hk : 0 < 2 ^ (ez + 1074)) by (apply Z.pow_pos_nonneg; unfold ez; lia).
  set (ax := Z.pos (fst (shl_align mx ex ez))) in *.
  set (ay := Z.pos (fst (shl_align my ey ez))) in *.
  assert (HD : (cond_Zopp sy ay - cond_Zopp sx ax) * 2 ^ (ez + 1074) = ord (S754_finite sy my ey) - ord (S754_finite sx mx ex)).
  { rewrite !ord_finite, Z.mul_sub_distr_r, !cond_Zopp_mul. now rewrite Ax, Ay. }
  set (lhs := ord (S754_finite sy my ey)) in *.
  set (rhs := ord (S754_finite sx mx ex)) in *.
  destruct (cond_Zopp sy ay - cond_Zopp sx ax) as [|D|D]; cbn [binary_normalize].
  - split; [discriminate|lia].
  - rewrite (@SFltb_zero_signed false) by (apply binary_round_signed; unfold ez; lia).
    split; [nia|reflexivity].
  - rewrite (@SFltb_zero_signed true) by (apply binary_round_signed; unfold ez; lia).
    split; [discriminate|nia].
Qed.

(** *** Back to the primitive operations *)

Local Open Scope float_scope.

Lemma not_nan_spec (x : float) : is_nan x = false <-> not_nan (Prim2SF x).
Proof.
  unfold not_nan. split.
  - intros H E. apply is_nan_spec in E. congruence.
  - intros H. destruct (is_nan x) eqn:E; [|reflexivity].
    apply is_nan_spec in E. contradiction.
Qed.

Lemma leb_ord (a b : float) :
  is_nan a = false -> is_nan b = false ->
  (a <=? b) = true <-> (ord (Prim2SF a) <= ord (Prim2SF b))%Z.
Proof.
  intros Ha Hb. apply not_nan_spec in Ha, Hb.
  rewrite leb_spec. unfold SFleb.
  rewrite (SFcompare_ord (Prim2SF_valid a) (Prim2SF_valid b) Ha Hb).
  destruct (Z.compare_spec (ord (Prim2SF a)) (ord (Prim2SF b)));
    split; intros; try discriminate; try reflexivity; lia.
Qed.

Lemma leb_not_nan (a b : float) :
  (a <=? b) = true -> is_nan a = false /\ is_nan b = false.
Proof.
  rewrite leb_spec, !not_nan_spec. unfold SFleb, not_nan.
  destruct (Prim2SF a), (Prim2SF b); simpl; intros H; split; congruence.
Qed.

Lemma sub_positive (a b : float) :
  is_nan a = false -> is_nan b = false ->
  (0 <? b - a) = true <-> (ord (Prim2SF a) < ord (Prim2SF b))%Z.
Proof.
  intros Ha Hb. apply not_nan_spec in Ha, Hb.
  rewrite ltb_spec, sub_spec, Prim2SF_zero.
  apply SFsub_positive; auto using Prim2SF_valid.
Qed.

End FloatFacts.

(** ** Binary64 arithmetic: rounding of normal numbers, on the mantissas *)

Module RoundingFacts.
Import FloatFacts.
Local Open Scope Z_scope.

(** *** Digits and shifts *)

Lemma digits2_pos_unique (m : positive) (k : Z) :
  2 ^ (k - 1) <= Z.pos m < 2 ^ k -> Z.pos (digits2_pos m) = k.
Proof.
  intros [Hlo Hhi]. pose proof (digits2_pos_bounds m) as [Dlo Dhi].
  set (d := Z.pos (digits2_pos m)) in *. assert (Hd : 0 < d) by (unfold d; lia).
  assert (Hk : 0 < k).
  { destruct (Z.le_gt_cases k 0) as [Hk|Hk]; [|exact Hk]. exfalso.
    assert (2 ^ k <= 2 ^ 0) by (destruct k; simpl; try lia; reflexivity || discriminate).
    simpl in *. lia. }
  destruct (Z.lt_trichotomy d k) as [L|[E|G]]; [|exact E|]; exfalso.
  - assert (2 ^ d <= 2 ^ (k - 1)) by (apply Z.pow_le_mono_r; lia). lia.
  - assert (2 ^ k <= 2 ^ (d - 1)) by (apply Z.pow_le_mono_r; lia). lia.
Qed.

Lemma shr_1_m (mrs : shr_record) :
  0 <= shr_m mrs -> shr_m (shr_1 mrs) = shr_m mrs / 2 /\ 0 <= shr_m (shr_1 mrs).
Proof.
  destruct mrs as [m r s]. cbn [shr_m].
  destruct m as [|[p|p|]|p]; cbn [shr_1 shr_m]; intros H; try lia.
  - split; [reflexivity|lia].
  - split; [|lia]. apply Z.div_unique with 1; lia.
  - split; [|lia]. apply Z.div_unique with 0; lia.
  - split; [reflexivity|lia].
Qed.

Lemma iter_shr_m (n : positive) :
  forall mrs, 0 <= shr_m mrs ->
    shr_m (iter_pos shr_1 n mrs) = shr_m mrs / 2 ^ Z.pos n /\
    0 <= shr_m (iter_pos shr_1 n mrs).
Proof.
  induction n as [n IH|n IH|]; intros mrs H; simpl iter_pos.
  - destruct (shr_1_m H) as [E1 N1].
    destruct (IH _ N1) as [E2 N2]. destruct (IH _ N2) as [E3 N3].
    split; [|exact N3]. rewrite E3, E2, E1.
    assert (0 < 2 ^ Z.pos n) by (apply Z.pow_pos_nonneg; lia).
    rewrite !Z.div_div by lia. f_equal.
    replace (Z.pos n~1) with (1 + Z.pos n + Z.pos n) by lia.
    rewrite !Z.pow_add_r by lia. change (2 ^ 1) with 2. lia.
  - destruct (IH _ H) as [E2 N2]. destruct (IH _ N2) as [E3 N3].
    split; [|exact N3]. rewrite E3, E2.
    assert (0 < 2 ^ Z.pos n) by (apply Z.pow_pos_nonneg; lia).
    rewrite !Z.div_div by lia. f_equal.
    replace (Z.pos n~0) with (Z.pos n + Z.pos n) by lia.
    rewrite !Z.pow_add_r by lia. lia.
  - destruct (shr_1_m H) as [E1 N1]. split; [|exact N1]. rewrite E1. reflexivity.
Qed.


Lemma loc_of_shr_record_of_loc (m : Z) (l : location) :
  loc_of_shr_record (shr_record_of_loc m l) = l.
Proof. destruct l as [|[]]; reflexivity. Qed.

(** The first step of rounding, away from the subnormal range: a mantissa
    of [d >= 53] digits loses its [d - 53] low digits. *)
Lemma shr_fexp_trunc (m : positive) (e : Z) (l : location) :
  53 <= Z.pos (digits2_pos m) -> -1074 <= e + Z.pos (digits2_pos m) - 53 ->
  snd (shr_fexp prec emax (Z.pos m) e l) = e + Z.pos (digits2_pos m) - 53 /\
  shr_m (fst (shr_fexp prec emax (Z.pos m) e l))
  = Z.pos m / 2 ^ (Z.pos (digits2_pos m) - 53) /\
  (Z.pos (digits2_pos m) = 53 ->
   fst (shr_fexp prec emax (Z.pos m) e l) = shr_record_of_loc (Z.pos m) l).
Proof.
  intros Hd He. unfold shr_fexp, shr, fexp.
  change (SpecFloat.emin prec emax) with (-1074). change prec with 53.
  change (IntDef.Z.max ?a ?b) with (Z.max a b). cbn [Zdigits2].
  set (d := Z.pos (digits2_pos m)) in *.
  replace (Z.max (d + e - 53) (-1074) - e) with (d - 53) by lia.
  destruct (d - 53) as [|p|p] eqn:E; cbn [fst snd].
  - rewrite shr_m_of_loc. repeat split; try lia. now rewrite Z.div_1_r.
  - destruct (@iter_shr_m p (shr_record_of_loc (Z.pos m) l)) as [E1 _];
      [rewrite shr_m_of_loc; lia|].
    rewrite E1, shr_m_of_loc. repeat split; try lia.
  - lia.
Qed.

Lemma round_nearest_even_bounds (m : Z) (l : location) :
  round_nearest_even m l = m \/ round_nearest_even m l = m + 1.
Proof. destruct l as [|[]]; simpl; try destruct (Z.even m); auto. Qed.

Lemma truncated_bounds (m : positive) :
  53 <= Z.pos (digits2_pos m) ->
  2 ^ 52 <= Z.pos m / 2 ^ (Z.pos (digits2_pos m) - 53) < 2 ^ 53.
Proof.
  intros Hd. pose proof (digits2_pos_bounds m) as [Hlo Hhi].
  set (d := Z.pos (digits2_pos m)) in *.
  assert (Hk : 0 < 2 ^ (d - 53)) by (apply Z.pow_pos_nonneg; lia).
  split.
  - apply Z.div_le_lower_bound; [exact Hk|].
    rewrite <- Z.pow_add_r by lia. replace (d - 53 + 52) with (d - 1) by lia. exact Hlo.
  - apply Z.div_lt_upper_bound; [exact Hk|].
    rewrite <- Z.pow_add_r by lia. replace (d - 53 + 53) with d by lia. exact Hhi.
Qed.

(** Rounding, away from the subnormal range and from overflow: the
    result is a normal number whose value is the truncation of the
    mantissa to 53 digits or the next multiple of the unit; when no digit
    is dropped, it is the mantissa rounded as its location tells. *)
Lemma binary_round_aux_faithful (s : bool) (m : positive) (e : Z) (l : location) :
  53 <= Z.pos (digits2_pos m) ->
  -1074 <= e + Z.pos (digits2_pos m) - 53 <= 970 ->
  exists mz ez mr,
    binary_round_aux prec emax s (Z.pos m) e l = S754_finite s mz ez /\
    2 ^ 52 <= Z.pos mz < 2 ^ 53 /\ -1074 <= ez <= 971 /\
    (mr = Z.pos m / 2 ^ (Z.pos (digits2_pos m) - 53) \/
     mr = Z.pos m / 2 ^ (Z.pos (digits2_pos m) - 53) + 1) /\
    ((ez = e + Z.pos (digits2_pos m) - 53 /\ Z.pos mz = mr) \/
     (ez = e + Z.pos (digits2_pos m) - 53 + 1 /\ Z.pos mz = 2 ^ 52 /\ mr = 2 ^ 53)) /\
    (Z.pos (digits2_pos m) = 53 -> mr = round_nearest_even (Z.pos m) l).
Proof.
  intros Hd He. unfold binary_round_aux.
  destruct (@shr_fexp_trunc m e l Hd ltac:(lia)) as (HA1 & HA2 & HA3).
  pose proof (truncated_bounds Hd) as Hm1.
  destruct (shr_fexp prec emax (Z.pos m) e l) as [mrs' e']. cbn [fst snd] in *.
  subst e'. set (d := Z.pos (digits2_pos m)) in *.
  set (m1 := Z.pos m / 2 ^ (d - 53)) in *.
  assert (Hexact : d = 53 ->
            round_nearest_even (shr_m mrs') (loc_of_shr_record mrs')
            = round_nearest_even (Z.pos m) l).
  { intros E. rewrite (HA3 E), shr_m_of_loc, loc_of_shr_record_of_loc. reflexivity. }
  rewrite HA2 in *.
  pose proof (round_nearest_even_bounds m1 (loc_of_shr_record mrs')) as Hr.
  set (m2 := round_nearest_even m1 (loc_of_shr_record mrs')) in *.
  assert (Hm2 : 2 ^ 52 <= m2 <= 2 ^ 53) by lia.
  destruct m2 as [|p2|p2] eqn:Ep2; try (exfalso; change (2 ^ 52) with 4503599627370496 in Hm2; lia).
  destruct (Z.eq_dec (Z.pos p2) (2 ^ 53)) as [Htop|Hlow].
  - assert (Hd2 : Z.pos (digits2_pos p2) = 54).
    { apply digits2_pos_unique. rewrite Htop. split; [apply Z.pow_le_mono_r|apply Z.pow_lt_mono_r]; lia. }
    destruct (@shr_fexp_trunc p2 (e + d - 53) loc_Exact ltac:(lia) ltac:(lia))
      as (HB1 & HB2 & _).
    destruct (shr_fexp prec emax (Z.pos p2) (e + d - 53) loc_Exact) as [mrs'' e''].
    cbn [fst snd] in *. rewrite HB2, Hd2, Htop.
    change (2 ^ 53 / 2 ^ (54 - 53)) with (Z.pos 4503599627370496).
    cbv iota. subst e''. rewrite Hd2.
    replace (e + d - 53 + 54 - 53 <=? emax - prec) with true
      by (symmetry; apply Z.leb_le; change (emax - prec) with 971; lia).
    exists 4503599627370496%positive, (e + d - 53 + 54 - 53), (Z.pos p2).
    split; [reflexivity|]. split; [split; [reflexivity|reflexivity]|].
    split; [lia|]. split; [exact Hr|]. split.
    + right. repeat split; [lia|exact Htop].
    + exact Hexact.
  - assert (Hd2 : Z.pos (digits2_pos p2) = 53).
    { apply digits2_pos_unique. change (53 - 1) with 52. lia. }
    destruct (@shr_fexp_trunc p2 (e + d - 53) loc_Exact ltac:(lia) ltac:(lia))
      as (HB1 & HB2 & _).
    destruct (shr_fexp prec emax (Z.pos p2) (e + d - 53) loc_Exact) as [mrs'' e''].
    cbn [fst snd] in *. rewrite HB2, Hd2.
    change (2 ^ (53 - 53)) with 1. rewrite Z.div_1_r. cbv iota. subst e''. rewrite Hd2.
    replace (e + d - 53 + 53 - 53 <=? emax - prec) with true
      by (symmetry; apply Z.leb_le; change (emax - prec) with 971; lia).
    exists p2, (e + d - 53 + 53 - 53), (Z.pos p2).
    split; [reflexivity|]. split; [lia|].
    split; [lia|]. split; [exact Hr|]. split.
    + left. split; [lia|reflexivity].
    + exact Hexact.
Qed.


(** What an operation returns, away from the subnormal range and from
    overflow: a positive normal number whose value is [mr * 2 ^ er], with
    [mr] between [2 ^ 52] and [2 ^ 53]. *)
Definition rounded (x : spec_float) (mr er : Z) : Prop :=
  exists mz ez,
    x = S754_finite false mz ez /\
    2 ^ 52 <= Z.pos mz < 2 ^ 53 /\ -1074 <= ez <= 971 /\
    2 ^ 52 <= mr <= 2 ^ 53 /\
    ((ez = er /\ Z.pos mz = mr) \/ (ez = er + 1 /\ Z.pos mz = 2 ^ 52 /\ mr = 2 ^ 53)).

Lemma faithful_rounded (m : positive) (e : Z) (l : location) :
  53 <= Z.pos (digits2_pos m) ->
  -1074 <= e + Z.pos (digits2_pos m) - 53 <= 970 ->
  exists mr,
    rounded (binary_round_aux prec emax false (Z.pos m) e l)
            mr (e + Z.pos (digits2_pos m) - 53) /\
    (mr = Z.pos m / 2 ^ (Z.pos (digits2_pos m) - 53) \/
     mr = Z.pos m / 2 ^ (Z.pos (digits2_pos m) - 53) + 1) /\
    (Z.pos (digits2_pos m) = 53 -> mr = round_nearest_even (Z.pos m) l).
Proof.
  intros Hd He.
  destruct (@binary_round_aux_faithful false m e l Hd He)
    as (mz & ez & mr & E & Hmz & Hez & Hmr & Hval & Hex).
  pose proof (truncated_bounds Hd) as Ht.
  exists mr. split; [|split; [exact Hmr|exact Hex]].
  exists mz, ez. repeat split; try tauto; lia.
Qed.

(** The square root of a normal number: the mantissa is the integer
    square root of the shifted mantissa, rounded to nearest. *)
Lemma SFsqrt_normal (m : positive) (e : Z) :
  2 ^ 52 <= Z.pos m < 2 ^ 53 -> -1074 <= e <= 971 ->
  exists mr er sigma,
    rounded (SF64sqrt (S754_finite false m e)) mr er /\
    e = 2 * er + sigma /\ 52 <= sigma <= 53 /\
    (2 * mr - 1) ^ 2 <= 4 * (Z.pos m * 2 ^ sigma) <= (2 * mr + 1) ^ 2.
Proof.
  intros Hm He. unfold SF64sqrt, SFsqrt, SFsqrt_core_binary. cbn [Zdigits2].
  assert (Hd : Z.pos (digits2_pos m) = 53)
    by (apply digits2_pos_unique; change (53 - 1) with 52; exact Hm).
  rewrite Hd. rewrite !Z.div2_div.
  unfold fexp. change (SpecFloat.emin prec emax) with (-1074). change prec with 53.
  change (IntDef.Z.max ?a ?b) with (Z.max a b).
  change (IntDef.Z.min ?a ?b) with (Z.min a b).
  assert (Hhalf : (53 + e + 1) / 2 = e / 2 + 27).
  { replace (53 + e + 1) with (e + 27 * 2) by lia. apply Z.div_add. lia. }
  rewrite Hhalf.
  pose proof (Z.div_mod e 2 ltac:(lia)) as Hdm.
  pose proof (Z.mod_pos_bound e 2 ltac:(lia)) as Hmod.
  set (h := e / 2) in *. set (r := e mod 2) in *.
  replace (Z.min (Z.max (h + 27 - 53) (-1074)) h) with (h - 26) by lia.
  assert (Hsig : e - 2 * (h - 26) = 52 \/ e - 2 * (h - 26) = 53) by lia.
  assert (Hshift : forall sigma, 52 <= sigma <= 53 -> e = 2 * (h - 26) + sigma ->
            exists mr,
              rounded
                (let (q, r0) := Z.sqrtrem (Z.pos m * 2 ^ sigma) in
                 binary_round_aux 53 emax false q (h - 26)
                   (if r0 =? 0 then loc_Exact
                    else loc_Inexact (if r0 <=? q then Lt else Gt))) mr (h - 26) /\
              (2 * mr - 1) ^ 2 <= 4 * (Z.pos m * 2 ^ sigma) <= (2 * mr + 1) ^ 2).
  { intros sigma Hs Hes.
    assert (Hm' : 2 ^ 104 <= Z.pos m * 2 ^ sigma < 2 ^ 106).
    { assert (2 ^ 52 <= 2 ^ sigma) by (apply Z.pow_le_mono_r; lia).
      assert (2 ^ sigma <= 2 ^ 53) by (apply Z.pow_le_mono_r; lia).
      change (2 ^ 104) with (2 ^ 52 * 2 ^ 52). change (2 ^ 106) with (2 ^ 53 * 2 ^ 53).
      split; [apply Z.mul_le_mono_nonneg; lia|].
      apply Z.lt_le_trans with (2 ^ 53 * 2 ^ sigma).
      - apply Z.mul_lt_mono_pos_r; lia.
      - apply Z.mul_le_mono_nonneg_l; lia. }
    pose proof (Z.sqrtrem_spec (Z.pos m * 2 ^ sigma) ltac:(lia)) as Hsq.
    destruct (Z.sqrtrem (Z.pos m * 2 ^ sigma)) as [q r0]. destruct Hsq as [Hsq Hr0].
    set (m' := Z.pos m * 2 ^ sigma) in *.
    assert (Hq : 2 ^ 52 <= q < 2 ^ 53).
    { change (2 ^ 104) with (2 ^ 52 * 2 ^ 52) in Hm'.
      change (2 ^ 106) with (2 ^ 53 * 2 ^ 53) in Hm'.
      assert (0 < 2 ^ 52) by reflexivity. assert (0 < 2 ^ 53) by reflexivity.
      split; nia. }
    destruct q as [|q|q]; try (exfalso; change (2 ^ 52) with 4503599627370496 in Hq; lia).
    assert (Hdq : Z.pos (digits2_pos q) = 53)
      by (apply digits2_pos_unique; change (53 - 1) with 52; exact Hq).
    destruct (@faithful_rounded q (h - 26)
                (if r0 =? 0 then loc_Exact else loc_Inexact (if r0 <=? Z.pos q then Lt else Gt)))
      as (mr & Hround & _ & Hex); [lia|rewrite Hdq; lia|].
    rewrite Hdq in Hround. replace (h - 26 + 53 - 53) with (h - 26) in Hround by lia.
    exists mr. split; [exact Hround|].
    rewrite (Hex Hdq).
    destruct (Z.eqb_spec r0 0) as [Hz|Hz]; [|destruct (Z.leb_spec r0 (Z.pos q)) as [Hle|Hgt]];
      cbn [round_nearest_even]; nia. }
  destruct Hsig as [Hs|Hs]; rewrite Hs.
  - change (Z.shiftl (Z.pos m) 52) with (Z.shiftl (Z.pos m) 52).
    rewrite Z.shiftl_mul_pow2 by lia.
    destruct (Hshift 52 ltac:(lia) ltac:(lia)) as (mr & H1 & H2).
    exists mr, (h - 26), 52. repeat split; try lia.
    change (IntDef.Z.sqrtrem ?a) with (Z.sqrtrem a).
    revert H1. destruct (Z.sqrtrem (Z.pos m * 2 ^ 52)) as [q r0]. exact (fun H => H).
  - rewrite Z.shiftl_mul_pow2 by lia.
    destruct (Hshift 53 ltac:(lia) ltac:(lia)) as (mr & H1 & H2).
    exists mr, (h - 26), 53. repeat split; try lia.
    change (IntDef.Z.sqrtrem ?a) with (Z.sqrtrem a).
    revert H1. destruct (Z.sqrtrem (Z.pos m * 2 ^ 53)) as [q r0]. exact (fun H => H).
Qed.


Lemma truncation_brackets (a t p mr : Z) :
  0 < p -> t = a / p -> (mr = t \/ mr = t + 1) ->
  (mr - 1) * p <= a /\ a + 1 <= (mr + 1) * p.
Proof.
  intros Hp Ht Hmr.
  pose proof (Z.div_mod a p ltac:(lia)) as Hdm.
  pose proof (Z.mod_pos_bound a p Hp) as Hmod.
  rewrite <- Ht in Hdm. destruct Hmr; subst mr; nia.
Qed.

(** The product of two normal numbers. *)
Lemma SFmul_normal (mx my : positive) (ex ey : Z) :
  2 ^ 52 <= Z.pos mx < 2 ^ 53 -> 2 ^ 52 <= Z.pos my < 2 ^ 53 ->
  -1126 <= ex + ey <= 917 ->
  exists mr er k,
    rounded (SF64mul (S754_finite false mx ex) (S754_finite false my ey)) mr er /\
    52 <= k <= 53 /\ er = ex + ey + k /\
    (mr - 1) * 2 ^ k <= Z.pos mx * Z.pos my <= (mr + 1) * 2 ^ k.
Proof.
  intros Hx Hy He. unfold SF64mul, SFmul. cbn [xorb].
  assert (HM : 2 ^ 104 <= Z.pos (mx * my) < 2 ^ 106).
  { rewrite Pos2Z.inj_mul.
    change (2 ^ 104) with (2 ^ 52 * 2 ^ 52). change (2 ^ 106) with (2 ^ 53 * 2 ^ 53).
    assert (0 < 2 ^ 52) by reflexivity. assert (0 < 2 ^ 53) by reflexivity.
    split; nia. }
  pose proof (digits2_pos_bounds (mx * my)) as [Dlo Dhi].
  set (d := Z.pos (digits2_pos (mx * my))) in *.
  assert (Hd : 105 <= d <= 106).
  { split.
    - destruct (Z.le_gt_cases 105 d) as [H|H]; [exact H|exfalso].
      assert (2 ^ d <= 2 ^ 104) by (apply Z.pow_le_mono_r; lia). lia.
    - destruct (Z.le_gt_cases d 106) as [H|H]; [exact H|exfalso].
      assert (2 ^ 106 <= 2 ^ (d - 1)) by (apply Z.pow_le_mono_r; lia). lia. }
  destruct (@faithful_rounded (mx * my) (ex + ey) loc_Exact) as (mr & Hround & Hmr & _);
    fold d; try lia.
  fold d in Hround, Hmr.
  exists mr, (ex + ey + d - 53), (d - 53). split; [exact Hround|].
  split; [lia|]. split; [lia|].
  assert (Hp : 0 < 2 ^ (d - 53)) by (apply Z.pow_pos_nonneg; lia).
  destruct (@truncation_brackets (Z.pos (mx * my)) _ (2 ^ (d - 53)) mr Hp eq_refl Hmr).
  rewrite <- Pos2Z.inj_mul. lia.
Qed.

(** The quotient of two normal numbers. *)
Lemma SFdiv_normal (mx my : positive) (ex ey : Z) :
  2 ^ 52 <= Z.pos mx < 2 ^ 53 -> 2 ^ 52 <= Z.pos my < 2 ^ 53 ->
  -1021 <= ex - ey <= 1022 ->
  exists mr er k,
    rounded (SF64div (S754_finite false mx ex) (S754_finite false my ey)) mr er /\
    0 <= k <= 1 /\ er = ex - ey - 53 + k /\
    (mr - 1) * 2 ^ k * Z.pos my <= Z.pos mx * 2 ^ 53 <= (mr + 1) * 2 ^ k * Z.pos my.
Proof.
  intros Hx Hy He. unfold SF64div, SFdiv, SFdiv_core_binary. cbn [xorb Zdigits2].
  assert (Hdx : Z.pos (digits2_pos mx) = 53)
    by (apply digits2_pos_unique; change (53 - 1) with 52; exact Hx).
  assert (Hdy : Z.pos (digits2_pos my) = 53)
    by (apply digits2_pos_unique; change (53 - 1) with 52; exact Hy).
  rewrite Hdx, Hdy.
  unfold fexp. change (SpecFloat.emin prec emax) with (-1074). change prec with 53.
  change (IntDef.Z.max ?a ?b) with (Z.max a b).
  change (IntDef.Z.min ?a ?b) with (Z.min a b).
  replace (Z.min (Z.max (53 + ex - (53 + ey) - 53) (-1074)) (ex - ey)) with (ex - ey - 53)
    by lia.
  replace (ex - ey - (ex - ey - 53)) with 53 by lia.
  cbv iota. rewrite Z.shiftl_mul_pow2 by lia.
  change (IntDef.Z.div_eucl ?a ?b) with (Z.div_eucl a b).
  pose proof (Z_div_mod (Z.pos mx * 2 ^ 53) (Z.pos my) ltac:(lia)) as Hdiv.
  destruct (Z.div_eucl (Z.pos mx * 2 ^ 53) (Z.pos my)) as [q r]. destruct Hdiv as [Hq Hr].
  assert (Hqb : 2 ^ 52 <= q < 2 ^ 54).
  { assert (0 < 2 ^ 52) by reflexivity.
    change (2 ^ 53) with (2 * 2 ^ 52) in *. change (2 ^ 54) with (4 * 2 ^ 52).
    split; nia. }
  destruct q as [|q|q]; try (exfalso; change (2 ^ 52) with 4503599627370496 in Hqb; lia).
  pose proof (digits2_pos_bounds q) as [Dlo Dhi].
  set (d := Z.pos (digits2_pos q)) in *.
  assert (Hd : 53 <= d <= 54).
  { split.
    - destruct (Z.le_gt_cases 53 d) as [H|H]; [exact H|exfalso].
      assert (2 ^ d <= 2 ^ 52) by (apply Z.pow_le_mono_r; lia). lia.
    - destruct (Z.le_gt_cases d 54) as [H|H]; [exact H|exfalso].
      assert (2 ^ 54 <= 2 ^ (d - 1)) by (apply Z.pow_le_mono_r; lia). lia. }
  destruct (@faithful_rounded q (ex - ey - 53) (new_location (Z.pos my) r))
    as (mr & Hround & Hmr & _); fold d; try lia.
  fold d in Hround, Hmr.
  exists mr, (ex - ey - 53 + d - 53), (d - 53). split; [exact Hround|].
  split; [lia|]. split; [lia|].
  assert (Hp : 0 < 2 ^ (d - 53)) by (apply Z.pow_pos_nonneg; lia).
  destruct (@truncation_brackets (Z.pos q) _ (2 ^ (d - 53)) mr Hp eq_refl Hmr) as [B1 B2].
  set (P := 2 ^ (d - 53)) in *. split; nia.
Qed.

End RoundingFacts.

(** ** Binary64 arithmetic: the error of a square root, a product and a
    quotient, in real numbers *)

Module ErrorFacts.
Import FloatFacts RoundingFacts.
Import Reals Lra Psatz.
Local Open Scope R_scope.

(** The real number [m * 2 ^ e]. *)
Definition F2R (m e : Z) : R := IZR m * powerRZ 2 e.

(** The real value of a float; [0] for what is not finite. *)
Definition B2R (x : spec_float) : R :=
  match x with
  | S754_finite s m e => F2R (cond_Zopp s (Z.pos m)) e
  | _ => 0
  end.

Lemma pow2_pos (e : Z) : 0 < powerRZ 2 e.
Proof. apply powerRZ_lt. lra. Qed.

Lemma pow2_add (a b : Z) : powerRZ 2 (a + b) = powerRZ 2 a * powerRZ 2 b.
Proof. apply powerRZ_add. lra. Qed.

Lemma IZR_pow2 (k : Z) : (0 <= k)%Z -> IZR (2 ^ k) = powerRZ 2 k.
Proof.
  intros Hk. destruct k as [|p|p]; [reflexivity| |lia].
  cbn [powerRZ]. rewrite pow_IZR, positive_nat_Z. reflexivity.
Qed.

Lemma rounded_value (x : spec_float) (mr er : Z) :
  rounded x mr er ->
  B2R x = F2R mr er /\ powerRZ 2 er * IZR (2 ^ 52) <= F2R mr er /\ 0 < F2R mr er.
Proof.
  intros (mz & ez & -> & Hmz & Hez & Hmr & Hcase).
  pose proof (pow2_pos er) as Hu. unfold B2R, F2R. cbn [cond_Zopp].
  assert (H52 : IZR (2 ^ 52) <= IZR mr) by (apply IZR_le; lia).
  assert (Hpos : 0 < IZR (2 ^ 52)) by (apply IZR_lt; reflexivity).
  split; [|split].
  - destruct Hcase as [[-> ->]|(-> & -> & ->)]; [reflexivity|].
    rewrite pow2_add. change (powerRZ 2 1) with (2 * 1).
    change (2 ^ 53)%Z with (2 ^ 52 * 2)%Z. rewrite mult_IZR. ring.
  - rewrite Rmult_comm. apply Rmult_le_compat_r; lra.
  - apply Rmult_lt_0_compat; lra.
Qed.


Lemma self_quotient_real (S N D Q uN uD uQ b : R) :
  0 < b <= / 16 ->
  0 < N -> 0 < D -> 0 < Q ->
  0 < uN <= N * b -> (2 * N - uN) * (2 * N - uN) <= 4 * S <= (2 * N + uN) * (2 * N + uN) ->
  0 < uD <= D * b -> D - uD <= N * N <= D + uD ->
  0 < uQ <= Q * b -> (Q - uQ) * D <= S <= (Q + uQ) * D ->
  1 - 4 * b <= Q <= 1 + 4 * b.
Proof.
  intros Hb HN HD HQ HuN HS HuD HDN HuQ HQS.
  assert (A1 : N * N * ((2 - b) * (2 - b)) <= 4 * S).
  { apply Rle_trans with ((2 * N - uN) * (2 * N - uN)); [|lra].
    replace (N * N * ((2 - b) * (2 - b))) with ((N * (2 - b)) * (N * (2 - b))) by ring.
    assert (0 <= N * (2 - b)) by (apply Rmult_le_pos; lra).
    assert (N * (2 - b) <= 2 * N - uN) by lra.
    apply Rmult_le_compat; lra. }
  assert (A1' : 4 * S <= N * N * ((2 + b) * (2 + b))).
  { apply Rle_trans with ((2 * N + uN) * (2 * N + uN)); [lra|].
    replace (N * N * ((2 + b) * (2 + b))) with ((N * (2 + b)) * (N * (2 + b))) by ring.
    assert (2 * N + uN <= N * (2 + b)) by lra.
    apply Rmult_le_compat; lra. }
  assert (A2 : D * (1 - b) <= N * N <= D * (1 + b)) by lra.
  assert (A3 : Q * (1 - b) * D <= S).
  { apply Rle_trans with ((Q - uQ) * D); [|lra].
    apply Rmult_le_compat_r; lra. }
  assert (A3' : S <= Q * (1 + b) * D).
  { apply Rle_trans with ((Q + uQ) * D); [lra|].
    apply Rmult_le_compat_r; lra. }
  assert (P1 : 0 <= (2 + b) * (2 + b)) by (apply Rmult_le_pos; lra).
  assert (P2 : 0 <= (2 - b) * (2 - b)) by (apply Rmult_le_pos; lra).
  assert (U : D * (4 * (Q * (1 - b))) <= D * ((1 + b) * ((2 + b) * (2 + b)))).
  { apply Rle_trans with (4 * S); [lra|].
    apply Rle_trans with (N * N * ((2 + b) * (2 + b))); [exact A1'|].
    replace (D * ((1 + b) * ((2 + b) * (2 + b)))) with (D * (1 + b) * ((2 + b) * (2 + b))) by ring.
    apply Rmult_le_compat_r; lra. }
  apply Rmult_le_reg_l in U; [|exact HD].
  assert (L : D * ((1 - b) * ((2 - b) * (2 - b))) <= D * (4 * (Q * (1 + b)))).
  { apply Rle_trans with (4 * S); [|lra].
    apply Rle_trans with (N * N * ((2 - b) * (2 - b))); [|exact A1].
    replace (D * ((1 - b) * ((2 - b) * (2 - b)))) with (D * (1 - b) * ((2 - b) * (2 - b))) by ring.
    apply Rmult_le_compat_r; lra. }
  apply Rmult_le_reg_l in L; [|exact HD].
  split; nra.
Qed.

(** The unit of a rounded value is at most [2 ^ -52] times the value. *)
Lemma rounded_unit (mr er : Z) :
  powerRZ 2 er * IZR (2 ^ 52) <= F2R mr er ->
  0 < powerRZ 2 er <= F2R mr er * / IZR (2 ^ 52).
Proof.
  intros H. pose proof (pow2_pos er) as Hu.
  assert (Hpos : 0 < IZR (2 ^ 52)) by (apply IZR_lt; reflexivity).
  split; [exact Hu|].
  apply Rmult_le_reg_r with (IZR (2 ^ 52)); [exact Hpos|].
  rewrite Rmult_assoc, Rinv_l by lra. lra.
Qed.

(** For a normal [s] well inside the range, [s / (sqrt s * sqrt s)] is a
    normal number within [2 ^ -50] of [1]. *)
Lemma SF_self_quotient (m : positive) (e : Z) :
  (2 ^ 52 <= Z.pos m < 2 ^ 53)%Z -> (-1073 <= e <= 967)%Z ->
  let s := S754_finite false m e in
  let n := SF64sqrt s in
  let d := SF64mul n n in
  exists md ed mq eq_,
    d = S754_finite false md ed /\
    SF64div s d = S754_finite false mq eq_ /\
    (-1074 <= eq_ <= 971)%Z /\
    1 - 4 * / IZR (2 ^ 52) <= F2R (Z.pos mq) eq_ <= 1 + 4 * / IZR (2 ^ 52).
Proof.
  intros Hm He s n d.
  destruct (@SFsqrt_normal m e Hm ltac:(lia)) as (mrN & erN & sigma & HN & Hes & Hsig & HsqZ).
  fold s in HN. fold n in HN.
  pose proof (rounded_value HN) as (VN & UN & PN).
  destruct HN as (mzN & ezN & EN & HmzN & HezN & HmrN & HcaseN).
  assert (HeN : (-1126 <= ezN + ezN <= 917)%Z) by lia.
  destruct (@SFmul_normal mzN mzN ezN ezN HmzN HmzN HeN) as (mrD & erD & kD & HD & HkD & HerD & HmulZ).
  rewrite <- EN in HD. fold d in HD.
  pose proof (rounded_value HD) as (VD & UD & PD).
  destruct HD as (mzD & ezD & ED & HmzD & HezD & HmrD & HcaseD).
  assert (HeD : (-1021 <= e - ezD <= 1022)%Z) by lia.
  destruct (@SFdiv_normal m mzD e ezD Hm HmzD HeD) as (mrQ & erQ & kQ & HQ & HkQ & HerQ & HdivZ).
  fold s in HQ. rewrite <- ED in HQ.
  pose proof (rounded_value HQ) as (VQ & UQ & PQ).
  destruct HQ as (mzQ & ezQ & EQ & HmzQ & HezQ & HmrQ & HcaseQ).
  exists mzD, ezD, mzQ, ezQ. split; [exact ED|]. split; [exact EQ|]. split; [exact HezQ|].
  rewrite EQ in VQ. cbn [B2R cond_Zopp] in VQ. rewrite VQ.
  rewrite EN in VN. cbn [B2R cond_Zopp] in VN.
  rewrite ED in VD. cbn [B2R cond_Zopp] in VD.
  apply (@self_quotient_real (F2R (Z.pos m) e) (F2R mrN erN) (F2R mrD erD) (F2R mrQ erQ)
           (powerRZ 2 erN) (powerRZ 2 erD) (powerRZ 2 erQ) (/ IZR (2 ^ 52))).
  - change (2 ^ 52)%Z with 4503599627370496%Z. lra.
  - exact PN.
  - exact PD.
  - exact PQ.
  - exact (rounded_unit UN).
  - (* the square root *)
    pose proof (pow2_pos erN) as Hu.
    assert (ES : 4 * F2R (Z.pos m) e
                 = IZR (4 * (Z.pos m * 2 ^ sigma)) * (powerRZ 2 erN * powerRZ 2 erN)).
    { unfold F2R. rewrite Hes. replace (2 * erN + sigma)%Z with (erN + erN + sigma)%Z by lia.
      rewrite !pow2_add, !mult_IZR, IZR_pow2 by lia. ring. }
    assert (EL : (2 * F2R mrN erN - powerRZ 2 erN) * (2 * F2R mrN erN - powerRZ 2 erN)
                 = IZR ((2 * mrN - 1) ^ 2) * (powerRZ 2 erN * powerRZ 2 erN)).
    { unfold F2R. rewrite Z.pow_2_r, mult_IZR, minus_IZR, mult_IZR. ring. }
    assert (EU : (2 * F2R mrN erN + powerRZ 2 erN) * (2 * F2R mrN erN + powerRZ 2 erN)
                 = IZR ((2 * mrN + 1) ^ 2) * (powerRZ 2 erN * powerRZ 2 erN)).
    { unfold F2R. rewrite Z.pow_2_r, mult_IZR, plus_IZR, mult_IZR. ring. }
    rewrite ES, EL, EU.
    assert (0 <= powerRZ 2 erN * powerRZ 2 erN) by (apply Rmult_le_pos; lra).
    split; apply Rmult_le_compat_r; try assumption; apply IZR_le; lia.
  - exact (rounded_unit UD).
  - (* the product *)
    pose proof (pow2_pos (ezN + ezN)) as Hu.
    assert (EP : F2R mrN erN * F2R mrN erN
                 = IZR (Z.pos mzN * Z.pos mzN) * powerRZ 2 (ezN + ezN)).
    { rewrite <- VN. unfold F2R. rewrite pow2_add, mult_IZR. ring. }
    assert (EL : F2R mrD erD - powerRZ 2 erD
                 = IZR ((mrD - 1) * 2 ^ kD) * powerRZ 2 (ezN + ezN)).
    { unfold F2R. rewrite HerD, pow2_add, mult_IZR, minus_IZR, IZR_pow2 by lia. ring. }
    assert (EU : F2R mrD erD + powerRZ 2 erD
                 = IZR ((mrD + 1) * 2 ^ kD) * powerRZ 2 (ezN + ezN)).
    { unfold F2R. rewrite HerD, pow2_add, mult_IZR, plus_IZR, IZR_pow2 by lia. ring. }
    rewrite EP, EL, EU.
    split; apply Rmult_le_compat_r; try lra; apply IZR_le; lia.
  - exact (rounded_unit UQ).
  - (* the quotient *)
    pose proof (pow2_pos (e - 53)) as Hu.
    assert (ES : F2R (Z.pos m) e = IZR (Z.pos m * 2 ^ 53) * powerRZ 2 (e - 53)).
    { unfold F2R. replace e with (53 + (e - 53))%Z at 1 by lia.
      rewrite pow2_add, mult_IZR, IZR_pow2 by lia. ring. }
    assert (EL : (F2R mrQ erQ - powerRZ 2 erQ) * F2R mrD erD
                 = IZR ((mrQ - 1) * 2 ^ kQ * Z.pos mzD) * powerRZ 2 (e - 53)).
    { rewrite <- VD. unfold F2R. rewrite HerQ.
      replace (e - ezD - 53 + kQ)%Z with ((e - 53) + kQ + - ezD)%Z by lia.
      rewrite !pow2_add, !mult_IZR, minus_IZR, IZR_pow2 by lia.
      assert (E1 : powerRZ 2 (- ezD) * powerRZ 2 ezD = 1).
      { rewrite <- pow2_add. replace (- ezD + ezD)%Z with 0%Z by lia. reflexivity. }
      transitivity ((IZR mrQ - 1) * IZR (Z.pos mzD) * powerRZ 2 kQ * powerRZ 2 (e - 53)
                    * (powerRZ 2 (- ezD) * powerRZ 2 ezD)); [ring|rewrite E1; ring]. }
    assert (EU : (F2R mrQ erQ + powerRZ 2 erQ) * F2R mrD erD
                 = IZR ((mrQ + 1) * 2 ^ kQ * Z.pos mzD) * powerRZ 2 (e - 53)).
    { rewrite <- VD. unfold F2R. rewrite HerQ.
      replace (e - ezD - 53 + kQ)%Z with ((e - 53) + kQ + - ezD)%Z by lia.
      rewrite !pow2_add, !mult_IZR, plus_IZR, IZR_pow2 by lia.
      assert (E1 : powerRZ 2 (- ezD) * powerRZ 2 ezD = 1).
      { rewrite <- pow2_add. replace (- ezD + ezD)%Z with 0%Z by lia. reflexivity. }
      transitivity ((IZR mrQ + 1) * IZR (Z.pos mzD) * powerRZ 2 kQ * powerRZ 2 (e - 53)
                    * (powerRZ 2 (- ezD) * powerRZ 2 ezD)); [ring|rewrite E1; ring]. }
    rewrite ES, EL, EU.
    split; apply Rmult_le_compat_r; try lra; apply IZR_le; lia.
Qed.


Lemma ord_F2R (m : positive) (e : Z) :
  (-1074 <= e)%Z ->
  IZR (ord (S754_finite false m e)) = F2R (Z.pos m) e * powerRZ 2 1074.
Proof.
  intros He. cbn [ord]. unfold mag, F2R.
  rewrite mult_IZR, IZR_pow2, pow2_add by lia. ring.
Qed.

(** A float between [2 ^ -1021] and [2 ^ 1019] is a positive normal
    number. *)
Lemma normal_range (s : float) :
  (0x1p-1021 <=? s)%float = true -> (s <=? 0x1p+1019)%float = true ->
  exists m e,
    Prim2SF s = S754_finite false m e /\
    (2 ^ 52 <= Z.pos m < 2 ^ 53)%Z /\ (-1073 <= e <= 967)%Z.
Proof.
  intros Hlo Hhi.
  destruct (leb_not_nan Hlo) as [_ Hs].
  apply (leb_ord (a := 0x1p-1021%float) (b := s) eq_refl Hs) in Hlo.
  apply (leb_ord (a := s) (b := 0x1p+1019%float) Hs eq_refl) in Hhi.
  change (Prim2SF 0x1p-1021%float) with (S754_finite false 4503599627370496 (-1073)) in Hlo.
  change (Prim2SF 0x1p+1019%float) with (S754_finite false 4503599627370496 967) in Hhi.
  cbn [ord] in Hlo, Hhi. unfold mag in Hlo, Hhi.
  change (-1073 + 1074)%Z with 1%Z in Hlo. change (967 + 1074)%Z with 2041%Z in Hhi.
  change (4503599627370496 * 2 ^ 1)%Z with (2 ^ 53)%Z in Hlo.
  change 4503599627370496%Z with (2 ^ 52)%Z in Hhi.
  pose proof (Prim2SF_valid s) as V.
  assert (Ht : (2 ^ 52 * 2 ^ 2041 < top)%Z).
  { unfold top. rewrite <- Z.pow_add_r by lia. apply Z.pow_lt_mono_r; lia. }
  assert (H53 : (0 < 2 ^ 53)%Z) by reflexivity.
  destruct (Prim2SF s) as [sg|sg| |sg m e]; cbn [ord] in Hlo, Hhi.
  - lia.
  - destruct sg; [unfold top in *|]; lia.
  - lia.
  - pose proof (valid_finite_bounds V) as (He & Hm & Hnorm). unfold emin64 in *.
    change 9007199254740992%Z with (2 ^ 53)%Z in Hm.
    change 4503599627370496%Z with (2 ^ 52)%Z in Hnorm.
    pose proof (mag_bounds V) as Hmag.
    destruct sg; [lia|]. unfold mag in *.
    assert (He1 : (-1074 < e)%Z).
    { destruct (Z.eq_dec e (-1074)) as [->|Hne]; [|lia].
      change (-1074 + 1074)%Z with 0%Z in Hlo. change (2 ^ 0)%Z with 1%Z in Hlo. lia. }
    specialize (Hnorm He1).
    exists m, e. split; [reflexivity|]. split; [lia|]. split; [lia|].
    destruct (Z.le_gt_cases e 967) as [H|H]; [exact H|exfalso].
    assert (2 ^ 2042 <= 2 ^ (e + 1074))%Z by (apply Z.pow_le_mono_r; lia).
    assert (2 ^ 52 * 2 ^ 2042 <= Z.pos m * 2 ^ (e + 1074))%Z
      by (apply Z.mul_le_mono_nonneg; lia).
    assert (2 ^ 2041 < 2 ^ 2042)%Z by (apply Z.pow_lt_mono_r; lia).
    assert (0 < 2 ^ 52)%Z by reflexivity.
    nia.
Qed.

(** For a double [s] between [2 ^ -1021] and [2 ^ 1019], the product
    [sqrt s * sqrt s] is not zero and [s / (sqrt s * sqrt s)] lies
    between [1 - 2 ^ -50] and [1 + 2 ^ -50]. *)
Lemma self_quotient_near_one (s : float) :
  (0x1p-1021 <=? s)%float = true -> (s <=? 0x1p+1019)%float = true ->
  (PrimFloat.sqrt s * PrimFloat.sqrt s =? 0)%float = false /\
  (0x1.ffffffffffff8p-1 <=? s / (PrimFloat.sqrt s * PrimFloat.sqrt s))%float = true /\
  (s / (PrimFloat.sqrt s * PrimFloat.sqrt s) <=? 0x1.0000000000004p+0)%float = true.
Proof.
  intros Hlo Hhi.
  destruct (normal_range Hlo Hhi) as (m & e & Es & Hm & He).
  destruct (@SF_self_quotient m e Hm He) as (md & ed & mq & eq_ & Ed & Eq_ & Heq & Hq).
  assert (Pd : Prim2SF (PrimFloat.sqrt s * PrimFloat.sqrt s) = S754_finite false md ed).
  { rewrite mul_spec, sqrt_spec, Es. exact Ed. }
  assert (Pq : Prim2SF (s / (PrimFloat.sqrt s * PrimFloat.sqrt s)) = S754_finite false mq eq_).
  { rewrite div_spec, Pd, Es. rewrite <- Ed. exact Eq_. }
  split; [rewrite eqb_spec, Pd; reflexivity|].
  assert (Nq : is_nan (s / (PrimFloat.sqrt s * PrimFloat.sqrt s)) = false).
  { apply not_nan_spec. unfold not_nan. rewrite Pq. discriminate. }
  pose proof (ord_F2R mq (proj1 Heq)) as Hord.
  pose proof (pow2_pos 1021) as HP.
  assert (E1074 : powerRZ 2 1074 = IZR (2 ^ 53) * powerRZ 2 1021).
  { replace 1074%Z with (53 + 1021)%Z by lia. rewrite pow2_add, IZR_pow2 by lia. reflexivity. }
  change (2 ^ 52)%Z with 4503599627370496%Z in Hq.
  change (2 ^ 53)%Z with 9007199254740992%Z in E1074.
  split.
  - apply (leb_ord (a := 0x1.ffffffffffff8p-1%float) eq_refl Nq). rewrite Pq.
    change (Prim2SF 0x1.ffffffffffff8p-1%float)
      with (S754_finite false 9007199254740984 (-53)).
    apply le_IZR. rewrite Hord, ord_F2R by lia. unfold F2R at 1.
    rewrite E1074.
    assert (E53 : powerRZ 2 (-53) * IZR (2 ^ 53) = 1).
    { rewrite IZR_pow2, <- pow2_add by lia. reflexivity. }
    change (2 ^ 53)%Z with 9007199254740992%Z in *.
    transitivity (9007199254740984 * (powerRZ 2 (-53) * 9007199254740992) * powerRZ 2 1021);
      [right; ring|].
    rewrite E53.
    transitivity ((1 - 4 * / 4503599627370496) * (9007199254740992 * powerRZ 2 1021)).
    + right. field.
    + apply Rmult_le_compat_r; [|lra].
      apply Rmult_le_pos; lra.
  - apply (leb_ord (b := 0x1.0000000000004p+0%float) Nq eq_refl). rewrite Pq.
    change (Prim2SF 0x1.0000000000004p+0%float)
      with (S754_finite false 4503599627370500 (-52)).
    apply le_IZR. rewrite Hord, ord_F2R by lia. unfold F2R at 2.
    assert (E52 : powerRZ 2 (-52) * IZR (2 ^ 52) = 1).
    { rewrite IZR_pow2, <- pow2_add by lia. reflexivity. }
    change (2 ^ 52)%Z with 4503599627370496%Z in *.
    rewrite E1074.
    transitivity ((1 + 4 * / 4503599627370496) * (9007199254740992 * powerRZ 2 1021)).
    + apply Rmult_le_compat_r; [|lra].
      apply Rmult_le_pos; lra.
    + right.
      transitivity (4503599627370500 * (powerRZ 2 (-52) * 4503599627370496) * 2
                    * powerRZ 2 1021); [rewrite E52; field|ring].
Qed.

End ErrorFacts.

(** ** Cosine similarity on doubles *)

Module CosineFacts.
Import Js Types memoryService FloatFacts.
Local Open Scope float_scope.

(** The three accumulators of the loop, each on its own. *)
Fixpoint dotFrom (a b : list float) (acc : float) : float :=
  match a, b with
  | x :: a', y :: b' => dotFrom a' b' (acc + x * y)
  | _, _ => acc
  end.

Fixpoint sumsqFrom (v : list float) (acc : float) : float :=
  match v with
  | x :: v' => sumsqFrom v' (acc + x * x)
  | [] => acc
  end.

(** The squared norm and the norm of a vector as the code computes them. *)
Definition sumsq (v : list float) : float := sumsqFrom v 0.
Definition norm (v : list float) : float := sqrt (sumsq v).

(** Every component is [0] or [-0]. *)
Definition allZero (v : list float) : bool := forallb (fun x => x =? 0) v.

(** Some component is neither [0] nor [-0]. *)
Definition nonZero (v : list float) : bool := existsb (fun x => negb (x =? 0)) v.

Lemma accumulate_split (a b : list float) :
  List.length a = List.length b ->
  forall d ma mb,
    accumulate a b d ma mb = (dotFrom a b d, sumsqFrom a ma, sumsqFrom b mb).
Proof.
  revert b. induction a as [|x a IH]; intros [|y b] H d ma mb;
    try discriminate H; simpl; [reflexivity|].
  apply IH. now injection H.
Qed.

Lemma dotFrom_comm (a b : list float) (d : float) : dotFrom a b d = dotFrom b a d.
Proof.
  revert b d. induction a as [|x a IH]; intros [|y b] d; simpl; try reflexivity.
  rewrite (mul_comm x y). apply IH.
Qed.

Lemma dotFrom_self (a : list float) (d : float) : dotFrom a a d = sumsqFrom a d.
Proof. revert d. induction a as [|x a IH]; intros d; simpl; auto. Qed.

Lemma cosineSimilarity_eq (a b : list float) :
  List.length a = List.length b ->
  cosineSimilarity a b
  = if norm a * norm b =? 0 then 0 else dotFrom a b 0 / (norm a * norm b).
Proof.
  intros H. unfold cosineSimilarity.
  rewrite (proj2 (Nat.eqb_eq _ _) H). simpl negb. cbv iota.
  now rewrite (accumulate_split H).
Qed.

Lemma cosineSimilarity_mismatch (a b : list float) :
  List.length a <> List.length b -> cosineSimilarity a b = 0.
Proof.
  intros H. unfold cosineSimilarity.
  now rewrite (proj2 (Nat.eqb_neq _ _) H).
Qed.

Lemma cosineSimilarity_sym (a b : list float) :
  cosineSimilarity a b = cosineSimilarity b a.
Proof.
  destruct (Nat.eq_dec (List.length a) (List.length b)) as [H|H].
  - rewrite (cosineSimilarity_eq H), (cosineSimilarity_eq (eq_sym H)).
    now rewrite (mul_comm (norm a) (norm b)), (dotFrom_comm a b).
  - rewrite (cosineSimilarity_mismatch H). symmetry.
    apply cosineSimilarity_mismatch. congruence.
Qed.

Lemma sumsq_allZero (v : list float) : allZero v = true -> sumsq v = 0.
Proof.
  unfold allZero, sumsq. induction v as [|x v IH]; simpl; [reflexivity|].
  intros H. apply andb_prop in H. destruct H as [Hx Hv].
  destruct (eqb_zero_inv Hx) as [-> | ->]; now apply IH.
Qed.

Lemma cosineSimilarity_zero_left (a b : list float) :
  List.length a = List.length b ->
  allZero a = true -> is_finite (norm b) = true -> cosineSimilarity a b = 0.
Proof.
  intros H Ha Hb. rewrite (cosineSimilarity_eq H).
  unfold norm at 1 3. rewrite (sumsq_allZero Ha).
  change (sqrt 0) with 0. now rewrite (mul_zero_finite Hb).
Qed.

(** C6, as stated, fails on doubles.  The similarity of the non-zero
    vector [[1, 1]] with itself is [0.9999999999999998], because
    [sqrt(2) * sqrt(2)] rounds to [2.0000000000000004]; and against a
    vector whose squared norm overflows, the all-zero vector [[0]] yields
    [NaN], not [0]. *)
Lemma cosineSimilarity_not_exact :
  (nonZero [1; 1] = true /\ cosineSimilarity [1; 1] [1; 1] <> 1) /\
  (allZero [0] = true /\ cosineSimilarity [0] [0x1p+600] <> 0).
Proof.
  split; (split; [reflexivity|]).
  - intros H. apply (f_equal (fun v => v =? 1)) in H. vm_compute in H. discriminate H.
  - intros H. apply (f_equal is_nan) in H. vm_compute in H. discriminate H.
Qed.

Example cosineSimilarity_ones :
  cosineSimilarity [1; 1] [1; 1] = 0x1.ffffffffffffep-1 /\
  sqrt 2 * sqrt 2 = 0x1.0000000000001p+1.
Proof. split; vm_compute; reflexivity. Qed.

(** Outside the range of the amended claim the similarity of a non-zero
    vector with itself need not be near [1]: its squared norm may
    underflow to zero, which gives [0], or overflow, which gives [NaN]. *)
Example cosineSimilarity_out_of_range :
  (nonZero [0x1p-600] = true /\ cosineSimilarity [0x1p-600] [0x1p-600] = 0) /\
  (nonZero [0x1p+600] = true /\
   is_nan (cosineSimilarity [0x1p+600] [0x1p+600]) = true).
Proof. repeat split. Qed.

(** The similarity of a vector with itself, when the computed squared
    norm is a normal number well inside the range of the doubles. *)
Lemma cosineSimilarity_self (a : list float) :
  (0x1p-1021 <=? sumsq a) = true -> (sumsq a <=? 0x1p+1019) = true ->
  (1 - 0x1p-50 <=? cosineSimilarity a a) = true /\
  (cosineSimilarity a a <=? 1 + 0x1p-50) = true.
Proof.
  intros Hlo Hhi.
  rewrite (cosineSimilarity_eq (eq_refl (List.length a))), dotFrom_self.
  fold (sumsq a). unfold norm.
  destruct (ErrorFacts.self_quotient_near_one Hlo Hhi) as (Hz & H1 & H2).
  rewrite Hz. split; [exact H1|exact H2].
Qed.

(** C6, amended.  The two orders of the arguments give the same double
    (the same [NaN] included); vectors of different lengths have
    similarity [0]; so has an all-zero vector against any vector whose
    computed norm is finite.  The similarity of a vector with itself is
    within [2 ^ -50] of [1], the error of the square root, the product
    and the quotient, whenever the computed squared norm of the vector
    lies between [2 ^ -1021] and [2 ^ 1019]. *)
Theorem cosineSimilarity_laws :
  (forall a b, cosineSimilarity a b = cosineSimilarity b a) /\
  (forall a b, List.length a <> List.length b -> cosineSimilarity a b = 0) /\
  (forall a b,
      (allZero a = true /\ is_finite (norm b) = true) \/
      (allZero b = true /\ is_finite (norm a) = true) ->
      cosineSimilarity a b = 0) /\
  (forall a,
      (0x1p-1021 <=? sumsq a) = true -> (sumsq a <=? 0x1p+1019) = true ->
      (1 - 0x1p-50 <=? cosineSimilarity a a) = true /\
      (cosineSimilarity a a <=? 1 + 0x1p-50) = true).
Proof.
  split; [exact cosineSimilarity_sym|].
  split; [exact cosineSimilarity_mismatch|].
  split.
  - intros a b Hz.
    destruct (Nat.eq_dec (List.length a) (List.length b)) as [H|H];
      [|now apply cosineSimilarity_mismatch].
    destruct Hz as [[Ha Hb]|[Hb Ha]].
    + now apply cosineSimilarity_zero_left.
    + rewrite cosineSimilarity_sym. now apply cosineSimilarity_zero_left.
  - exact cosineSimilarity_self.
Qed.

Lemma cosineSimilarity_laws_witness :
  (allZero [0; -0] = true /\ is_finite (norm [1; 2]) = true /\
   cosineSimilarity [0; -0] [1; 2] = 0) /\
  ((0x1p-1021 <=? sumsq [1; 1]) = true /\ (sumsq [1; 1] <=? 0x1p+1019) = true /\
   (1 - 0x1p-50 <=? cosineSimilarity [1; 1] [1; 1]) = true /\
   (cosineSimilarity [1; 1] [1; 1] <=? 1 + 0x1p-50) = true).
Proof.
  destruct cosineSimilarity_laws as (_ & _ & Hzero & Hself).
  split.
  - split; [reflexivity|]. split; [reflexivity|].
    apply Hzero. left. split; reflexivity.
  - split; [reflexivity|]. split; [reflexivity|].
    apply Hself; reflexivity.
Defined.

End CosineFacts.

(** ** Similarity search *)

Module SearchFacts.
Import Js Types Embedding memoryService JsFacts FloatFacts.
Local Open Scope string_scope.
Local Open Scope list_scope.
Local Open Scope float_scope.

(** [a] may stand before [b]: it is at least as relevant. *)
Definition atLeastAsRelevant (a b : MemoryNode) : Prop :=
  (relevance b <=? relevance a) = true.

Definition comparable (m : MemoryNode) : Prop := is_nan (relevance m) = false.

Lemma sort_lessRelevant_sorted (l : list MemoryNode) :
  Forall comparable l -> StronglySorted atLeastAsRelevant (sort lessRelevant l).
Proof.
  apply sort_sorted; unfold comparable, atLeastAsRelevant, lessRelevant.
  - intros x y Hx Hy H. apply leb_ord; auto.
    destruct (Z_lt_le_dec (ord (Prim2SF (relevance x))) (ord (Prim2SF (relevance y))))
      as [Hlt|Hle]; [|exact Hle].
    apply (sub_positive Hx Hy) in Hlt. congruence.
  - intros x y Hx Hy H. apply leb_ord; auto.
    apply (sub_positive Hx Hy) in H. lia.
  - intros x y z Hx Hy Hz Hxy Hyz.
    apply leb_ord; auto. apply leb_ord in Hxy, Hyz; auto. lia.
Qed.

(** The nodes of the store, each with its similarity to the query. *)
Definition scoredAgainst (queryEmbedding : list float) (s : Store) : list MemoryNode :=
  map (fun mem => with_relevance mem (cosineSimilarity queryEmbedding (embedding mem)))
      (memories s).

(** C7. When the query is embedded, [search] returns the first [limit]
    entries of a list that holds exactly the stored nodes, scored against
    the query, whose similarity is at least [minSimilarity], and that is
    in descending order of similarity.  On an empty store it returns the
    empty list. *)
Theorem search_ranked :
  (forall (p : Provider) (query : string) (limit : Z) (minSimilarity : float)
          (s : Store) (queryEmbedding : list float),
      getEmbedding p query = Return (Some queryEmbedding) ->
      (0 <= limit)%Z ->
      exists ranked,
        search p query limit minSimilarity s = firstn (Z.to_nat limit) ranked /\
        Permutation ranked
          (filter (fun mem => minSimilarity <=? relevance mem)
                  (scoredAgainst queryEmbedding s)) /\
        StronglySorted atLeastAsRelevant ranked) /\
  (forall p query limit minSimilarity s,
      memories s = [] -> search p query limit minSimilarity s = []).
Proof.
  split.
  - intros p query limit minSimilarity s queryEmbedding Hq Hl.
    set (kept := filter (fun mem => minSimilarity <=? relevance mem)
                        (scoredAgainst queryEmbedding s)).
    exists (sort lessRelevant kept). split; [|split].
    + unfold search. rewrite Hq.
      destruct (memories s) as [|m ms] eqn:E.
      * simpl. unfold kept, scoredAgainst. rewrite E. simpl.
        now destruct (Z.to_nat limit).
      * change (List.length (m :: ms) =? 0)%nat with false. cbv iota.
        rewrite slice0_nonneg by assumption. unfold kept, scoredAgainst.
        now rewrite E.
    + apply sort_perm.
    + apply sort_lessRelevant_sorted. apply Forall_forall.
      intros mem Hm. apply filter_In in Hm. destruct Hm as [_ Hm].
      now apply leb_not_nan in Hm.
  - intros p query limit minSimilarity s E. unfold search. now rewrite E.
Qed.

(** Three stored facts and a query that points along the first axis. *)
Definition fact (i : string) (c : string) (e : list float) (t : Z) : MemoryNode :=
  {| id := i; content := c; embedding := e; timestamp := t; type := user_fact;
     relevance := 0; tags := []; isPinned := Some false |}.

Definition themeStore : Store :=
  {| memories :=
       [ fact "mem-3" "User lives in Lisbon" [0; 1] 3;
         fact "mem-2" "User likes dim screens" [1; 1] 2;
         fact "mem-1" "User prefers dark mode" [1; 0] 1 ];
     stored := None |}.

Definition axisProvider : Provider :=
  {| universalKey := Some "key";
     embedContent := fun _ =>
       Return {| embedding_values := Some (Some [1; 0]) |} |}.

Example search_theme :
  map (fun m => (id m, relevance m)) (search axisProvider "theme preference" 5 0.5 themeStore)
  = [ ("mem-1", 1); ("mem-2", 0x1.6a09e667f3bccp-1) ].
Proof. vm_compute. reflexivity. Qed.

(** A fact added to the empty store is found again by a query whose
    embedding lies close enough; the empty store yields nothing. *)
Example add_then_search :
  let emptyStore := {| memories := []; stored := None |} in
  let s1 := snd (addMemory MemoryFacts.browser axisProvider MemoryFacts.noon
                           "User prefers dark mode" user_fact [] emptyStore) in
  map content (search axisProvider "theme preference" defaultLimit defaultMinSimilarity s1)
  = ["User prefers dark mode"%string] /\
  search axisProvider "theme preference" defaultLimit defaultMinSimilarity emptyStore = [].
Proof. vm_compute. split; reflexivity. Qed.

Lemma search_ranked_witness :
  getEmbedding axisProvider "theme preference" = Return (Some [1; 0]) /\
  (0 <= 5)%Z /\
  exists ranked,
    search axisProvider "theme preference" 5 0.5 themeStore = firstn (Z.to_nat 5) ranked /\
    Permutation ranked
      (filter (fun mem => 0.5 <=? relevance mem) (scoredAgainst [1; 0] themeStore)) /\
    StronglySorted atLeastAsRelevant ranked.
Proof.
  split; [reflexivity|]. split; [lia|].
  apply (proj1 search_ranked axisProvider "theme preference"%string 5%Z 0.5 themeStore
               [1; 0] eq_refl).
  lia.
Defined.

End SearchFacts.

(** ** The memory store: capacity, persistence, pins, deletion, recency *)

Module StoreFacts.
Import Js Types Embedding memoryService JsFacts MemoryFacts.
Local Open Scope string_scope.
Local Open Scope list_scope.

Lemma filter_split_length {A : Type} (f : A -> bool) (l : list A) :
  (List.length (filter f l) + List.length (filter (fun x => negb (f x)) l)
   = List.length l)%nat.
Proof.
  induction l as [|x l IH]; simpl; [reflexivity|].
  destruct (f x); simpl; lia.
Qed.

Lemma filter_filter_same {A : Type} (f : A -> bool) (l : list A) :
  filter f (filter f l) = filter f l.
Proof.
  apply filter_all. intros x Hx. now apply filter_In in Hx.
Qed.

Lemma evict_In (mems : list MemoryNode) (m : MemoryNode) :
  In m (evict mems) -> In m mems.
Proof.
  unfold evict. intros H. apply sort_In_inv in H. apply in_app_or in H.
  destruct H as [H|H].
  - now apply filter_In in H.
  - rewrite slice0_nonneg in H by lia.
    apply In_firstn_inv, sort_In_inv in H. now apply filter_In in H.
Qed.

Lemma evict_pinned (mems : list MemoryNode) :
  Permutation (filter pinned (evict mems)) (filter pinned mems).
Proof.
  unfold evict. rewrite (filter_perm pinned (sort_perm older _)), filter_app.
  rewrite filter_filter_same, (@filter_none _ pinned (slice0 _ _)).
  - now rewrite app_nil_r.
  - intros x Hx. rewrite slice0_nonneg in Hx by lia.
    apply In_firstn_inv, sort_In_inv, filter_In in Hx.
    destruct Hx as [_ Hx]. rewrite pinned_unpinned in Hx.
    now destruct (pinned x).
Qed.

Lemma evict_length (mems : list MemoryNode) :
  List.length (evict mems)
  = (List.length (filter pinned mems)
     + Nat.min (MAX_MEMORIES - List.length (filter pinned mems))
               (List.length (filter unpinned mems)))%nat.
Proof.
  unfold evict. rewrite sort_length, length_app, slice0_nonneg by lia.
  rewrite length_firstn, sort_length. unfold MAX_MEMORIES. lia.
Qed.

Lemma saveMemories_memories (b : Browser) (s : Store) :
  memories (saveMemories b s)
  = if hasWindow b && (MAX_MEMORIES <? List.length (memories s))%nat
    then evict (memories s) else memories s.
Proof.
  unfold saveMemories. destruct (hasWindow b); simpl; [|reflexivity].
  now destruct (_ <? _)%nat.
Qed.

Lemma saveMemories_small (b : Browser) (s : Store) :
  (List.length (memories s) <= MAX_MEMORIES)%nat ->
  memories (saveMemories b s) = memories s.
Proof.
  intros H. rewrite saveMemories_memories.
  replace (_ <? _)%nat with false by (symmetry; apply Nat.ltb_ge; lia).
  now rewrite andb_false_r.
Qed.

(** X1. In a browser, the collection that [saveMemories] leaves holds at
    most 200 nodes, unless more than 200 nodes are pinned, in which case
    it holds exactly the pinned ones; it never grows. *)
Theorem saveMemories_capacity (b : Browser) (s : Store) :
  hasWindow b = true ->
  let n := List.length (memories (saveMemories b s)) in
  let p := List.length (filter pinned (memories s)) in
  (p <= MAX_MEMORIES -> n <= MAX_MEMORIES)%nat /\
  (MAX_MEMORIES < p -> n = p)%nat /\
  (n <= List.length (memories s))%nat.
Proof.
  intros Hw n p. unfold n. rewrite saveMemories_memories, Hw. simpl.
  pose proof (filter_split_length pinned (memories s)) as Hsplit.
  fold unpinned in Hsplit.
  change (fun x => negb (pinned x)) with unpinned in Hsplit. fold p in Hsplit.
  destruct (_ <? _)%nat eqn:E.
  - rewrite evict_length. fold p. unfold MAX_MEMORIES in *. lia.
  - apply Nat.ltb_ge in E. unfold MAX_MEMORIES in *. lia.
Qed.

Lemma saveMemories_capacity_witness :
  hasWindow browser = true /\
  (List.length (memories (saveMemories browser fullStore)) <= List.length (memories fullStore))%nat.
Proof.
  split; [reflexivity|].
  apply (saveMemories_capacity (b := browser) fullStore). reflexivity.
Defined.

(** X2. [saveMemories] invents nothing and never drops a pinned node:
    every node it leaves was in the collection, and the pinned nodes are
    the same before and after, with their multiplicities.  When the size
    check fires, the collection is left ordered newest first. *)
Theorem saveMemories_only_drops_unpinned (b : Browser) (s : Store) :
  (forall m, In m (memories (saveMemories b s)) -> In m (memories s)) /\
  Permutation (getPinned (saveMemories b s)) (getPinned s) /\
  (hasWindow b = true -> (MAX_MEMORIES < List.length (memories s))%nat ->
   StronglySorted newerOrSame (memories (saveMemories b s))).
Proof.
  unfold getPinned. rewrite saveMemories_memories.
  destruct (hasWindow b && (MAX_MEMORIES <? List.length (memories s))%nat) eqn:E.
  - split; [apply evict_In|]. split; [apply evict_pinned|].
    intros _ _. unfold evict. apply sort_older_sorted.
  - split; [auto|]. split; [reflexivity|].
    intros Hw Hlen. apply Nat.ltb_lt in Hlen. rewrite Hw, Hlen in E. discriminate.
Qed.

(** X3. Every mutation writes through: in a browser whose storage accepts
    the write, the stored item equals the collection after a successful
    [addMemory], after [togglePin] on an id that is present, and after
    [deleteMemory].  When the storage refuses every write, [addMemory]
    still hands out the new node, and the stored item stays as it was. *)
Theorem mutations_write_through (b : Browser) (p : Provider) (c : Clock)
    (content_ : string) (type_ : MemoryType) (tags_ : list string)
    (id_ : string) (s : Store) :
  hasWindow b = true ->
  ((forall l, setItemOk b l = true) ->
   (forall node s', addMemory b p c content_ type_ tags_ s = (Some node, s') ->
                    stored s' = Some (memories s')) /\
   (forall mems, flipFirst id_ (memories s) = Some mems ->
                 stored (togglePin b id_ s) = Some (memories (togglePin b id_ s))) /\
   stored (deleteMemory b id_ s) = Some (memories (deleteMemory b id_ s))) /\
  ((forall l, setItemOk b l = false) ->
   forall e, getEmbedding p content_ = Return (Some e) ->
     exists node s', addMemory b p c content_ type_ tags_ s = (Some node, s') /\
                     stored s' = stored s).
Proof.
  intros Hw. split.
  - intros Hok.
    assert (Hsave : forall s0, stored (saveMemories b s0) = Some (memories (saveMemories b s0))).
    { intros s0. unfold saveMemories. rewrite Hw. simpl. now rewrite Hok. }
    split; [|split].
    + intros node s'. unfold addMemory.
      destruct (getEmbedding p content_) as [e|[e|]]; try discriminate.
      intros [= _ <-]. apply Hsave.
    + intros mems Hflip. unfold togglePin. rewrite Hflip. apply Hsave.
    + apply Hsave.
  - intros Hno e He. unfold addMemory. rewrite He.
    do 2 eexists. split; [reflexivity|].
    unfold saveMemories. rewrite Hw. simpl. now rewrite Hno.
Qed.

Definition unitProvider : Provider :=
  {| universalKey := Some "key";
     embedContent := fun _ => Return {| embedding_values := Some (Some [1%float; 0%float]) |} |}.

Lemma mutations_write_through_witness :
  hasWindow browser = true /\
  (forall l, setItemOk browser l = true) /\
  stored (deleteMemory browser "mem-1" pinnedStore)
  = Some (memories (deleteMemory browser "mem-1" pinnedStore)).
Proof.
  split; [reflexivity|]. split; [reflexivity|].
  apply (proj1 (mutations_write_through unitProvider noon "note" interaction []
                  "mem-1" pinnedStore (eq_refl : hasWindow browser = true))).
  reflexivity.
Defined.

(** X4. Below capacity a successful [addMemory] puts the new node at the
    head of the collection and keeps every other node in place; the node
    carries the content, the embedding the provider returned and the
    time of the call, and it is not pinned. *)
Theorem addMemory_prepends (b : Browser) (p : Provider) (c : Clock)
    (content_ : string) (type_ : MemoryType) (tags_ : list string)
    (e : list float) (s : Store) :
  getEmbedding p content_ = Return (Some e) ->
  (List.length (memories s) < MAX_MEMORIES)%nat ->
  exists node,
    fst (addMemory b p c content_ type_ tags_ s) = Some node /\
    memories (snd (addMemory b p c content_ type_ tags_ s)) = node :: memories s /\
    content node = content_ /\ embedding node = e /\
    timestamp node = now_stamp c /\ type node = type_ /\ tags node = tags_ /\
    isPinned node = Some false /\
    getPinned (snd (addMemory b p c content_ type_ tags_ s)) = getPinned s.
Proof.
  intros He Hlen. unfold addMemory. rewrite He. eexists. split; [reflexivity|].
  cbn [snd]. unfold getPinned. rewrite saveMemories_small by (simpl; lia).
  simpl. repeat split.
Qed.

Lemma addMemory_prepends_witness :
  getEmbedding unitProvider "User prefers dark mode" = Return (Some [1%float; 0%float]) /\
  (List.length (memories pinnedStore) < MAX_MEMORIES)%nat /\
  exists node,
    fst (addMemory browser unitProvider noon "User prefers dark mode" user_fact [] pinnedStore)
    = Some node /\
    memories (snd (addMemory browser unitProvider noon "User prefers dark mode" user_fact []
                             pinnedStore))
    = node :: memories pinnedStore.
Proof.
  split; [reflexivity|].
  assert (H : (List.length (memories pinnedStore) < MAX_MEMORIES)%nat)
    by (unfold MAX_MEMORIES; simpl; lia).
  split; [exact H|].
  destruct (@addMemory_prepends browser unitProvider noon "User prefers dark mode"
              user_fact [] [1%float; 0%float] pinnedStore eq_refl H)
    as (node & H1 & H2 & _).
  exists node. split; assumption.
Defined.

Lemma all_pinned_when_full (mems : list MemoryNode) :
  (MAX_MEMORIES <= List.length (filter pinned mems))%nat ->
  Permutation (evict mems) (filter pinned mems).
Proof.
  intros H. unfold evict. rewrite sort_perm.
  replace (Z.max 0 _) with 0%Z by (unfold MAX_MEMORIES in *; lia).
  unfold slice0. simpl. now rewrite app_nil_r.
Qed.

(** X5. Pins take precedence over new nodes: in a browser, once 200 or
    more nodes are pinned, [addMemory] still returns the node it built,
    but that node is not in the collection afterwards, which then holds
    the pinned nodes and nothing else. *)
Theorem addMemory_dropped_when_pins_fill (b : Browser) (p : Provider) (c : Clock)
    (content_ : string) (type_ : MemoryType) (tags_ : list string)
    (e : list float) (s : Store) :
  hasWindow b = true ->
  getEmbedding p content_ = Return (Some e) ->
  (MAX_MEMORIES <= List.length (getPinned s))%nat ->
  exists node,
    fst (addMemory b p c content_ type_ tags_ s) = Some node /\
    ~ In node (memories (snd (addMemory b p c content_ type_ tags_ s))) /\
    Permutation (memories (snd (addMemory b p c content_ type_ tags_ s))) (getPinned s).
Proof.
  intros Hw He Hfull. unfold addMemory. rewrite He. eexists. split; [reflexivity|].
  cbn [snd]. rewrite saveMemories_memories, Hw. cbn [memories unshift andb].
  unfold getPinned in *.
  pose proof (filter_split_length pinned (memories s)) as Hsplit.
  replace (_ <? _)%nat with true
    by (symmetry; apply Nat.ltb_lt; simpl; unfold MAX_MEMORIES in *; lia).
  set (node := {| id := _ |}).
  assert (Hperm : Permutation (evict (node :: memories s)) (filter pinned (memories s))).
  { apply (@all_pinned_when_full (node :: memories s)). exact Hfull. }
  split; [|exact Hperm].
  intros Hin. apply (Permutation_in _ Hperm), filter_In in Hin.
  destruct Hin as [_ Hin]. discriminate.
Qed.

Definition pinnedNode (i : nat) : MemoryNode :=
  {| id := ("pin-" ++ showNat i)%string; content := "fact"; embedding := [];
     timestamp := Z.of_nat i; type := user_fact; relevance := 0;
     tags := []; isPinned := Some true |}.

Definition pinnedFull : Store :=
  {| memories := map pinnedNode (seq 0 200); stored := None |}.

Lemma addMemory_dropped_when_pins_fill_witness :
  hasWindow browser = true /\
  getEmbedding unitProvider "one more" = Return (Some [1%float; 0%float]) /\
  (MAX_MEMORIES <= List.length (getPinned pinnedFull))%nat /\
  exists node,
    fst (addMemory browser unitProvider noon "one more" interaction [] pinnedFull) = Some node /\
    ~ In node (memories (snd (addMemory browser unitProvider noon "one more" interaction []
                                        pinnedFull))).
Proof.
  split; [reflexivity|]. split; [reflexivity|].
  assert (H : (MAX_MEMORIES <= List.length (getPinned pinnedFull))%nat)
    by (apply Nat.leb_le; vm_compute; reflexivity).
  split; [exact H|].
  destruct (@addMemory_dropped_when_pins_fill browser unitProvider noon "one more"
              interaction [] [1%float; 0%float] pinnedFull eq_refl eq_refl H)
    as (node & H1 & H2 & _).
  exists node. split; assumption.
Defined.

(** *** [togglePin] *)

Definition flipped (m : MemoryNode) : MemoryNode :=
  with_isPinned m (Some (negb (truthy (isPinned m)))).

(** Everything about a node but the way its pin is written down. *)
Definition unpin (m : MemoryNode) : MemoryNode := with_isPinned m None.

Lemma flipFirst_none (id_ : string) (mems : list MemoryNode) :
  flipFirst id_ mems = None <-> (forall m, In m mems -> id m <> id_).
Proof.
  induction mems as [|m mems IH]; simpl.
  - split; [intros _ m []|reflexivity].
  - destruct (String.eqb (id m) id_) eqn:E.
    + split; [discriminate|]. intros H. apply String.eqb_eq in E.
      exfalso. apply (H m); auto.
    + apply String.eqb_neq in E.
      destruct (flipFirst id_ mems); simpl.
      * split; [discriminate|]. intros H. exfalso.
        assert (H' : Some l = None); [|discriminate H'].
        apply IH. intros m' Hm'. apply H. now right.
      * split; [|reflexivity]. intros _ m' [<-|Hm']; [assumption|].
        now apply IH.
Qed.

Lemma flipFirst_some (id_ : string) (mems mems' : list MemoryNode) :
  flipFirst id_ mems = Some mems' ->
  exists before m rest,
    mems = before ++ m :: rest /\
    (forall x, In x before -> id x <> id_) /\
    id m = id_ /\
    mems' = before ++ flipped m :: rest.
Proof.
  revert mems'. induction mems as [|m mems IH]; simpl; intros mems'; [discriminate|].
  destruct (String.eqb (id m) id_) eqn:E.
  - intros [= <-]. apply String.eqb_eq in E.
    exists [], m, mems. repeat split; auto.
  - apply String.eqb_neq in E.
    destruct (flipFirst id_ mems) as [l|]; simpl; [|discriminate].
    intros [= <-].
    destruct (IH l eq_refl) as (before & m0 & rest & -> & Hb & Hm & ->).
    exists (m :: before), m0, rest. repeat split; auto.
    intros x [<-|Hx]; auto.
Qed.

Lemma flipFirst_at (id_ : string) (before rest : list MemoryNode) (m : MemoryNode) :
  (forall x, In x before -> id x <> id_) -> id m = id_ ->
  flipFirst id_ (before ++ m :: rest) = Some (before ++ flipped m :: rest).
Proof.
  intros Hb Hm. induction before as [|x before IH]; simpl.
  - apply String.eqb_eq in Hm. now rewrite Hm.
  - assert (Hx : String.eqb (id x) id_ = false)
      by (apply String.eqb_neq, Hb; now left).
    rewrite Hx, IH; [reflexivity|]. intros y Hy. apply Hb. now right.
Qed.

Lemma flipped_twice (m : MemoryNode) :
  pinned (flipped (flipped m)) = pinned m /\ unpin (flipped (flipped m)) = unpin m.
Proof.
  unfold pinned, flipped, unpin, with_isPinned. simpl.
  split; [|reflexivity]. now destruct (isPinned m) as [[|]|].
Qed.

(** X6. [togglePin] on an id that no node carries leaves the store as it
    is.  Otherwise, below capacity, it flips the pin of the first node
    with that id and touches nothing else; toggling twice gives back the
    collection with every node pinned or not as it was. *)
Theorem togglePin_flips_first (b : Browser) (id_ : string) (s : Store) :
  (List.length (memories s) <= MAX_MEMORIES)%nat ->
  ((forall m, In m (memories s) -> id m <> id_) -> togglePin b id_ s = s) /\
  (forall m, In m (memories s) -> id m = id_ ->
     exists before first rest,
       memories s = before ++ first :: rest /\
       (forall x, In x before -> id x <> id_) /\ id first = id_ /\
       memories (togglePin b id_ s) = before ++ flipped first :: rest /\
       pinned (flipped first) = negb (pinned first) /\
       unpin (flipped first) = unpin first /\
       map pinned (memories (togglePin b id_ (togglePin b id_ s)))
       = map pinned (memories s) /\
       map unpin (memories (togglePin b id_ (togglePin b id_ s)))
       = map unpin (memories s)).
Proof.
  intros Hlen. split.
  - intros Hnone. unfold togglePin.
    now rewrite (proj2 (flipFirst_none id_ (memories s)) Hnone).
  - intros m Hin Hid.
    destruct (flipFirst id_ (memories s)) as [mems'|] eqn:E.
    2:{ exfalso. apply (proj1 (flipFirst_none id_ (memories s)) E m Hin Hid). }
    destruct (flipFirst_some E) as (before & first & rest & Hs & Hb & Hf & ->).
    assert (Hlen' : forall x, List.length (before ++ x :: rest) = List.length (memories s)).
    { intros x. rewrite Hs, !length_app. reflexivity. }
    assert (H1 : memories (togglePin b id_ s) = before ++ flipped first :: rest).
    { unfold togglePin. rewrite E. apply saveMemories_small. simpl.
      rewrite Hlen'. exact Hlen. }
    assert (H2 : memories (togglePin b id_ (togglePin b id_ s))
                 = before ++ flipped (flipped first) :: rest).
    { unfold togglePin at 1. rewrite H1, (flipFirst_at _ Hb) by exact Hf.
      apply saveMemories_small. simpl. rewrite Hlen'. exact Hlen. }
    exists before, first, rest. repeat split; auto.
    + unfold pinned, flipped. simpl. now destruct (isPinned first) as [[|]|].
    + rewrite H2, Hs, !map_app. simpl. now rewrite (proj1 (flipped_twice first)).
    + rewrite H2, Hs, !map_app. simpl. now rewrite (proj2 (flipped_twice first)).
Qed.

Lemma togglePin_flips_first_witness :
  (List.length (memories pinnedStore) <= MAX_MEMORIES)%nat /\
  togglePin browser "mem-9" pinnedStore = pinnedStore /\
  getPinned (togglePin browser "mem-1" pinnedStore) = [].
Proof.
  assert (H : (List.length (memories pinnedStore) <= MAX_MEMORIES)%nat)
    by (unfold MAX_MEMORIES; simpl; lia).
  split; [exact H|]. split; [|reflexivity].
  apply (proj1 (togglePin_flips_first browser "mem-9" (s := pinnedStore) H)).
  intros m [<-|[]]. discriminate.
Defined.

(** *** [deleteMemory] *)

(** X7. After [deleteMemory] no node carries the id, pinned or not, and
    every node left was in the store before.  Below capacity nothing else
    is lost: the nodes with other ids stay, in their order. *)
Theorem deleteMemory_removes_id (b : Browser) (id_ : string) (s : Store) :
  (forall m, In m (memories (deleteMemory b id_ s)) -> id m <> id_ /\ In m (memories s)) /\
  ((List.length (memories s) <= MAX_MEMORIES)%nat ->
   memories (deleteMemory b id_ s)
   = filter (fun m => negb (String.eqb (id m) id_)) (memories s) /\
   forall m, In m (memories s) -> id m <> id_ -> In m (memories (deleteMemory b id_ s))).
Proof.
  set (kept := filter (fun m => negb (String.eqb (id m) id_)) (memories s)).
  assert (Hkept : forall m, In m kept -> id m <> id_ /\ In m (memories s)).
  { intros m Hm. apply filter_In in Hm. destruct Hm as [Hin Hne].
    split; [|assumption]. apply String.eqb_neq. now destruct (String.eqb (id m) id_). }
  split.
  - intros m Hm. apply Hkept. unfold deleteMemory in Hm.
    rewrite saveMemories_memories in Hm. cbn [memories] in Hm. fold kept in Hm.
    destruct (_ && _); [now apply evict_In|assumption].
  - intros Hlen.
    assert (E : memories (deleteMemory b id_ s) = kept).
    { unfold deleteMemory. apply saveMemories_small. cbn [memories]. fold kept.
      pose proof (filter_split_length (fun m => negb (String.eqb (id m) id_)) (memories s)).
      unfold kept, MAX_MEMORIES in *. lia. }
    split; [exact E|]. intros m Hin Hne. rewrite E. apply filter_In.
    split; [assumption|]. apply String.eqb_neq in Hne. now rewrite Hne.
Qed.

(** *** [getRecent] *)

Lemma sorted_app_l {A : Type} (R : A -> A -> Prop) (l1 l2 : list A) :
  StronglySorted R (l1 ++ l2) -> StronglySorted R l1.
Proof.
  induction l1 as [|a l1 IH]; simpl; intros H; [constructor|].
  inversion H as [|? ? Hs Ha]; subst. constructor; [now apply IH|].
  rewrite Forall_forall in *. intros x Hx. apply Ha, in_or_app. now left.
Qed.

(** X8. [getRecent(limit)] with a limit that is not negative returns
    [min(limit, size)] nodes of the store, newest first, and no node it
    leaves out is newer than one it returns. *)
Theorem getRecent_newest (limit : Z) (s : Store) :
  (0 <= limit)%Z ->
  let recent := getRecent limit s in
  List.length recent = Nat.min (Z.to_nat limit) (List.length (memories s)) /\
  StronglySorted newerOrSame recent /\
  exists rest,
    Permutation (memories s) (recent ++ rest) /\
    forall kept old, In kept recent -> In old rest ->
                     (timestamp old <= timestamp kept)%Z.
Proof.
  intros Hl recent. unfold recent, getRecent. rewrite slice0_nonneg by assumption.
  set (k := Z.to_nat limit). set (sorted := sort older (memories s)).
  assert (Hs : StronglySorted newerOrSame (firstn k sorted ++ skipn k sorted)).
  { rewrite firstn_skipn. apply sort_older_sorted. }
  split; [|split].
  - rewrite length_firstn. unfold sorted. now rewrite sort_length.
  - exact (sorted_app_l Hs).
  - exists (skipn k sorted). split.
    + rewrite firstn_skipn. symmetry. apply sort_perm.
    + intros kept old Hk Ho. exact (sorted_app_le Hs Hk Ho).
Qed.

Lemma getRecent_newest_witness :
  (0 <= 30)%Z /\
  List.length (getRecent 30 fullStore) = Nat.min (Z.to_nat 30) (List.length (memories fullStore)).
Proof.
  split; [lia|].
  apply (@getRecent_newest 30 fullStore). lia.
Defined.

End StoreFacts.

(** ** The connection router: registration, disconnection, catalog *)

Module ConnectionFacts.
Import Js Types mcpClient.
Local Open Scope string_scope.
Local Open Scope list_scope.

Section MapFacts.

Context {V : Type}.

Lemma map_get_set_same (k : string) (v : V) (m : JsMap V) :
  map_get k (map_set k v m) = Some v.
Proof.
  induction m as [|[k' v'] m IH]; simpl.
  - now rewrite String.eqb_refl.
  - destruct (String.eqb k' k) eqn:E; simpl.
    + now rewrite String.eqb_refl.
    + now rewrite E.
Qed.

Lemma map_get_set_other (k k0 : string) (v : V) (m : JsMap V) :
  k0 <> k -> map_get k0 (map_set k v m) = map_get k0 m.
Proof.
  intros Hne. induction m as [|[k' v'] m IH]; simpl.
  - apply String.eqb_neq in Hne. rewrite String.eqb_sym. now rewrite Hne.
  - destruct (String.eqb k' k) eqn:E; simpl.
    + apply String.eqb_eq in E. subst k'.
      apply String.eqb_neq in Hne. rewrite String.eqb_sym, Hne. reflexivity.
    + now rewrite IH.
Qed.

Lemma map_get_delete_same (k : string) (m : JsMap V) :
  map_get k (map_delete k m) = None.
Proof.
  unfold map_delete. induction m as [|[k' v'] m IH]; simpl; [reflexivity|].
  destruct (String.eqb k' k) eqn:E; simpl; [assumption|]. now rewrite E.
Qed.

Lemma map_get_delete_other (k k0 : string) (m : JsMap V) :
  k0 <> k -> map_get k0 (map_delete k m) = map_get k0 m.
Proof.
  intros Hne. unfold map_delete. induction m as [|[k' v'] m IH]; simpl; [reflexivity|].
  destruct (String.eqb k' k) eqn:E; simpl.
  - apply String.eqb_eq in E. subst k'.
    apply String.eqb_neq in Hne. rewrite String.eqb_sym, Hne. assumption.
  - now rewrite IH.
Qed.

Lemma map_get_none_delete (k : string) (m : JsMap V) :
  map_get k m = None -> map_delete k m = m.
Proof.
  unfold map_delete. induction m as [|[k' v'] m IH]; simpl; [reflexivity|].
  destruct (String.eqb k' k); [discriminate|]. intros H. simpl. now rewrite IH.
Qed.

Lemma map_get_In (k : string) (v : V) (m : JsMap V) :
  map_get k m = Some v -> In (k, v) m.
Proof.
  induction m as [|[k' v'] m IH]; simpl; [discriminate|].
  destruct (String.eqb k' k) eqn:E.
  - intros [= ->]. apply String.eqb_eq in E. subst. now left.
  - intros H. right. now apply IH.
Qed.

Lemma map_set_keys (k : string) (v : V) (m : JsMap V) :
  NoDup (map fst m) -> NoDup (map fst (map_set k v m)) /\
  forall x, In x (map fst (map_set k v m)) <-> x = k \/ In x (map fst m).
Proof.
  induction m as [|[k' v'] m IH]; simpl; intros Hnd.
  - split; [repeat constructor; simpl; tauto|]. intros x. intuition.
  - inversion Hnd as [|? ? Hk Hm]; subst. destruct (IH Hm) as [IH1 IH2].
    destruct (String.eqb k' k) eqn:E; simpl.
    + apply String.eqb_eq in E. subst k'. split; [now constructor|].
      intros x. split; intros H; intuition.
    + split.
      * constructor; [|assumption]. rewrite IH2. intros [H|H]; [|contradiction].
        apply String.eqb_neq in E. congruence.
      * intros x. rewrite IH2. tauto.
Qed.

Lemma map_delete_keys (k : string) (m : JsMap V) :
  NoDup (map fst m) -> NoDup (map fst (map_delete k m)).
Proof.
  unfold map_delete. induction m as [|[k' v'] m IH]; simpl; intros Hnd; [constructor|].
  inversion Hnd as [|? ? Hk Hm]; subst.
  destruct (String.eqb k' k); simpl; [now apply IH|].
  constructor; [|now apply IH].
  intros H. apply Hk. apply in_map_iff in H. destruct H as (y & <- & Hy).
  apply filter_In in Hy. apply in_map. tauto.
Qed.

End MapFacts.

Section Registry.

Variables (W Transport Args : Type).
Variable net : Net W Transport Args.

(** Every connection sits under its own id. *)
Definition wellKeyed (conns : Connections Transport) : Prop :=
  Forall (fun kv => conn_id (snd kv) = fst kv) conns.

Lemma map_set_wellKeyed (c : McpConnection Transport) (conns : Connections Transport) :
  wellKeyed conns -> wellKeyed (map_set (conn_id c) c conns).
Proof.
  unfold wellKeyed. induction conns as [|[k v] m IH]; simpl; intros H.
  - now repeat constructor.
  - inversion H; subst. destruct (String.eqb k (conn_id c)); constructor; auto.
Qed.

(** What [registerConnection] stores: the connection found, or the
    record of the failure. *)
Definition registered (id_ : string) (t : Transport) (c : McpConnection Transport) : Prop :=
  conn_id c = id_ /\ transport c = t /\
  ((status c = connected /\ conn_error c = None) \/
   (status c = error_ /\ tools c = [] /\ forall name_, owns name_ c = false)).

Lemma registerConnection_stored (id_ : string) (t : Transport)
    (conns : Connections Transport) (w : W) :
  exists c, fst (registerConnection net id_ t conns w) = map_set id_ c conns /\
            registered id_ t c.
Proof.
  unfold registerConnection, registered.
  destruct (start net t w) as [[e|[]] w1].
  { eexists. split; [reflexivity|]. simpl. auto 6. }
  destruct (send net t _ w1) as [[e|response] w2].
  { eexists. split; [reflexivity|]. simpl. auto 6. }
  destruct (rpc_error response) as [err|].
  { eexists. split; [reflexivity|]. simpl. auto 6. }
  destruct (rpc_result response) as [r|].
  - eexists. split; [reflexivity|]. simpl. auto 6.
  - eexists. split; [reflexivity|]. simpl. auto 6.
Qed.

(** The discovery request, stamped with the time of the call. *)
Definition discovery (w : W) : JsonRpcRequest Args :=
  {| method := "tools/list"; params := None; req_id := now net w |}.

(** The record of a failure with the message [msg]. *)
Definition inError (id_ : string) (t : Transport) (msg : option string)
  : McpConnection Transport :=
  {| conn_id := id_; transport := t; tools := []; status := error_; conn_error := msg |}.

(** X9. [registerConnection] always leaves a connection under the id,
    whatever the transport does: a connected one, or, when starting the
    transport or the discovery fails, one in state [error] with an empty
    catalog, which therefore owns no tool.  The connections under other
    ids are untouched, and ids stay unique.  The connection is in state
    [error], with the message of the failure, when the transport does not
    start (and then no discovery is sent), when the discovery request is
    rejected, when the server answers it with an error, and when the
    answer has no result; it is connected, with the catalog of the answer
    (empty if the answer names none), when the answer has a result and no
    error. *)
Theorem registerConnection_always_stores (id_ : string) (t : Transport)
    (conns : Connections Transport) (w : W) :
  let conns' := fst (registerConnection net id_ t conns w) in
  let w' := snd (registerConnection net id_ t conns w) in
  (exists c, map_get id_ conns' = Some c /\ registered id_ t c) /\
  (forall k, k <> id_ -> map_get k conns' = map_get k conns) /\
  (NoDup (map fst conns) -> NoDup (map fst conns')) /\
  (wellKeyed conns -> wellKeyed conns') /\
  (forall e w1,
      start net t w = (Throw e, w1) ->
      map_get id_ conns' = Some (inError id_ t (message e)) /\ w' = w1) /\
  (forall u w1 e w2,
      start net t w = (Return u, w1) ->
      send net t (discovery w1) w1 = (Throw e, w2) ->
      map_get id_ conns' = Some (inError id_ t (message e)) /\ w' = w2) /\
  (forall u w1 response w2 err,
      start net t w = (Return u, w1) ->
      send net t (discovery w1) w1 = (Return response, w2) ->
      rpc_error response = Some err ->
      map_get id_ conns' = Some (inError id_ t (Some (rpc_message err))) /\ w' = w2) /\
  (forall u w1 response w2,
      start net t w = (Return u, w1) ->
      send net t (discovery w1) w1 = (Return response, w2) ->
      rpc_error response = None -> rpc_result response = None ->
      map_get id_ conns'
      = Some (inError id_ t
                (Some "Cannot read properties of undefined (reading 'tools')")) /\
      w' = w2) /\
  (forall u w1 response w2 r,
      start net t w = (Return u, w1) ->
      send net t (discovery w1) w1 = (Return response, w2) ->
      rpc_error response = None -> rpc_result response = Some r ->
      map_get id_ conns'
      = Some {| conn_id := id_; transport := t;
                tools := match r_tools r with Some ts => ts | None => [] end;
                status := connected; conn_error := None |} /\
      w' = w2).
Proof.
  intros conns' w'. unfold conns', w'.
  split; [|split; [|split; [|split]]].
  - destruct (registerConnection_stored id_ t conns w) as (c & -> & Hc).
    exists c. split; [apply map_get_set_same|exact Hc].
  - destruct (registerConnection_stored id_ t conns w) as (c & -> & Hc).
    intros k Hk. now apply map_get_set_other.
  - destruct (registerConnection_stored id_ t conns w) as (c & -> & Hc).
    intros Hnd. now apply map_set_keys.
  - destruct (registerConnection_stored id_ t conns w) as (c & -> & Hc).
    intros Hwk. destruct Hc as (<- & _). now apply map_set_wellKeyed.
  - unfold registerConnection, discovery, inError.
    split; [|split; [|split; [|split]]].
    + intros e w1 ->. simpl. split; [apply map_get_set_same|reflexivity].
    + intros u w1 e w2 -> ->. simpl. split; [apply map_get_set_same|reflexivity].
    + intros u w1 response w2 err -> -> ->. simpl.
      split; [apply map_get_set_same|reflexivity].
    + intros u w1 response w2 -> -> -> ->. simpl.
      split; [apply map_get_set_same|reflexivity].
    + intros u w1 response w2 r -> -> -> ->. simpl.
      split; [apply map_get_set_same|reflexivity].
Qed.

Lemma find_app {A : Type} (f : A -> bool) (l1 l2 : list A) :
  find f (l1 ++ l2) = match find f l1 with Some x => Some x | None => find f l2 end.
Proof.
  induction l1 as [|x l1 IH]; simpl; [reflexivity|]. now destruct (f x).
Qed.

Definition named (name_ : string) (entry : McpTool * string) : bool :=
  String.eqb (tool_name (fst entry)) name_.

Lemma find_named_tools (name_ id_ : string) (ts : list McpTool) :
  option_map snd (find (named name_) (map (fun t => (t, id_)) ts))
  = if existsb (fun t => String.eqb (tool_name t) name_) ts then Some id_ else None.
Proof.
  induction ts as [|t ts IH]; simpl; [reflexivity|].
  unfold named at 1. simpl. now destruct (String.eqb (tool_name t) name_).
Qed.

Lemma find_named_none (name_ id_ : string) (ts : list McpTool) :
  existsb (fun t => String.eqb (tool_name t) name_) ts = false ->
  find (named name_) (map (fun t => (t, id_)) ts) = None.
Proof.
  induction ts as [|t ts IH]; simpl; [reflexivity|].
  unfold named at 1. simpl. now destruct (String.eqb (tool_name t) name_).
Qed.

(** X10. The catalog and the resolution agree: [callTool] resolves a name
    to the connection of the first entry of [getAllTools] that carries
    that name and sends the call through its transport; when
    [getAllTools] has no entry with that name, it fails with the
    tool-not-found error and sends nothing. *)
Theorem callTool_follows_catalog (name_ : string) (conns : Connections Transport) :
  option_map (@conn_id Transport) (findTarget name_ conns)
  = option_map snd (find (named name_) (getAllTools conns)) /\
  (find (named name_) (getAllTools conns) = None ->
   forall args w, callTool net name_ args conns w = (Throw (toolNotFound name_), w)) /\
  (forall entry, find (named name_) (getAllTools conns) = Some entry ->
   exists target,
     In target (getConnections conns) /\ conn_id target = snd entry /\
     status target = connected /\
     forall args w,
       callTool net name_ args conns w = ClientFacts.dispatchTo net target name_ args w).
Proof.
  assert (E : option_map (@conn_id Transport) (findTarget name_ conns)
              = option_map snd (find (named name_) (getAllTools conns))).
  { unfold findTarget, getAllTools.
    induction (map_values conns) as [|c cs IH]; simpl; [reflexivity|].
    rewrite find_app. unfold owns at 1.
    destruct (isConnected c); simpl; [|exact IH].
    pose proof (find_named_tools name_ (conn_id c) (tools c)) as Hts.
    destruct (existsb _ (tools c)) eqn:Ex.
    - destruct (find (named name_) (map _ (tools c))); [exact (eq_sym Hts)|discriminate].
    - rewrite (find_named_none _ Ex). exact IH. }
  split; [exact E|]. split.
  - intros Hnone args w. unfold callTool.
    rewrite Hnone in E. now destruct (findTarget name_ conns).
  - intros entry Hentry. rewrite Hentry in E.
    destruct (findTarget name_ conns) as [target|] eqn:F; [|discriminate].
    exists target. injection E as E.
    unfold findTarget in F. pose proof (find_some _ _ F) as [Hin Howns].
    unfold owns, isConnected in Howns. apply andb_prop in Howns.
    repeat split; auto.
    + destruct (status target); try discriminate (proj1 Howns). reflexivity.
    + intros args w. unfold callTool, findTarget, ClientFacts.dispatchTo.
      now rewrite F.
Qed.

Lemma disconnect_fst (id_ : string) (conns : Connections Transport) (w : W) :
  fst (disconnect net id_ conns w) = map_delete id_ conns.
Proof.
  unfold disconnect. destruct (map_get id_ conns) eqn:E; simpl; [reflexivity|].
  symmetry. now apply map_get_none_delete.
Qed.

Lemma wellKeyed_values (id_ : string) (conns : Connections Transport) :
  wellKeyed conns ->
  map_values (map_delete id_ conns)
  = filter (fun c => negb (String.eqb (conn_id c) id_)) (map_values conns).
Proof.
  unfold wellKeyed, map_values, map_delete.
  induction conns as [|[k v] m IH]; simpl; intros H; [reflexivity|].
  inversion H as [|? ? Hk Hm]; subst. simpl in Hk. rewrite Hk.
  destruct (String.eqb k id_); simpl; now rewrite IH.
Qed.

(** X11. [disconnect] closes the transport of the connection and removes
    it: afterwards the id is free, the other connections are listed as
    before and in the same order, and no call is ever resolved to a
    connection with that id.  On an id that is not registered nothing
    happens. *)
Theorem disconnect_removes (id_ : string) (conns : Connections Transport) (w : W) :
  wellKeyed conns ->
  let conns' := fst (disconnect net id_ conns w) in
  map_get id_ conns' = None /\
  (forall k, k <> id_ -> map_get k conns' = map_get k conns) /\
  getConnections conns'
  = filter (fun c => negb (String.eqb (conn_id c) id_)) (getConnections conns) /\
  (forall name_ target, findTarget name_ conns' = Some target -> conn_id target <> id_) /\
  (forall c, map_get id_ conns = Some c ->
             snd (disconnect net id_ conns w) = close net (transport c) w) /\
  (map_get id_ conns = None -> disconnect net id_ conns w = (conns, w)).
Proof.
  intros Hwk conns'. unfold conns'. rewrite disconnect_fst.
  split; [apply map_get_delete_same|].
  split; [intros k Hk; now apply map_get_delete_other|].
  split; [now apply wellKeyed_values|].
  split; [|split].
  - intros name_ target F. unfold findTarget in F. apply find_some in F.
    destruct F as [Hin _]. rewrite wellKeyed_values in Hin by assumption.
    apply filter_In in Hin. destruct Hin as [_ Hne].
    apply String.eqb_neq. now destruct (String.eqb (conn_id target) id_).
  - intros c Hc. unfold disconnect. now rewrite Hc.
  - intros Hnone. unfold disconnect. now rewrite Hnone.
Qed.

End Registry.

Lemma twoPackages_wellKeyed : wellKeyed ClientFacts.twoPackages.
Proof. repeat constructor. Qed.

Lemma disconnect_removes_witness :
  wellKeyed ClientFacts.twoPackages /\
  map_get "pkg-a" (fst (disconnect ClientFacts.echoNet "pkg-a" ClientFacts.twoPackages 0%nat))
  = None.
Proof.
  split; [exact twoPackages_wellKeyed|].
  apply (disconnect_removes ClientFacts.echoNet "pkg-a" 0%nat twoPackages_wellKeyed).
Defined.

End ConnectionFacts.

(** ** The internal server: envelopes, fault containment, registration *)

Module ServerFacts.
Import Js Types mcpServer.
Local Open Scope string_scope.
Local Open Scope list_scope.

Section ServerFacts.

Variables (W Args : Type).

Definition methods : list string :=
  ["tools/list"; "tools/call"; "resources/list"; "resources/read";
   "prompts/list"; "prompts/get"].

Lemma orElse_nonempty (a : option string) (b : string) :
  b <> "" -> geminiService.orElse a b <> "".
Proof.
  intros Hb. destruct a as [[|c s]|]; simpl; auto. discriminate.
Qed.

Lemma eqb_false_of_not_In (x : string) (l : list string) :
  ~ In x l -> Forall (fun y => String.eqb x y = false) l.
Proof.
  intros H. apply Forall_forall. intros y Hy. apply String.eqb_neq.
  intros ->. contradiction.
Qed.

(** X12. [handleMessage] answers every request, whatever its method and
    whatever the handlers do, with the id of the request and exactly one
    of a result and an error.  Every error carries the code -32601 and a
    message that is not empty; a method outside the six served ones is
    answered by "Method not found" without any handler being run; and a
    request for [tools/call], [resources/read] or [prompts/get] that has
    no [params] is answered by an error as well. *)
Theorem handleMessage_envelope (s : Server W Args) (request : JsonRpcRequest Args) (w : W) :
  let response := fst (handleMessage s request w) in
  response_id response = request_id request /\
  ((exists r, result response = Some r /\ error response = None) \/
   (exists e, result response = None /\ error response = Some e /\
              code e = (-32601)%Z /\ error_message e <> "")) /\
  (~ In (method request) methods ->
   handleMessage s request w
   = ({| response_id := request_id request; result := None;
         error := Some {| code := -32601; error_message := "Method not found" |} |}, w)) /\
  (params request = None ->
   In (method request) ["tools/call"; "resources/read"; "prompts/get"] ->
   result response = None /\ snd (handleMessage s request w) = w).
Proof.
  intros response. unfold response, handleMessage.
  split; [|split; [|split]].
  - destruct (dispatch s request w) as [[e|r] w1]; reflexivity.
  - destruct (dispatch s request w) as [[e|r] w1]; simpl.
    + right. eexists. repeat split. simpl. now apply orElse_nonempty.
    + left. now exists r.
  - intros Hnot. apply eqb_false_of_not_In in Hnot. unfold methods in Hnot.
    repeat match goal with
           | H : Forall _ (_ :: _) |- _ => inversion H; clear H; subst
           end.
    unfold dispatch.
    repeat match goal with
           | H : String.eqb _ _ = false |- _ => rewrite H; clear H
           end.
    reflexivity.
  - intros Hp Hm. unfold dispatch. rewrite Hp.
    simpl in Hm. destruct Hm as [<-|[<-|[<-|[]]]]; simpl; auto.
Qed.

(** X13. A tool call never turns into a protocol error: a [tools/call]
    request with [params] is always answered by a result.  That result
    is the one the handler returned; or, if the handler raised a fault,
    an error result whose text is "Fault: " and the message of the
    fault; or, if no tool has the name, an error result saying so, and
    then nothing was run. *)
Theorem toolsCall_contains_faults (s : Server W Args) (p : Params Args) (id_ : Z) (w : W) :
  let request := {| method := "tools/call"; params := Some p; request_id := id_ |} in
  handleMessage s request w
  = ({| response_id := id_;
        result := Some (CallResult (fst (callTool s (param_name p) (param_arguments p) w)));
        error := None |},
     snd (callTool s (param_name p) (param_arguments p) w)) /\
  (lookup (param_name p) (tools s) = None ->
   callTool s (param_name p) (param_arguments p) w
   = (faultResult ("Tool " ++ show (param_name p) ++ " not found."), w)) /\
  (forall tool,
     lookup (param_name p) (tools s) = Some tool ->
     (forall e w1, handler tool (param_arguments p) w = (Throw e, w1) ->
        callTool s (param_name p) (param_arguments p) w
        = (faultResult ("Fault: " ++ show (message e)), w1)) /\
     (forall r w1, handler tool (param_arguments p) w = (Return r, w1) ->
        callTool s (param_name p) (param_arguments p) w = (r, w1))).
Proof.
  intros request. split; [|split].
  - unfold handleMessage, dispatch. simpl.
    now destruct (callTool s (param_name p) (param_arguments p) w).
  - intros H. unfold callTool. now rewrite H.
  - intros tool H. unfold callTool. rewrite H.
    split; intros ? w1 Hh; now rewrite Hh.
Qed.

(** The key of every tool is the name in its definition, and no key
    occurs twice. *)
Definition consistent (s : Server W Args) : Prop :=
  NoDup (map fst (tools s)) /\
  Forall (fun kv => tool_name (definition (snd kv)) = fst kv) (tools s).

Lemma consistent_names (s : Server W Args) :
  consistent s -> map tool_name (listTools s) = map fst (tools s).
Proof.
  unfold consistent, listTools, map_values. intros [_ H].
  induction H as [|[k v] m Hk Hm IH]; simpl; [reflexivity|].
  simpl in Hk. now rewrite Hk, IH.
Qed.

Lemma map_set_Forall {V : Type} (P : string * V -> Prop) (k : string) (v : V) (m : JsMap V) :
  P (k, v) -> Forall P m -> Forall P (map_set k v m).
Proof.
  intros Hkv. induction 1 as [|[k' v'] m Hx Hm IH]; simpl.
  - now repeat constructor.
  - destruct (String.eqb k' k); constructor; auto.
Qed.

(** X14. After [registerTool] the tool is in the catalog and a call by
    its name runs the handler just registered, also when the name was
    taken before; calls by any other name go where they went.  From the
    empty server on, however tools are registered, no name is listed
    twice. *)
Theorem registerTool_latest_wins (d : McpTool)
    (h : option Args -> W -> Outcome McpCallToolResult * W) (s : Server W Args) :
  (forall args w,
     callTool (registerTool d h s) (Some (tool_name d)) args w
     = match h args w with
       | (Return r, w1) => (r, w1)
       | (Throw e, w1) => (faultResult ("Fault: " ++ show (message e)), w1)
       end) /\
  (forall n args w, n <> Some (tool_name d) ->
     callTool (registerTool d h s) n args w = callTool s n args w) /\
  In d (listTools (registerTool d h s)) /\
  consistent (@newServer W Args) /\
  (consistent s ->
   consistent (registerTool d h s) /\
   NoDup (map tool_name (listTools (registerTool d h s)))).
Proof.
  split; [|split; [|split; [|split]]].
  - intros args w. unfold callTool, registerTool, lookup. simpl.
    now rewrite ConnectionFacts.map_get_set_same.
  - intros n args w Hn. unfold callTool, registerTool, lookup. simpl.
    destruct n as [n|]; [|reflexivity].
    rewrite ConnectionFacts.map_get_set_other; [reflexivity|congruence].
  - unfold listTools, registerTool, map_values. simpl.
    apply in_map_iff. exists {| definition := d; handler := h |}. split; [reflexivity|].
    apply in_map_iff. exists (tool_name d, {| definition := d; handler := h |}).
    split; [reflexivity|].
    apply ConnectionFacts.map_get_In, ConnectionFacts.map_get_set_same.
  - split; constructor.
  - intros [Hnd Hk].
    assert (Hc : consistent (registerTool d h s)).
    { split; simpl.
      - now apply ConnectionFacts.map_set_keys.
      - now apply map_set_Forall. }
    split; [exact Hc|]. rewrite (consistent_names Hc). apply Hc.
Qed.

End ServerFacts.

End ServerFacts.

(** ** Router, transports and server together *)

Module TransportFacts.
Import Js Types mcpTransport.
Local Open Scope string_scope.
Local Open Scope list_scope.

Section TransportFacts.

Variables (W Args Remote : Type).
Variable server : mcpServer.Server W Args.
Variable remote : mcpClient.Net W Remote (option Args).

(** What the router hands out for a result that came over a transport:
    the result itself when it has a [content], the bare response
    otherwise. *)
Definition handedOut (r : McpCallToolResult) : McpCallToolResult :=
  match result_content r with
  | Some _ => r
  | None => {| result_content := None; isError := None |}
  end.

Definition internalConnection : mcpClient.McpConnection (Transport W Args Remote) :=
  {| mcpClient.conn_id := "internal"; mcpClient.transport := Internal W Args Remote;
     mcpClient.tools := mcpServer.listTools server;
     mcpClient.status := connected; mcpClient.conn_error := None |}.

Lemma interpret_call (name_ : string) (id_ : Z) (r : McpCallToolResult) :
  mcpClient.interpret name_
    (delivered {| mcpServer.response_id := id_;
                  mcpServer.result := Some (mcpServer.CallResult r);
                  mcpServer.error := None |})
  = handedOut r.
Proof.
  unfold mcpClient.interpret, delivered, handedOut. simpl.
  destruct r as [[c|] e]; reflexivity.
Qed.

Lemma existsb_named (name_ : string) (ts : list McpTool) :
  In name_ (map tool_name ts) ->
  existsb (fun t => String.eqb (tool_name t) name_) ts = true.
Proof.
  intros H. apply in_map_iff in H. destruct H as (t & <- & Ht).
  apply existsb_exists. exists t. split; [assumption|apply String.eqb_refl].
Qed.

(** X15. The internal server behind the router.  [connectInternal]
    cannot fail: it leaves, under the id "internal", a connected
    connection whose catalog is the list of tools of the server, so that
    on a fresh router every tool of the server is resolved to it.  A call
    that is resolved to the internal connection never rejects while the
    transport is open: the router hands out what the server made of the
    call, be it the result of the handler, the fault of the handler or
    the absence of the tool as an error result.  Once the transport is
    closed such a call rejects without reaching the server. *)
Theorem internal_round_trip (conns : mcpClient.Connections (Transport W Args Remote))
    (w : World W) :
  connectInternal server remote conns w
  = (map_set "internal" internalConnection conns,
     {| internalConnected := true; outside := outside w |}) /\
  (forall name_, In name_ (map tool_name (mcpServer.listTools server)) ->
     mcpClient.findTarget name_ (fst (connectInternal server remote [] w))
     = Some internalConnection) /\
  (forall name_ args target,
     mcpClient.findTarget name_ conns = Some target ->
     mcpClient.transport target = Internal W Args Remote ->
     (internalConnected w = true ->
      mcpClient.callTool (transports server remote) name_ args conns w
      = (Return (handedOut (fst (mcpServer.callTool server (Some name_) args (outside w)))),
         {| internalConnected := true;
            outside := snd (mcpServer.callTool server (Some name_) args (outside w)) |})) /\
     (internalConnected w = false ->
      mcpClient.callTool (transports server remote) name_ args conns w
      = (Throw (newError "Internal Transport not connected"), w))).
Proof.
  assert (Hconnect : connectInternal server remote conns w
                     = (map_set "internal" internalConnection conns,
                        {| internalConnected := true; outside := outside w |})).
  { unfold connectInternal, mcpClient.registerConnection. reflexivity. }
  split; [exact Hconnect|]. split.
  - intros name_ Hin. unfold connectInternal, mcpClient.registerConnection. simpl.
    unfold mcpClient.findTarget, mcpClient.owns. simpl.
    fold (mcpServer.listTools server). now rewrite existsb_named.
  - intros name_ args target Hfind Ht. unfold mcpClient.callTool. rewrite Hfind, Ht.
    simpl. unfold internalSend. split; intros Hflag; rewrite Hflag; simpl.
    + unfold mcpServer.handleMessage, mcpServer.dispatch. simpl.
      destruct (mcpServer.callTool server (Some name_) args (outside w)) as [r w1].
      simpl. f_equal. f_equal. apply interpret_call.
    + reflexivity.
Qed.

(** X16. A simulated package behind the router.  A call that is resolved
    to a connection made by [registerSimulatedConnection] runs the
    handler of the package with the name and the arguments of the call.
    The result of the handler is handed out; a rejection of the handler
    is not contained, it rejects the call of the router. *)
Theorem simulated_call (conns : mcpClient.Connections (Transport W Args Remote))
    (name_ pkg : string) (args : option Args) (handler : Handler W Args)
    (target : mcpClient.McpConnection (Transport W Args Remote)) (w : World W) :
  mcpClient.findTarget name_ conns = Some target ->
  mcpClient.transport target = Simulated Remote pkg handler ->
  mcpClient.callTool (transports server remote) name_ args conns w
  = match handler name_ args (outside w) with
    | (Return res, w1) =>
        (Return (handedOut res), {| internalConnected := internalConnected w; outside := w1 |})
    | (Throw e, w1) =>
        (Throw e, {| internalConnected := internalConnected w; outside := w1 |})
    end.
Proof.
  intros Hfind Ht. unfold mcpClient.callTool. rewrite Hfind, Ht. simpl.
  unfold inside, simulatedSend, simulatedHandler. simpl.
  destruct (handler name_ args (outside w)) as [[e|res] w1]; simpl; [reflexivity|].
  f_equal. f_equal. unfold mcpClient.interpret, handedOut. simpl.
  destruct res as [[c|] e]; reflexivity.
Qed.

End TransportFacts.

(** *** Scenario: a server with a failing tool and an installed package *)

(** No remote server can be reached. *)
Definition offline : mcpClient.Net nat unit (option unit) :=
  {| mcpClient.start := fun _ w => (Throw (newError "Failed to connect to SSE endpoint"), w);
     mcpClient.close := fun _ w => w;
     mcpClient.send := fun _ _ w => (Throw (newError "SSE Transport not connected"), w);
     mcpClient.now := fun w => Z.of_nat w |}.

Definition brokenTool : McpTool :=
  {| tool_name := "generate_report"; tool_description := None |}.

Definition oneTool : mcpServer.Server nat unit :=
  mcpServer.registerTool brokenTool
    (fun _ w => (Throw (newError "disk full"), S w)) (mcpServer.newServer nat unit).

Definition weatherTool : McpTool :=
  {| tool_name := "get_weather_forecast";
     tool_description := Some "Get weather for a location." |}.

Definition weatherHandler : Handler nat unit :=
  fun name_ _ w =>
    (Return {| result_content :=
                 Some [textContent ("[weather-cli-mcp] Executed " ++ name_)];
               isError := None |}, S w).

Definition installed : mcpClient.Connections (Transport nat unit unit) :=
  mcpClient.registerSimulatedConnection "pkg-weather-1700000000000"
    (Simulated unit "weather-cli-mcp" weatherHandler) [weatherTool]
    (fst (connectInternal oneTool offline []
            {| internalConnected := false; outside := 0%nat |})).

(** The fault of the handler comes back as an error result; the tool of
    the package is found behind the internal connection. *)
Example internal_fault_is_result :
  fst (mcpClient.callTool (transports oneTool offline) "generate_report" None installed
         {| internalConnected := true; outside := 0%nat |})
  = Return {| result_content := Some [textContent "Fault: disk full"];
              isError := Some true |} /\
  map (fun e => (tool_name (fst e), snd e)) (mcpClient.getAllTools installed)
  = [("generate_report", "internal");
     ("get_weather_forecast", "pkg-weather-1700000000000")].
Proof. split; reflexivity. Qed.

Lemma simulated_call_witness :
  mcpClient.callTool (transports oneTool offline) "get_weather_forecast" None installed
    {| internalConnected := true; outside := 0%nat |}
  = (Return {| result_content :=
                 Some [textContent "[weather-cli-mcp] Executed get_weather_forecast"];
               isError := None |},
     {| internalConnected := true; outside := 1%nat |}).
Proof.
  apply (@simulated_call nat unit unit oneTool offline installed
           "get_weather_forecast" "weather-cli-mcp" None weatherHandler
           {| mcpClient.conn_id := "pkg-weather-1700000000000";
              mcpClient.transport := Simulated unit "weather-cli-mcp" weatherHandler;
              mcpClient.tools := [weatherTool];
              mcpClient.status := connected; mcpClient.conn_error := None |}
           {| internalConnected := true; outside := 0%nat |});
    reflexivity.
Defined.

End TransportFacts.

(** ** Credential profiles: which key a platform resolves to *)

Module KeyFacts.
Import Js Types mcpRouter.
Local Open Scope string_scope.
Local Open Scope list_scope.

Lemma platform_eqb_eq (a b : McpPlatform) : platform_eqb a b = true <-> a = b.
Proof. destruct a, b; simpl; split; intros H; try reflexivity; discriminate. Qed.

Lemma platform_eqb_refl (a : McpPlatform) : platform_eqb a a = true.
Proof. now apply platform_eqb_eq. Qed.

(** Where a key that [getSmartKey] hands out for a platform may come
    from: a stored profile of that platform, or one that a key pattern
    of step 4 lets through. *)
Definition lends (platform_ : McpPlatform) (p : McpProfile) : Prop :=
  platform p = platform_ \/
  (platform_ = huggingface /\ startsWith (trim (key p)) "hf_" = true) \/
  (platform_ = openai /\ startsWith (trim (key p)) "sk-" = true) \/
  (platform_ = google /\ isActive p = true /\
   startsWith (key p) "hf_" = false /\ startsWith (key p) "sk-" = false).

(** X17. Every key that [getSmartKey] returns is the value of an
    environment variable of the platform or the key of a stored profile.
    That profile is one of the platform asked for, except that a
    Hugging Face or OpenAI request may be served by any profile whose
    key looks like theirs, and a Google request by the active profile
    whatever its platform, unless its key starts with "hf_" or "sk-".
    For the other platforms no key of a profile of another platform is
    ever returned. *)
Theorem getSmartKey_provenance (env : Environment) (platform_ : McpPlatform)
    (r : Router) (k : string) :
  getSmartKey env platform_ r = Some k ->
  (discovered env platform_ = Some k \/
   exists p, In p (profiles r) /\ key p = k /\ lends platform_ p) /\
  (platform_ <> google -> platform_ <> huggingface -> platform_ <> openai ->
   discovered env platform_ = Some k \/
   exists p, In p (profiles r) /\ key p = k /\ platform p = platform_).
Proof.
  intros H.
  assert (Hmain : discovered env platform_ = Some k \/
                  exists p, In p (profiles r) /\ key p = k /\ lends platform_ p).
  { unfold getSmartKey in H.
    destruct (find (fun p => isActive p && platform_eqb (platform p) platform_) (profiles r))
      as [active|] eqn:F1.
    { injection H as <-. apply find_some in F1. destruct F1 as [Hin Hp].
      apply andb_prop in Hp. right. exists active. repeat split; auto.
      left. now apply platform_eqb_eq. }
    destruct (discovered env platform_) as [v|]; [left; exact H|].
    destruct (find (fun p => platform_eqb (platform p) platform_) (profiles r))
      as [specific|] eqn:F3.
    { injection H as <-. apply find_some in F3. destruct F3 as [Hin Hp].
      right. exists specific. repeat split; auto. left. now apply platform_eqb_eq. }
    right. unfold guessed in H.
    destruct platform_; try discriminate.
    - destruct (find isActive (profiles r)) as [a|] eqn:F4; [|discriminate].
      destruct (negb (startsWith (key a) "hf_")) eqn:N1; [|discriminate].
      destruct (negb (startsWith (key a) "sk-")) eqn:N2; [|discriminate].
      injection H as <-. apply find_some in F4. destruct F4 as [Hin Ha].
      exists a. repeat split; auto. right. right. right.
      repeat split; auto; [now destruct (startsWith (key a) "hf_")
                          |now destruct (startsWith (key a) "sk-")].
    - match type of H with
      | option_map _ ?x = _ => destruct x as [m|] eqn:F4; [|discriminate]
      end.
      simpl in H. injection H as <-. apply find_some in F4. destruct F4 as [Hin Hm].
      exists m. repeat split; auto. right. right. left. now split.
    - match type of H with
      | option_map _ ?x = _ => destruct x as [m|] eqn:F4; [|discriminate]
      end.
      simpl in H. injection H as <-. apply find_some in F4. destruct F4 as [Hin Hm].
      exists m. repeat split; auto. right. left. now split. }
  split; [exact Hmain|].
  intros Hg Hh Ho. destruct Hmain as [Hd|(p & Hin & Hk & Hl)]; [now left|].
  right. exists p. repeat split; auto.
  destruct Hl as [Hl|[[Hl _]|[[Hl _]|[Hl _]]]]; [assumption|contradiction..].
Qed.

(** No variable is set. *)
Definition bare : Environment :=
  {| processEnv := fun _ => None; metaEnv := fun _ => None |}.

(** A token was pasted with a leading blank into the first profile. *)
Definition pasted : Router :=
  snd (addProfile true "id-1" "Hub" " hf_abc" google empty).

Lemma getSmartKey_provenance_witness :
  getSmartKey bare google pasted = Some " hf_abc" /\
  map platform (profiles pasted) = [huggingface] /\
  exists p, In p (profiles pasted) /\ key p = " hf_abc" /\ lends google p.
Proof.
  split; [reflexivity|]. split; [reflexivity|].
  destruct (proj1 (@getSmartKey_provenance bare google pasted " hf_abc" eq_refl))
    as [H|H]; [discriminate H|exact H].
Defined.

(** The no-break space, U+00A0. *)
Definition nbsp : string := String (ascii_of_nat 194) (String (ascii_of_nat 160) EmptyString).

(** A token stored under another platform, pasted after a no-break
    space: the pattern of step 4 sees through the space and lends the
    key, as it is, to Hugging Face. *)
Definition misfiled : Router :=
  snd (addProfile true "id-1" "Hub" (nbsp ++ "hf_abc")%string anthropic empty).

Example getSmartKey_trims :
  map platform (profiles misfiled) = [anthropic] /\
  getSmartKey bare huggingface misfiled = Some (nbsp ++ "hf_abc")%string /\
  getSmartKey bare openai misfiled = None.
Proof. repeat split. Qed.

Lemma find_ext_In {A : Type} (f g : A -> bool) (l : list A) :
  (forall x, In x l -> f x = g x) -> find f l = find g l.
Proof.
  induction l as [|x l IH]; simpl; intros H; [reflexivity|].
  rewrite (H x (or_introl eq_refl)), IH; auto.
Qed.

Lemma find_by_id (f : McpProfile -> McpProfile) (P : McpProfile -> bool)
    (q : McpProfile) (ps : list McpProfile) :
  (forall p, profile_id (f p) = profile_id p) ->
  NoDup (map profile_id ps) -> In q ps -> P (f q) = true ->
  find (fun p => String.eqb (profile_id p) (profile_id q) && P p) (map f ps) = Some (f q).
Proof.
  intros Hf. induction ps as [|p ps IH]; simpl; intros Hnd Hin HP; [contradiction|].
  inversion Hnd as [|? ? Hp Hps]; subst. rewrite Hf.
  destruct Hin as [->|Hin].
  - now rewrite String.eqb_refl, HP.
  - destruct (String.eqb (profile_id p) (profile_id q)) eqn:E.
    + apply String.eqb_eq in E. exfalso. apply Hp. rewrite E. now apply in_map.
    + simpl. now apply IH.
Qed.

(** X18. Activating a profile makes its key the one its platform resolves
    to, whatever the environment holds and whatever other profiles are
    stored: after [setActiveProfile(id)], with ids distinct,
    [getSmartKey] for the platform of that profile returns its key. *)
Theorem active_profile_overrides (env : Environment) (hw : bool) (q : McpProfile) (r : Router) :
  In q (profiles r) ->
  NoDup (map profile_id (profiles r)) ->
  getSmartKey env (platform q) (setActiveProfile hw (Some (profile_id q)) r) = Some (key q).
Proof.
  intros Hin Hnd. unfold getSmartKey.
  rewrite RouterFacts.setActiveProfile_profiles.
  set (f := fun p => {| profile_id := profile_id p; name := name p; key := key p;
                        isActive := idIs (Some (profile_id q)) p;
                        platform := platform p |}).
  assert (E : find (fun p => isActive p && platform_eqb (platform p) (platform q))
                   (map f (profiles r)) = Some (f q)).
  { rewrite <- (@find_by_id f (fun p => platform_eqb (platform p) (platform q)) q (profiles r));
      auto.
    - apply find_ext_In. intros p Hp. apply in_map_iff in Hp.
      destruct Hp as (p0 & <- & _). reflexivity.
    - simpl. apply platform_eqb_refl. }
  now rewrite E.
Qed.

Definition twoGoogle : Router :=
  snd (addProfile true "id-2" "Spare" "AIza-spare" google
         (snd (addProfile true "id-1" "Main" "AIza-main" google empty))).

Definition spare : McpProfile :=
  {| profile_id := "id-2"; name := "Spare"; key := "AIza-spare";
     isActive := false; platform := google |}.

Lemma active_profile_overrides_witness :
  In spare (profiles twoGoogle) /\
  NoDup (map profile_id (profiles twoGoogle)) /\
  getSmartKey bare google twoGoogle = Some "AIza-main" /\
  getSmartKey bare google (setActiveProfile true (Some "id-2") twoGoogle) = Some "AIza-spare".
Proof.
  assert (Hin : In spare (profiles twoGoogle)) by (right; left; reflexivity).
  assert (Hnd : NoDup (map profile_id (profiles twoGoogle))).
  { simpl. repeat constructor; simpl; intuition discriminate. }
  split; [exact Hin|]. split; [exact Hnd|]. split; [reflexivity|].
  exact (@active_profile_overrides bare true spare twoGoogle Hin Hnd).
Defined.

(** X19. A profile that is added carries the given name and key, is the
    last of the store, and always makes its platform resolve to some
    key.  Its platform is the one given, except that under [custom] or
    [google] a key that starts, white space apart, with "hf_" makes it a
    Hugging Face profile and one that starts with "sk-" an OpenAI one.
    It is active exactly when the store held no profile; when it is the
    first profile, it is active and its key is the one returned, whatever
    the environment holds, and the platform then counts as configured as
    soon as the key is not empty. *)
Theorem addProfile_resolves (env : Environment) (hw : bool)
    (uuid name_ key_ : string) (platform_ : McpPlatform) (r : Router) :
  let added := fst (addProfile hw uuid name_ key_ platform_ r) in
  let r' := snd (addProfile hw uuid name_ key_ platform_ r) in
  platform added = detectPlatform key_ platform_ /\
  getSmartKey env (platform added) r' <> None /\
  (profiles r = [] ->
   getSmartKey env (platform added) r' = Some key_ /\
   isProviderConfigured env (platform added) r'
   = negb (String.eqb key_ "")) /\
  (profile_id added = uuid /\ name added = name_ /\ key added = key_) /\
  profiles r' = profiles r ++ [added] /\
  isActive added = (List.length (profiles r) =? 0)%nat /\
  (profiles r = [] -> isActive added = true /\ find isActive (profiles r') = Some added) /\
  (profiles r <> [] -> isActive added = false) /\
  (platform_ = custom \/ platform_ = google ->
   (startsWith (trim key_) "hf_" = true -> platform added = huggingface) /\
   (startsWith (trim key_) "hf_" = false -> startsWith (trim key_) "sk-" = true ->
    platform added = openai) /\
   (startsWith (trim key_) "hf_" = false -> startsWith (trim key_) "sk-" = false ->
    platform added = platform_)) /\
  (platform_ <> custom -> platform_ <> google -> platform added = platform_).
Proof.
  intros added r'. split; [reflexivity|].
  assert (Hp : profiles r' = profiles r ++ [added])
    by apply RouterFacts.addProfile_profiles.
  split; [|split; [|split; [|split; [|split; [|split; [|split; [|split]]]]]]].
  - unfold getSmartKey. rewrite Hp.
    destruct (find (fun p => isActive p && _) _); [discriminate|].
    destruct (discovered env (platform added)); [discriminate|].
    rewrite ConnectionFacts.find_app.
    destruct (find _ (profiles r)); [discriminate|].
    simpl. rewrite platform_eqb_refl. discriminate.
  - intros Hempty.
    assert (E : getSmartKey env (platform added) r' = Some key_).
    { unfold getSmartKey. rewrite Hp, Hempty. simpl. rewrite Hempty. simpl.
      fold (detectPlatform key_ platform_). now rewrite platform_eqb_refl. }
    split; [exact E|]. unfold isProviderConfigured. rewrite E.
    now destruct key_.
  - repeat split.
  - exact Hp.
  - reflexivity.
  - intros Hempty. rewrite Hp. subst added. unfold addProfile. simpl.
    rewrite Hempty. simpl. split; reflexivity.
  - intros Hne. subst added. unfold addProfile. simpl.
    destruct (profiles r); [contradiction|reflexivity].
  - intros Hgen. subst added. unfold addProfile, detectPlatform. simpl.
    destruct Hgen as [-> | ->]; repeat split; intros H1; try intros H2;
      rewrite H1; try rewrite H2; reflexivity.
  - intros H1 H2. subst added. unfold addProfile, detectPlatform. simpl.
    destruct platform_; try reflexivity; contradiction.
Qed.

(** The first profile, its key pasted after a no-break space. *)
Example addProfile_first :
  addProfile true "id-1" "Hub" (nbsp ++ "hf_abc")%string custom empty
  = ({| profile_id := "id-1"; name := "Hub"; key := (nbsp ++ "hf_abc")%string;
        isActive := true; platform := huggingface |},
     {| profiles := [ {| profile_id := "id-1"; name := "Hub";
                         key := (nbsp ++ "hf_abc")%string;
                         isActive := true; platform := huggingface |} ];
        stored_profiles := Some [ {| profile_id := "id-1"; name := "Hub";
                                     key := (nbsp ++ "hf_abc")%string;
                                     isActive := true; platform := huggingface |} ] |}).
Proof. reflexivity. Qed.

(** X20. The Google key may be borrowed: when no stored profile is a
    Google one and no Google variable is set, [getSmartKey('google')]
    returns the key of the first active profile, whatever the platform of
    that profile, provided the key does not start with "hf_" or "sk-";
    [getUniversalKey] hands that key to the provider client. *)
Theorem google_borrows_active_key (env : Environment) (r : Router) (a : McpProfile) :
  (forall p, In p (profiles r) -> platform p <> google) ->
  discovered env google = None ->
  find isActive (profiles r) = Some a ->
  startsWith (key a) "hf_" = false ->
  startsWith (key a) "sk-" = false ->
  getSmartKey env google r = Some (key a) /\
  getUniversalKey env r = whenTruthy (Some (key a)).
Proof.
  intros Hnone Henv Hact Hhf Hsk.
  assert (E : getSmartKey env google r = Some (key a)).
  { unfold getSmartKey.
    assert (F3 : find (fun p => platform_eqb (platform p) google) (profiles r) = None).
    { apply ClientFacts.find_none, Forall_forall. intros p Hp.
      destruct (platform_eqb (platform p) google) eqn:E; [|reflexivity].
      apply platform_eqb_eq in E. now apply Hnone in Hp. }
    assert (F1 : find (fun p => isActive p && platform_eqb (platform p) google)
                      (profiles r) = None).
    { apply ClientFacts.find_none, Forall_forall. intros p Hp.
      apply ClientFacts.find_none in F3. rewrite Forall_forall in F3.
      rewrite (F3 p Hp). apply andb_false_r. }
    rewrite F1, Henv, F3. unfold guessed. now rewrite Hact, Hhf, Hsk. }
  split; [exact E|]. unfold getUniversalKey. now rewrite E.
Qed.

Definition grokOnly : Router :=
  snd (addProfile true "id-1" "Grok" "xai-123" xai empty).

Lemma google_borrows_active_key_witness :
  map platform (profiles grokOnly) = [xai] /\
  discovered bare google = None /\
  getUniversalKey bare grokOnly = Some "xai-123".
Proof.
  split; [reflexivity|]. split; [reflexivity|].
  apply (@google_borrows_active_key bare grokOnly
           {| profile_id := "id-1"; name := "Grok"; key := "xai-123";
              isActive := true; platform := xai |}); try reflexivity.
  intros p [<-|[]]. discriminate.
Defined.

End KeyFacts.

(** ** Strings: [startsWith], [includes], [toLowerCase] over concatenation *)

Module StringFacts.
Import Js.
Local Open Scope string_scope.

Lemma prefix_nil (s : string) : String.prefix "" s = true.
Proof. now destruct s. Qed.

Lemma prefix_nil_inv (n : string) : String.prefix n "" = true -> n = "".
Proof. now destruct n. Qed.

Lemma prefix_app (n s t : string) :
  String.prefix n s = true -> String.prefix n (s ++ t) = true.
Proof.
  revert s. induction n as [|a n IH]; intros s H; [apply prefix_nil|].
  destruct s as [|b s]; simpl in *; [discriminate|].
  destruct (ascii_dec a b); [now apply IH|discriminate].
Qed.

Lemma prefix_self (n t : string) : String.prefix n (n ++ t) = true.
Proof.
  induction n as [|a n IH]; simpl; [apply prefix_nil|].
  destruct (ascii_dec a a); [assumption|contradiction].
Qed.

Lemma includes_nil (s : string) : includes s "" = true.
Proof. destruct s; simpl; unfold startsWith; now rewrite ?prefix_nil. Qed.

Lemma includes_cons (c : ascii) (s n : string) :
  includes (String c s) n = String.prefix n (String c s) || includes s n.
Proof. reflexivity. Qed.

Lemma includes_app_r (s t n : string) :
  includes t n = true -> includes (s ++ t) n = true.
Proof.
  intros H. induction s as [|c s IH]; [assumption|].
  change (String c s ++ t) with (String c (s ++ t)).
  rewrite includes_cons, IH. apply orb_true_r.
Qed.

Lemma includes_app_l (s t n : string) :
  includes s n = true -> includes (s ++ t) n = true.
Proof.
  induction s as [|c s IH]; intros H.
  - simpl in H. rewrite orb_false_r in H. apply prefix_nil_inv in H. subst n.
    apply includes_nil.
  - rewrite includes_cons in H. apply orb_prop in H.
    change (String c s ++ t) with (String c (s ++ t)). rewrite includes_cons.
    destruct H as [H|H].
    + change (String c (s ++ t)) with (String c s ++ t).
      now rewrite (prefix_app t H).
    + rewrite IH by assumption. apply orb_true_r.
Qed.

Lemma append_nil_r (s : string) : s ++ "" = s.
Proof. induction s as [|c s IH]; simpl; congruence. Qed.

Lemma includes_self (n t : string) : includes (n ++ t) n = true.
Proof.
  destruct n as [|a n]; [apply includes_nil|].
  change (String a n ++ t) with (String a (n ++ t)). rewrite includes_cons.
  change (String a (n ++ t)) with (String a n ++ t). now rewrite prefix_self.
Qed.

Lemma includes_refl (n : string) : includes n n = true.
Proof.
  rewrite <- (append_nil_r n) at 1. apply includes_self.
Qed.

Lemma includes_concat (sep x : string) (l : list string) :
  In x l -> includes (String.concat sep l) x = true.
Proof.
  induction l as [|y l IH]; simpl; [contradiction|].
  intros [->|H].
  - destruct l; [apply includes_refl|apply includes_self].
  - destruct l as [|z l]; [contradiction|].
    apply includes_app_r, includes_app_r, IH, H.
Qed.

Lemma toLowerCase_app (s t : string) :
  toLowerCase (s ++ t) = toLowerCase s ++ toLowerCase t.
Proof. induction s as [|c s IH]; simpl; congruence. Qed.

End StringFacts.

(** ** The context block of the system instruction *)

Module ContextFacts.
Import Js Types Embedding memoryService geminiService StringFacts.
Local Open Scope string_scope.
Local Open Scope list_scope.

Lemma pinnedBlock_cons (l : list MemoryNode) :
  exists rest, pinnedBlock l = String (ascii_of_nat 10) rest.
Proof. unfold pinnedBlock, newline. simpl. eauto. Qed.

Lemma relevantBlock_cons (l : list MemoryNode) :
  exists rest, relevantBlock l = String (ascii_of_nat 10) rest.
Proof. unfold relevantBlock, newline. simpl. eauto. Qed.

Lemma pinnedBlock_includes (l : list MemoryNode) (m : MemoryNode) :
  In m l -> includes (pinnedBlock l) ("[PINNED] " ++ content m)%string = true.
Proof.
  intros H. unfold pinnedBlock.
  do 3 apply includes_app_r. apply includes_app_l, includes_concat.
  apply in_map_iff. now exists m.
Qed.

(** X21. The instruction that [buildContextualSystemInstruction] returns
    starts with the base instruction.  It is the base instruction itself
    when nothing is pinned and the search finds nothing, in particular
    when the embedding call fails; and it contains a line "[PINNED] "
    followed by the content for every pinned node of the store. *)
Theorem context_injection (p : Provider) (s : Store) (base prompt : string) :
  let out := buildContextualSystemInstruction p s base prompt in
  startsWith out base = true /\
  (getPinned s = [] -> search p prompt 3 defaultMinSimilarity s = [] -> out = base) /\
  (getPinned s = [] -> MemoryFacts.embeddingFails p prompt -> out = base) /\
  (forall m, In m (getPinned s) ->
             includes out ("[PINNED] " ++ content m)%string = true).
Proof.
  intros out. unfold out, buildContextualSystemInstruction.
  set (pinned_ := getPinned s).
  set (found := filter _ (search p prompt 3 defaultMinSimilarity s)).
  assert (Hempty : pinned_ = [] -> search p prompt 3 defaultMinSimilarity s = [] ->
                   (let contextBlock :=
                      if negb (List.length pinned_ =? 0)%nat then pinnedBlock pinned_ else "" in
                    if negb (List.length found =? 0)%nat
                    then contextBlock ++ relevantBlock found else contextBlock)%string
                   = ""%string).
  { intros Hp Hs. unfold found. rewrite Hp, Hs. reflexivity. }
  split; [|split; [|split]].
  - unfold startsWith.
    match goal with |- context [match ?c with EmptyString => _ | String _ _ => _ end] =>
      destruct c
    end.
    + rewrite <- (append_nil_r base) at 2. apply prefix_self.
    + apply prefix_self.
  - intros Hp Hs. cbv zeta in Hempty. now rewrite (Hempty Hp Hs).
  - intros Hp Hf. cbv zeta in Hempty. rewrite (Hempty Hp); [reflexivity|].
    unfold search. rewrite (MemoryFacts.getEmbedding_fails Hf).
    destruct (List.length (memories s) =? 0)%nat; reflexivity.
  - intros m Hm.
    assert (Hne : negb (List.length pinned_ =? 0)%nat = true).
    { destruct pinned_; [contradiction|reflexivity]. }
    rewrite Hne.
    destruct (pinnedBlock_cons pinned_) as (rest & Hrest).
    assert (Hin : includes (pinnedBlock pinned_) ("[PINNED] " ++ content m)%string = true)
      by now apply pinnedBlock_includes.
    destruct (negb (List.length found =? 0)%nat).
    + destruct (relevantBlock_cons found) as (rest' & _).
      rewrite Hrest at 1. cbn [append].
      apply includes_app_r, includes_app_r, includes_app_l, includes_app_l, Hin.
    + rewrite Hrest at 1.
      apply includes_app_r, includes_app_r, includes_app_l, Hin.
Qed.

End ContextFacts.

(** ** The retry wrapper: recovery after transient rate limits *)

Module RecoveryFacts.
Import Js Types geminiService.
Local Open Scope string_scope.
Local Open Scope list_scope.

Section Recovery.

Variables (W T : Type).
Variable backoffWait : Z -> W -> W.
Variable fn : Async W T.
Variable initialDelay : Z.

(** From [w], with the retry counter at [retries], the operation is
    rejected [k] times with a rate-limit signature and then returns [v];
    after the failure number [i] the wrapper waits for
    [initialDelay * 2 ^ i] (and the jitter). *)
Inductive recovers : nat -> W -> nat -> T -> W -> Prop :=
| recovers_now retries w v w' :
    fn w = Some (Return v, w') -> recovers retries w 0 v w'
| recovers_later retries w e w1 k v w' :
    fn w = Some (Throw e, w1) -> isRateLimit e = true ->
    recovers (S retries) (backoffWait (initialDelay * 2 ^ Z.of_nat retries) w1) k v w' ->
    recovers retries w (S k) v w'.

Lemma retryLoop_recovers (maxRetries : nat) (retries : nat) (w : W) (k : nat) (v : T) (w' : W) :
  recovers retries w k v w' ->
  forall fuel calls, (retries + k <= maxRetries)%nat -> (k < fuel)%nat ->
    retryLoop backoffWait fuel fn maxRetries initialDelay retries calls w
    = Some {| result := Return v; attempts := (calls + k + 1)%nat; world := w' |}.
Proof.
  induction 1 as [retries w v w' Hfn|retries w e w1 k v w' Hfn He _ IH];
    intros fuel calls Hk Hfuel; (destruct fuel as [|fuel]; [lia|]); simpl; rewrite Hfn.
  - do 2 f_equal. lia.
  - rewrite He. simpl.
    replace (retries <? maxRetries)%nat with true by (symmetry; apply Nat.ltb_lt; lia).
    rewrite IH by lia. do 2 f_equal. lia.
Qed.

(** X22. Transient rate limits are ridden out: if the operation is
    rejected [k] times in a row with a rate-limit signature, [k] being at
    most [maxRetries], and then returns a value, [withRetry] returns that
    value after exactly [k + 1] calls, having waited for
    [initialDelay * 2 ^ i] after the failure number [i]. *)
Theorem withRetry_recovers (maxRetries : nat) (w : W) (k : nat) (v : T) (w' : W) (fuel : nat) :
  recovers 0 w k v w' ->
  (k <= maxRetries)%nat -> (k < fuel)%nat ->
  withRetry backoffWait fuel fn maxRetries initialDelay w
  = Some {| result := Return v; attempts := S k; world := w' |}.
Proof.
  intros Hrec Hk Hfuel. unfold withRetry.
  rewrite (retryLoop_recovers (maxRetries := maxRetries) Hrec) by lia.
  do 2 f_equal. lia.
Qed.

End Recovery.

(** The provider is out of quota for the first two calls; the world is
    the number of calls made and the total time waited. *)
Definition busyTwice : Async (nat * Z) string :=
  fun w =>
    if (fst w <? 2)%nat
    then Some (Throw (newError "429 Too Many Requests"), (S (fst w), snd w))
    else Some (Return "done", (S (fst w), snd w)).

Definition waiting (delay : Z) (w : nat * Z) : nat * Z := (fst w, (snd w + delay)%Z).

Lemma withRetry_recovers_witness :
  recovers waiting busyTwice 3000 0 (0%nat, 0%Z) 2 "done" (3%nat, 9000%Z) /\
  withRetry waiting 5 busyTwice 4 3000 (0%nat, 0%Z)
  = Some {| result := Return "done"; attempts := 3; world := (3%nat, 9000%Z) |}.
Proof.
  assert (H : recovers waiting busyTwice 3000 0 (0%nat, 0%Z) 2 "done" (3%nat, 9000%Z)).
  { eapply recovers_later; [reflexivity|reflexivity|].
    eapply recovers_later; [reflexivity|reflexivity|].
    apply recovers_now. reflexivity. }
  split; [exact H|].
  apply (@withRetry_recovers (nat * Z) string waiting busyTwice 3000 4 (0%nat, 0%Z) 2
           "done" (3%nat, 9000%Z) 5 H); lia.
Defined.

End RecoveryFacts.

(** ** The specialist agents: turn bound, tool faults *)

Module AgentFacts.
Import Js Types geminiService geminiAgents.
Local Open Scope string_scope.
Local Open Scope list_scope.

Section AgentFacts.

Variable W : Type.
Variable env : AgentEnv W.

(** *** The join of a batch *)

(** Every place of the batch is in the order of settlement. *)
Lemma settleOrder_In (n : nat) (named : list nat) (i : nat) :
  (i < n)%nat -> In i (settleOrder n named).
Proof.
  intros Hi. unfold settleOrder. apply in_or_app.
  destruct (existsb (Nat.eqb i) (nodup Nat.eq_dec (filter (fun j => (j <? n)%nat) named)))
    eqn:E.
  - left. apply existsb_exists in E. destruct E as (x & Hx & Hix).
    apply Nat.eqb_eq in Hix. now subst x.
  - right. apply filter_In. split; [apply in_seq; lia|]. now rewrite E.
Qed.

(** A call whose place is in the order does settle. *)
Lemma settle_runs (calls : list FunctionCall) (i : nat) (call : FunctionCall) :
  nth_error calls i = Some call ->
  forall order w, In i order ->
    exists o wa wb, In (i, o) (fst (settle env calls order w)) /\
                    replyTo env call wa = (o, wb).
Proof.
  intros Hnth. induction order as [|j order IH]; intros w Hin; [contradiction|].
  simpl. destruct Hin as [->|Hin].
  - rewrite Hnth. destruct (replyTo env call w) as [o w1] eqn:E.
    destruct (settle env calls order w1) as [os w2].
    exists o, w, w1. split; [now left|exact E].
  - destruct (nth_error calls j) as [cj|]; [|now apply IH].
    destruct (replyTo env cj w) as [oj w1].
    destruct (IH w1 Hin) as (o & wa & wb & Ho & E).
    destruct (settle env calls order w1) as [os w2].
    exists o, wa, wb. split; [now right|exact E].
Qed.

(** Every outcome recorded is that of a call of the batch. *)
Lemma settle_origin (calls : list FunctionCall) :
  forall order w i o,
    In (i, o) (fst (settle env calls order w)) ->
    exists call wa wb, nth_error calls i = Some call /\ replyTo env call wa = (o, wb).
Proof.
  induction order as [|j order IH]; intros w i o Hin; [contradiction|].
  simpl in Hin. destruct (nth_error calls j) as [cj|] eqn:Hj; [|now apply IH in Hin].
  destruct (replyTo env cj w) as [oj w1] eqn:E.
  specialize (IH w1 i o).
  destruct (settle env calls order w1) as [os w2].
  destruct Hin as [Hin|Hin].
  - inversion Hin; subst. now exists cj, w, w1.
  - now apply IH.
Qed.

Lemma firstRejection_In (os : list (nat * Outcome ToolReply)) (e : Error) :
  firstRejection os = Some e -> exists i, In (i, Throw e) os.
Proof.
  induction os as [|[i [e0|r]] os IH]; simpl; intros H; [discriminate| |].
  - injection H as <-. exists i. now left.
  - destruct (IH H) as (j & Hj). exists j. now right.
Qed.

Lemma firstRejection_none (os : list (nat * Outcome ToolReply)) :
  firstRejection os = None -> forall i e, ~ In (i, Throw e) os.
Proof.
  induction os as [|[j [e0|r]] os IH]; simpl; intros H i e Hin; [contradiction|discriminate|].
  destruct Hin as [Hin|Hin]; [discriminate|]. exact (IH H i e Hin).
Qed.

(** The rejection of the join is the rejection of one of the calls. *)
Lemma replyAll_rejection (calls : list FunctionCall) (w w' : W) (e : Error) :
  replyAll env calls w = (Throw e, w') ->
  exists call wa wb, In call calls /\ replyTo env call wa = (Throw e, wb).
Proof.
  unfold replyAll.
  pose proof (@settle_origin calls
                (settleOrder (List.length calls) (agentSettles env calls w)) w) as Ho.
  destruct (settle env calls _ w) as [os w1]. simpl in Ho.
  destruct (firstRejection os) as [e0|] eqn:F; [|discriminate].
  intros H. injection H as <- <-.
  destruct (firstRejection_In F) as (i & Hi).
  destruct (Ho i _ Hi) as (call & wa & wb & Hnth & E).
  exists call, wa, wb. split; [exact (nth_error_In _ _ Hnth)|exact E].
Qed.

(** A call that is rejected whatever the world makes the join reject,
    wherever it stands in the batch and whenever it settles. *)
Lemma replyAll_rejects (calls : list FunctionCall) (call : FunctionCall) :
  In call calls ->
  (forall w0, exists e w1, replyTo env call w0 = (Throw e, w1)) ->
  forall w, exists e w', replyAll env calls w = (Throw e, w').
Proof.
  intros Hin Hrej w. apply In_nth_error in Hin. destruct Hin as (i & Hnth).
  assert (Hi : (i < List.length calls)%nat)
    by (apply nth_error_Some; now rewrite Hnth).
  unfold replyAll.
  destruct (@settle_runs calls i call Hnth
              (settleOrder (List.length calls) (agentSettles env calls w)) w
              (settleOrder_In _ Hi)) as (o & wa & wb & Ho & E).
  destruct (settle env calls _ w) as [os w1]. simpl in Ho.
  destruct (Hrej wa) as (e & w2 & E'). rewrite E' in E. injection E as <- _.
  destruct (firstRejection os) as [e0|] eqn:F; [now exists e0, w1|].
  exfalso. exact (firstRejection_none F Ho).
Qed.

(** When no call of the batch can be rejected, the join is fulfilled. *)
Lemma replyAll_returns (calls : list FunctionCall) (w : W) :
  (forall call w0, In call calls -> exists r w1, replyTo env call w0 = (Return r, w1)) ->
  exists replies w', replyAll env calls w = (Return replies, w').
Proof.
  intros Hret. unfold replyAll.
  pose proof (@settle_origin calls
                (settleOrder (List.length calls) (agentSettles env calls w)) w) as Ho.
  destruct (settle env calls _ w) as [os w1]. simpl in Ho.
  destruct (firstRejection os) as [e|] eqn:F; [|now do 2 eexists].
  exfalso. destruct (firstRejection_In F) as (i & Hi).
  destruct (Ho i _ Hi) as (call & wa & wb & Hnth & E).
  destruct (Hret call wa (nth_error_In _ _ Hnth)) as (r & w2 & E').
  rewrite E' in E. discriminate E.
Qed.

Lemma settleOrder_one (named : list nat) : settleOrder 1 named = [0%nat].
Proof.
  unfold settleOrder.
  pose proof (NoDup_nodup Nat.eq_dec (filter (fun i => (i <? 1)%nat) named)) as Hnd.
  assert (Hz : forall i, In i (nodup Nat.eq_dec (filter (fun i => (i <? 1)%nat) named)) ->
                         i = 0%nat).
  { intros i Hi. apply nodup_In, filter_In in Hi. destruct Hi as [_ Hi].
    apply Nat.ltb_lt in Hi. lia. }
  destruct (nodup Nat.eq_dec (filter (fun i => (i <? 1)%nat) named)) as [|a [|b l]].
  - reflexivity.
  - rewrite (Hz a (or_introl eq_refl)). reflexivity.
  - exfalso. inversion Hnd as [|? ? Hn _]; subst. apply Hn.
    rewrite (Hz a (or_introl eq_refl)), <- (Hz b (or_intror (or_introl eq_refl))).
    now left.
Qed.

(** A batch of one call: the join is that call. *)
Lemma replyAll_single (call : FunctionCall) (w : W) :
  replyAll env [call] w
  = match replyTo env call w with
    | (Throw e, w1) => (Throw e, w1)
    | (Return r, w1) => (Return [r], w1)
    end.
Proof.
  unfold replyAll. simpl List.length. rewrite settleOrder_one. simpl.
  destruct (replyTo env call w) as [[e|r] w1]; reflexivity.
Qed.

(** *** The loop *)

(** [agentRounds k response w response' w']: [k] complete rounds lead
    from the answer [response] in the world [w] to the answer [response']
    in [w'].  In each round the answer at hand asks for tool calls, all
    of them are fulfilled, and their replies are sent to the provider,
    whose answer opens the next round. *)
Inductive agentRounds : nat -> Response -> W -> Response -> W -> Prop :=
| agentRounds_none response w : agentRounds 0 response w response w
| agentRounds_more k response w replies w1 response1 w2 response' w' :
    hasCalls response = true ->
    replyAll env (pendingCalls response) w = (Return replies, w1) ->
    agentSendMessage env (ToolReplies replies) w1 = (Return response1, w2) ->
    agentRounds k response1 w2 response' w' ->
    agentRounds (S k) response w response' w'.

(** A round cut short: the join of the calls rejects, or the provider
    rejects the message that carries the replies. *)
Definition agentCutShort (response : Response) (w : W) (e : Error) (w' : W) : Prop :=
  hasCalls response = true /\
  (replyAll env (pendingCalls response) w = (Throw e, w') \/
   exists replies w1,
     replyAll env (pendingCalls response) w = (Return replies, w1) /\
     agentSendMessage env (ToolReplies replies) w1 = (Throw e, w')).

Lemma replyLoop_rounds :
  forall k fuel turns_ response w,
    (turns_ + k = 5)%nat -> (k < fuel)%nat ->
    exists run n rl w',
      replyLoop env fuel turns_ response w = Some run /\
      agentTurns run = (turns_ + n)%nat /\ (n <= k)%nat /\
      agentRounds n response w rl w' /\
      match agentLast run with
      | Return r => r = rl /\ agentAfter run = w' /\ (hasCalls rl = false \/ n = k)
      | Throw e => (n < k)%nat /\ agentCutShort rl w' e (agentAfter run)
      end.
Proof.
  induction k as [|k IH]; intros fuel turns_ response w Hk Hfuel;
    (destruct fuel as [|fuel]; [lia|]); simpl.
  - replace (turns_ <? 5)%nat with false by (symmetry; apply Nat.ltb_ge; lia).
    rewrite andb_false_r.
    eexists _, 0%nat, response, w. split; [reflexivity|]. simpl.
    repeat split; auto; try lia. constructor.
  - destruct (hasCalls response) eqn:Hc; simpl.
    + replace (turns_ <? 5)%nat with true by (symmetry; apply Nat.ltb_lt; lia).
      destruct (replyAll env (pendingCalls response) w) as [[e|replies] w1] eqn:Hx.
      * eexists _, 0%nat, response, w. split; [reflexivity|]. simpl.
        repeat split; auto; try lia; try (now constructor); try (now left).
      * destruct (agentSendMessage env (ToolReplies replies) w1)
          as [[e|response1] w2] eqn:Hs.
        -- eexists _, 0%nat, response, w. split; [reflexivity|]. simpl.
           repeat split; auto; try lia; try (now constructor);
             try (right; now exists replies, w1).
        -- destruct (IH fuel (S turns_) response1 w2)
             as (run & n & rl & w' & E & Ht & Hn & Hr & Hl); try lia.
           exists run, (S n), rl, w'. repeat split; auto; try lia.
           ++ econstructor; eassumption.
           ++ destruct (agentLast run) as [e|r].
              ** destruct Hl as [Hlt Hcut]. split; [lia|exact Hcut].
              ** destruct Hl as (H1 & H2 & [H3|H3]); repeat split; auto.
    + eexists _, 0%nat, response, w. split; [reflexivity|]. simpl.
      repeat split; auto; try lia. constructor.
Qed.

Lemma replyLoop_bounded :
  forall k fuel turns_ response w,
    (turns_ + k = 5)%nat -> (k < fuel)%nat ->
    exists run,
      replyLoop env fuel turns_ response w = Some run /\
      (turns_ <= agentTurns run <= 5)%nat.
Proof.
  intros k fuel turns_ response w Hk Hfuel.
  destruct (@replyLoop_rounds k fuel turns_ response w Hk Hfuel)
    as (run & n & rl & w' & E & Ht & Hn & _).
  exists run. split; [exact E|lia].
Qed.

Lemma loopAttempt_settles (fuel : nat) (prompt : string) (w : W) :
  (5 < fuel)%nat -> loopAttempt env fuel prompt w <> None.
Proof.
  intros Hfuel. unfold loopAttempt.
  destruct (agentCredential env w); [|discriminate].
  destruct (agentSendMessage env (AgentPrompt prompt) w) as [[e|response] w1];
    [discriminate|].
  destruct (@replyLoop_bounded 5 fuel 0%nat response w1) as (run & E & _); try lia.
  rewrite E. destruct (agentLast run); discriminate.
Qed.

Lemma roundAttempt_settles (prompt : string) (w : W) :
  roundAttempt env prompt w <> None.
Proof.
  unfold roundAttempt.
  destruct (agentCredential env w); [|discriminate].
  destruct (agentSendMessage env (AgentPrompt prompt) w) as [[e|response] w1];
    [discriminate|].
  destruct (hasCalls response); [|discriminate].
  destruct (replyAll env (pendingCalls response) w1) as [[e|replies] w2]; [discriminate|].
  destruct (agentSendMessage env (ToolReplies replies) w2) as [[e|response'] w3];
    discriminate.
Qed.

(** The provider asks for a tool call in every answer, and every tool
    call returns a result with a content. *)
Definition keepsAsking : Prop :=
  (forall m w, exists response w',
      agentSendMessage env m w = (Return response, w') /\ hasCalls response = true) /\
  (forall name_ args w, exists result cs w',
      agentCallTool env name_ args w = (Return result, w') /\
      result_content result = Some cs).

Lemma keepsAsking_replies :
  keepsAsking ->
  forall calls w, exists replies w', replyAll env calls w = (Return replies, w').
Proof.
  intros [_ Htool] calls w. apply replyAll_returns. intros call w0 _.
  unfold replyTo.
  destruct (Htool (call_name call) (call_args call) w0) as (result & cs & w1 & -> & ->).
  now do 2 eexists.
Qed.

Lemma agentRounds_hasCalls :
  keepsAsking ->
  forall n response w rl w',
    agentRounds n response w rl w' -> hasCalls response = true -> hasCalls rl = true.
Proof.
  intros [Hsend _] n response w rl w' H.
  induction H as [|k response w replies w1 response1 w2 rl w' Hc Hx Hs _ IH];
    intros Hc0; [exact Hc0|].
  apply IH. destruct (Hsend (ToolReplies replies) w1) as (r & w3 & E & Hr).
  rewrite Hs in E. now inversion E; subst.
Qed.

Lemma replyLoop_exhausts :
  keepsAsking ->
  forall k fuel turns_ response w,
    hasCalls response = true ->
    (turns_ + k = 5)%nat -> (k < fuel)%nat ->
    exists run response_last,
      replyLoop env fuel turns_ response w = Some run /\
      agentTurns run = 5%nat /\
      agentLast run = Return response_last /\
      agentRounds k response w response_last (agentAfter run).
Proof.
  intros Hstub k fuel turns_ response w Hc Hk Hfuel.
  destruct (@replyLoop_rounds k fuel turns_ response w Hk Hfuel)
    as (run & n & rl & w' & E & Ht & Hn & Hr & Hl).
  pose proof (agentRounds_hasCalls Hstub Hr Hc) as Hcl.
  destruct (agentLast run) as [e|r] eqn:L.
  - exfalso. destruct Hl as (_ & _ & [Hx|(replies & w1 & _ & Hs)]).
    + destruct (keepsAsking_replies Hstub (pendingCalls rl) w') as (replies & w1 & E').
      rewrite E' in Hx. discriminate Hx.
    + destruct Hstub as [Hsend _].
      destruct (Hsend (ToolReplies replies) w1) as (r & w3 & E' & _).
      rewrite Hs in E'. discriminate E'.
  - destruct Hl as (H1 & H2 & [H3|H3]); [congruence|].
    subst. exists run, rl. repeat split; auto; lia.
Qed.

(** The specialists with a loop and those with a single round. *)
Definition looping : list (nat -> string -> W -> option (Run W (option string))) :=
  [ runResearcherAgent env; runDataAnalystAgent env; runDeveloperAgent env ].

Definition singleRound : list (nat -> string -> W -> option (Run W (option string))) :=
  [ runHrManagerAgent env; runIntegrationAgent env; runAntigravityAgent env ].

Lemma looping_unfold agent :
  In agent looping ->
  agent = fun fuel prompt w =>
            withRetryDefault (agentBackoffWait env) fuel (loopAttempt env fuel prompt) w.
Proof. intros [<-|[<-|[<-|[]]]]; reflexivity. Qed.

Lemma singleRound_unfold agent :
  In agent singleRound ->
  agent = fun fuel prompt w =>
            withRetryDefault (agentBackoffWait env) fuel (roundAttempt env prompt) w.
Proof. intros [<-|[<-|[<-|[]]]]; reflexivity. Qed.

(** X23. The loop of a looping specialist (researcher, data analyst,
    developer) ends for every provider, and what it has done by then is
    a number of complete rounds ([agentRounds]), 5 at most, in each of
    which every tool call of the answer at hand was fulfilled and the
    replies were sent to the provider; it ends with the answer to the
    last of them when that answer asks for no call or 5 rounds are made,
    and otherwise, after fewer than 5 rounds, with the rejection that cut
    a further round short.  Against a provider that asks for a tool call
    in every answer, with tools that succeed, each looping specialist
    sends the prompt, makes exactly 5 rounds and returns, after one
    attempt, the text of the answer to the last round; each specialist
    with a single round (HR manager, integration lead, antigravity)
    sends the prompt, makes exactly 1 round and returns the text of the
    answer to it.  Every specialist returns or rejects after at most 5
    attempts. *)
Theorem specialist_turn_bound :
  (forall fuel response w,
      (5 < fuel)%nat ->
      exists run response_last w',
        replyLoop env fuel 0 response w = Some run /\
        (agentTurns run <= 5)%nat /\
        agentRounds (agentTurns run) response w response_last w' /\
        match agentLast run with
        | Return r =>
            r = response_last /\ agentAfter run = w' /\
            (hasCalls response_last = false \/ agentTurns run = 5%nat)
        | Throw e =>
            (agentTurns run < 5)%nat /\ agentCutShort response_last w' e (agentAfter run)
        end) /\
  (keepsAsking ->
   forall agent fuel prompt w key_,
     In agent looping ->
     (5 < fuel)%nat -> agentCredential env w = Some key_ ->
     exists res response w1 response_last,
       agent fuel prompt w = Some res /\
       attempts res = 1%nat /\
       agentSendMessage env (AgentPrompt prompt) w = (Return response, w1) /\
       agentRounds 5 response w1 response_last (world res) /\
       result res = Return (response_text response_last)) /\
  (keepsAsking ->
   forall agent fuel prompt w key_,
     In agent singleRound ->
     (0 < fuel)%nat -> agentCredential env w = Some key_ ->
     exists res response w1 response_last,
       agent fuel prompt w = Some res /\
       attempts res = 1%nat /\
       agentSendMessage env (AgentPrompt prompt) w = (Return response, w1) /\
       agentRounds 1 response w1 response_last (world res) /\
       result res = Return (response_text response_last)) /\
  (forall agent fuel prompt w,
      In agent (looping ++ singleRound) ->
      (5 < fuel)%nat ->
      exists res, agent fuel prompt w = Some res /\ (attempts res <= 5)%nat).
Proof.
  split; [|split; [|split]].
  - intros fuel response w Hfuel.
    destruct (@replyLoop_rounds 5 fuel 0%nat response w)
      as (run & n & rl & w' & E & Ht & Hn & Hr & Hl); try lia.
    simpl in Ht. subst n. exists run, rl, w'. repeat split; auto.
  - intros Hk agent fuel prompt w key_ Hagent Hfuel Hkey. pose proof Hk as [Hsend _].
    rewrite (looping_unfold Hagent).
    destruct (Hsend (AgentPrompt prompt) w) as (response & w1 & Hs & Hc).
    destruct (@replyLoop_exhausts Hk 5%nat fuel 0%nat response w1)
      as (run & rl & E & Ht & Hl & Hr); auto.
    assert (Hatt : loopAttempt env fuel prompt w
                   = Some (Return (response_text rl), agentAfter run)).
    { unfold loopAttempt. now rewrite Hkey, Hs, E, Hl. }
    unfold withRetryDefault, withRetry.
    destruct fuel as [|fuel']; [lia|].
    cbn [retryLoop]. rewrite Hatt.
    eexists _, response, w1, rl. repeat split; simpl; eauto.
  - intros Hk agent fuel prompt w key_ Hagent Hfuel Hkey. pose proof Hk as [Hsend _].
    rewrite (singleRound_unfold Hagent).
    destruct (Hsend (AgentPrompt prompt) w) as (response & w1 & Hs & Hc).
    destruct (keepsAsking_replies Hk (pendingCalls response) w1) as (replies & w2 & Hx).
    destruct (Hsend (ToolReplies replies) w2) as (rl & w3 & Hs' & _).
    assert (Hatt : roundAttempt env prompt w = Some (Return (response_text rl), w3)).
    { unfold roundAttempt. now rewrite Hkey, Hs, Hc, Hx, Hs'. }
    unfold withRetryDefault, withRetry.
    destruct fuel as [|fuel']; [lia|].
    cbn [retryLoop]. rewrite Hatt.
    eexists _, response, w1, rl. repeat split; simpl; eauto.
    econstructor; eauto. constructor.
  - intros agent fuel prompt w Hagent Hfuel.
    apply in_app_or in Hagent. destruct Hagent as [Hagent|Hagent].
    + rewrite (looping_unfold Hagent). unfold withRetryDefault, withRetry.
      destruct (@OrchestrationFacts.retryLoop_settles W (option string)
                  (agentBackoffWait env) (loopAttempt env fuel prompt) 4%nat 3000%Z
                  (fun w0 => @loopAttempt_settles fuel prompt w0 Hfuel)
                  4%nat fuel 0%nat 0%nat w) as (res & E & Hle); try lia.
      exists res. split; [exact E|lia].
    + rewrite (singleRound_unfold Hagent). unfold withRetryDefault, withRetry.
      destruct (@OrchestrationFacts.retryLoop_settles W (option string)
                  (agentBackoffWait env) (roundAttempt env prompt) 4%nat 3000%Z
                  (fun w0 => @roundAttempt_settles prompt w0)
                  4%nat fuel 0%nat 0%nat w) as (res & E & Hle); try lia.
      exists res. split; [exact E|lia].
Qed.

(** X24. A specialist has no failure boundary around its tool calls: when
    the provider asks for a batch of tool calls and their join rejects,
    the attempt rejects with that error, which is the error of one of
    the calls of the batch, in the world the join left: nothing more is
    sent to the provider.  Unless the error carries a rate-limit
    signature, every specialist rejects with that error after this one
    attempt.  The join rejects as soon as one call of the batch is
    rejected by the router, wherever it stands in the batch and whatever
    the other calls do; for a batch of one call its rejection is that of
    the call. *)
Theorem specialist_tool_fault_aborts (fuel : nat) (prompt key_ : string)
    (response : Response) (e : Error) (w w1 w2 : W) :
  agentCredential env w = Some key_ ->
  agentSendMessage env (AgentPrompt prompt) w = (Return response, w1) ->
  hasCalls response = true ->
  replyAll env (pendingCalls response) w1 = (Throw e, w2) ->
  (exists call wa wb,
      In call (pendingCalls response) /\ replyTo env call wa = (Throw e, wb)) /\
  loopAttempt env (S fuel) prompt w = Some (Throw e, w2) /\
  roundAttempt env prompt w = Some (Throw e, w2) /\
  (isRateLimit e = false ->
   forall agent, In agent (looping ++ singleRound) ->
     agent (S fuel) prompt w = Some {| result := Throw e; attempts := 1; world := w2 |}) /\
  (forall calls call,
      In call calls ->
      (forall w0, exists e0 w',
          agentCallTool env (call_name call) (call_args call) w0 = (Throw e0, w')) ->
      forall w0, exists e0 w', replyAll env calls w0 = (Throw e0, w')) /\
  (forall call e0 w0 w',
      agentCallTool env (call_name call) (call_args call) w0 = (Throw e0, w') ->
      replyAll env [call] w0 = (Throw e0, w')).
Proof.
  intros Hkey Hsend Hhas Hall.
  assert (Hloop : loopAttempt env (S fuel) prompt w = Some (Throw e, w2)).
  { unfold loopAttempt. rewrite Hkey, Hsend. cbn [replyLoop].
    rewrite Hhas. simpl. now rewrite Hall. }
  assert (Hround : roundAttempt env prompt w = Some (Throw e, w2)).
  { unfold roundAttempt. now rewrite Hkey, Hsend, Hhas, Hall. }
  split; [exact (replyAll_rejection Hall)|].
  split; [exact Hloop|]. split; [exact Hround|]. split; [|split].
  - intros He agent Hagent. apply in_app_or in Hagent. destruct Hagent as [Hagent|Hagent].
    + rewrite (looping_unfold Hagent). unfold withRetryDefault, withRetry.
      cbn [retryLoop]. now rewrite Hloop, He.
    + rewrite (singleRound_unfold Hagent). unfold withRetryDefault, withRetry.
      cbn [retryLoop]. now rewrite Hround, He.
  - intros calls call Hin Hrej. apply (replyAll_rejects Hin).
    intros w0. destruct (Hrej w0) as (e0 & w' & E). exists e0, w'.
    unfold replyTo. now rewrite E.
  - intros call e0 w0 w' E. rewrite replyAll_single. unfold replyTo. now rewrite E.
Qed.

Lemma toolNotFound_rate_limited (name_ needle : string) :
  In needle ["429"; "quota"; "resource_exhausted"] ->
  includes (toLowerCase name_) needle = true ->
  isRateLimit (mcpClient.toolNotFound name_) = true.
Proof.
  intros Hneedle Hin.
  assert (H : includes (errorMsg (mcpClient.toolNotFound name_)) needle = true).
  { unfold errorMsg, mcpClient.toolNotFound, newError. cbn [message].
    rewrite !StringFacts.toLowerCase_app.
    apply StringFacts.includes_app_r, StringFacts.includes_app_l, Hin. }
  unfold isRateLimit.
  destruct Hneedle as [<-|[<-|[<-|[]]]]; rewrite H; simpl;
    rewrite ?orb_true_r; reflexivity.
Qed.

(** The name of the tool carries a rate-limit signature, and no
    connection offers it. *)
Definition mistaken (call : FunctionCall) : Prop :=
  (exists needle, In needle ["429"; "quota"; "resource_exhausted"] /\
                  includes (toLowerCase (call_name call)) needle = true) /\
  forall w0, exists w1,
    agentCallTool env (call_name call) (call_args call) w0
    = (Throw (mcpClient.toolNotFound (call_name call)), w1).

(** X25. The error for a tool that no connection offers is taken for a
    rate limit when the name of the tool, in lower case, contains "429",
    "quota" or "resource_exhausted".  A specialist whose provider asks on
    every attempt for a batch of such tools therefore does not give up
    after the first attempt: it makes all 5 attempts, each of them
    rejected with a rate-limit signature, waits 3, 6, 12 and 24 seconds
    (and the jitter) between them ([exhausts]), and then rejects with the
    tool-not-found error of one of the calls of the batch, in the world
    the fifth attempt left. *)
Theorem unknown_tool_retried (fuel : nat) (prompt : string)
    (response : Response) (w : W) :
  hasCalls response = true ->
  (forall call, In call (pendingCalls response) -> mistaken call) ->
  (forall w0, agentCredential env w0 <> None) ->
  (forall w0, exists w1, agentSendMessage env (AgentPrompt prompt) w0 = (Return response, w1)) ->
  (4 < fuel)%nat ->
  (forall call, In call (pendingCalls response) ->
                isRateLimit (mcpClient.toolNotFound (call_name call)) = true) /\
  (forall agent, In agent looping ->
     exists res call,
       In call (pendingCalls response) /\
       agent fuel prompt w = Some res /\
       attempts res = 5%nat /\
       result res = Throw (mcpClient.toolNotFound (call_name call)) /\
       OrchestrationFacts.exhausts (agentBackoffWait env) (loopAttempt env fuel prompt)
         3000 0 w 4 (mcpClient.toolNotFound (call_name call)) (world res)) /\
  (forall agent, In agent singleRound ->
     exists res call,
       In call (pendingCalls response) /\
       agent fuel prompt w = Some res /\
       attempts res = 5%nat /\
       result res = Throw (mcpClient.toolNotFound (call_name call)) /\
       OrchestrationFacts.exhausts (agentBackoffWait env) (roundAttempt env prompt)
         3000 0 w 4 (mcpClient.toolNotFound (call_name call)) (world res)).
Proof.
  intros Hhas Hbatch Hkey Hsend Hfuel.
  assert (Hrate : forall call, In call (pendingCalls response) ->
                    isRateLimit (mcpClient.toolNotFound (call_name call)) = true).
  { intros call Hin. destruct (Hbatch call Hin) as [(needle & Hn & Hi) _].
    exact (toolNotFound_rate_limited Hn Hi). }
  split; [exact Hrate|].
  (* the join of the batch rejects with the error of one of its calls *)
  assert (Hjoin : forall w1, exists call w2,
             In call (pendingCalls response) /\
             replyAll env (pendingCalls response) w1
             = (Throw (mcpClient.toolNotFound (call_name call)), w2)).
  { intros w1.
    assert (Hne : exists c, In c (pendingCalls response)).
    { unfold hasCalls in Hhas. destruct (pendingCalls response) as [|c cs];
        [discriminate|]. exists c. now left. }
    destruct Hne as (c & Hc).
    assert (Hrej : forall w0, exists e0 w', replyTo env c w0 = (Throw e0, w')).
    { intros w0. destruct (Hbatch c Hc) as [_ Ht]. destruct (Ht w0) as (w' & E).
      exists (mcpClient.toolNotFound (call_name c)), w'. unfold replyTo. now rewrite E. }
    destruct (replyAll_rejects Hc Hrej w1) as (e & w2 & E).
    destruct (replyAll_rejection E) as (call & wa & wb & Hin & Eo).
    exists call, w2. split; [exact Hin|].
    destruct (Hbatch call Hin) as [_ Ht]. destruct (Ht wa) as (w' & Et).
    unfold replyTo in Eo. rewrite Et in Eo. injection Eo as <- _. exact E. }
  assert (Hloop : forall w0, exists call w2,
             In call (pendingCalls response) /\
             loopAttempt env fuel prompt w0
             = Some (Throw (mcpClient.toolNotFound (call_name call)), w2)).
  { intros w0. destruct (Hsend w0) as (w1 & Hs).
    destruct (Hjoin w1) as (call & w2 & Hin & E). exists call, w2. split; [exact Hin|].
    unfold loopAttempt. destruct (agentCredential env w0) eqn:K;
      [|now apply Hkey in K].
    rewrite Hs. destruct fuel as [|fuel']; [lia|]. cbn [replyLoop].
    rewrite Hhas. simpl. now rewrite E. }
  assert (Hround : forall w0, exists call w2,
             In call (pendingCalls response) /\
             roundAttempt env prompt w0
             = Some (Throw (mcpClient.toolNotFound (call_name call)), w2)).
  { intros w0. destruct (Hsend w0) as (w1 & Hs).
    destruct (Hjoin w1) as (call & w2 & Hin & E). exists call, w2. split; [exact Hin|].
    unfold roundAttempt. destruct (agentCredential env w0) eqn:K;
      [|now apply Hkey in K].
    now rewrite Hs, Hhas, E. }
  assert (Hgen : forall fn : Async W (option string),
             (forall w0, exists call w2,
                 In call (pendingCalls response) /\
                 fn w0 = Some (Throw (mcpClient.toolNotFound (call_name call)), w2)) ->
             exists res call,
               In call (pendingCalls response) /\
               withRetryDefault (agentBackoffWait env) fuel fn w = Some res /\
               attempts res = 5%nat /\
               result res = Throw (mcpClient.toolNotFound (call_name call)) /\
               OrchestrationFacts.exhausts (agentBackoffWait env) fn
                 3000 0 w 4 (mcpClient.toolNotFound (call_name call)) (world res)).
  { intros fn Hfn.
    assert (Hall : OrchestrationFacts.alwaysRateLimited fn).
    { intros w0. destruct (Hfn w0) as (call & w2 & Hin & E).
      exists (mcpClient.toolNotFound (call_name call)), w2. split; [exact E|auto]. }
    destruct (@OrchestrationFacts.retryLoop_rate_limited W (option string)
                (agentBackoffWait env) fn 4%nat 3000%Z Hall
                4%nat fuel 0%nat 0%nat w)
      as (res & e & wl & E & Ha & Hr & _ & Hlast & Hex); try lia.
    destruct (Hfn wl) as (call & w2 & Hin & E'). rewrite E' in Hlast.
    injection Hlast as <- _.
    exists res, call. repeat split; auto. }
  split.
  - intros agent Hagent. rewrite (looping_unfold Hagent). exact (Hgen _ Hloop).
  - intros agent Hagent. rewrite (singleRound_unfold Hagent). exact (Hgen _ Hround).
Qed.

End AgentFacts.

(** *** Scenario: the provider asks for a tool that is not installed *)

Definition silent : mcpClient.Net nat nat (option Args) :=
  {| mcpClient.start := fun _ w => (Return tt, w);
     mcpClient.close := fun _ w => w;
     mcpClient.send := fun _ _ w =>
       (Return {| mcpClient.rpc_result := None; mcpClient.rpc_error := None |}, w);
     mcpClient.now := fun w => Z.of_nat w |}.

Definition asksFor (name_ : string) : Response :=
  {| functionCalls := Some [{| call_name := name_; call_id := Some "c1"; call_args := None |}];
     response_text := None; groundingChunks := None |}.

(** No connection is registered; the world counts the messages sent to
    the provider and adds up the milliseconds waited (without the
    jitter). *)
Definition lostEnv (name_ : string) : AgentEnv (nat * Z) :=
  {| agentCredential := fun _ => Some "key";
     agentSendMessage := fun _ w => (Return (asksFor name_), (S (fst w), snd w));
     agentCallTool := fun n args w =>
       (fst (mcpClient.callTool silent n args [] (fst w)), w);
     agentSettles := fun _ _ => [];
     agentBackoffWait := fun delay w => (fst w, (snd w + delay)%Z) |}.

Lemma specialist_tool_fault_aborts_witness :
  isRateLimit (mcpClient.toolNotFound "browser_interact") = false /\
  runResearcherAgent (lostEnv "browser_interact") 6 "find the paper" (0%nat, 0%Z)
  = Some {| result := Throw (mcpClient.toolNotFound "browser_interact");
            attempts := 1; world := (1%nat, 0%Z) |}.
Proof.
  assert (H : isRateLimit (mcpClient.toolNotFound "browser_interact") = false)
    by (vm_compute; reflexivity).
  split; [exact H|].
  apply (proj1 (proj2 (proj2 (proj2
           (@specialist_tool_fault_aborts (nat * Z) (lostEnv "browser_interact") 5
              "find the paper" "key" (asksFor "browser_interact")
              (mcpClient.toolNotFound "browser_interact") (0%nat, 0%Z) (1%nat, 0%Z)
              (1%nat, 0%Z) eq_refl eq_refl eq_refl eq_refl)))) H).
  left. reflexivity.
Defined.

(** Five messages reach the provider, and the agent has waited 45
    seconds in all. *)
Example lost_quota_run :
  runResearcherAgent (lostEnv "check_Quota_usage") 6 "how much is left" (0%nat, 0%Z)
  = Some {| result := Throw (mcpClient.toolNotFound "check_Quota_usage");
            attempts := 5; world := (5%nat, 45000%Z) |}.
Proof. vm_compute. reflexivity. Qed.

Lemma unknown_tool_retried_witness :
  hasCalls (asksFor "check_Quota_usage") = true /\
  includes (toLowerCase "check_Quota_usage") "quota" = true /\
  exists res call,
    In call (pendingCalls (asksFor "check_Quota_usage")) /\
    runResearcherAgent (lostEnv "check_Quota_usage") 6 "how much is left" (0%nat, 0%Z)
    = Some res /\
    attempts res = 5%nat /\
    result res = Throw (mcpClient.toolNotFound (call_name call)) /\
    OrchestrationFacts.exhausts (agentBackoffWait (lostEnv "check_Quota_usage"))
      (loopAttempt (lostEnv "check_Quota_usage") 6 "how much is left")
      3000 0 (0%nat, 0%Z) 4 (mcpClient.toolNotFound (call_name call)) (world res).
Proof.
  assert (Hin : includes (toLowerCase "check_Quota_usage") "quota" = true)
    by (vm_compute; reflexivity).
  split; [reflexivity|]. split; [exact Hin|].
  refine (proj1 (proj2 (@unknown_tool_retried (nat * Z) (lostEnv "check_Quota_usage") 6
                   "how much is left" (asksFor "check_Quota_usage") (0%nat, 0%Z)
                   eq_refl _ _ _ _)) _ _).
  - intros call [<-|[]]. split.
    + exists "quota". split; [right; left; reflexivity|exact Hin].
    + intros w0. exists w0. reflexivity.
  - discriminate.
  - intros w0. now exists (S (fst w0), snd w0).
  - lia.
  - left. reflexivity.
Defined.

(** The calls of a batch settle in the order the event loop picks, here
    the reverse of the array, and the replies come back in the order of
    the array.  The world is the log of the calls. *)
Definition loggingEnv : AgentEnv (list string) :=
  {| agentCredential := fun _ => Some "key";
     agentSendMessage := fun _ w =>
       (Return {| functionCalls := None; response_text := Some "done";
                  groundingChunks := None |}, w);
     agentCallTool := fun n _ w =>
       if String.eqb n "broken" then (Throw (newError "broken pipe"), w ++ [n])
       else if String.eqb n "missing" then (Throw (newError "no such file"), w ++ [n])
       else (Return {| result_content :=
                         Some [textContent (n ++ " after " ++ showNat (List.length w))%string];
                       isError := None |}, w ++ [n]);
     agentSettles := fun calls _ => rev (seq 0 (List.length calls));
     agentBackoffWait := fun _ w => w |}.

Definition toolCall (name_ : string) : FunctionCall :=
  {| call_name := name_; call_id := None; call_args := None |}.

Example replyAll_settles_out_of_order :
  replyAll loggingEnv [toolCall "first"; toolCall "second"; toolCall "third"] []
  = (Return [ {| reply_name := "first"; reply_content := [Some "first after 2"];
                 reply_id := None |};
              {| reply_name := "second"; reply_content := [Some "second after 1"];
                 reply_id := None |};
              {| reply_name := "third"; reply_content := [Some "third after 0"];
                 reply_id := None |} ],
     ["third"; "second"; "first"]) /\
  replyAll loggingEnv [toolCall "broken"; toolCall "second"; toolCall "missing"] []
  = (Throw (newError "no such file"), ["missing"; "second"; "broken"]).
Proof. split; vm_compute; reflexivity. Qed.

End AgentFacts.

(** ** The overseer: tool faults are not fatal *)

Module FaultFacts.
Import Js Types geminiService.
Local Open Scope string_scope.
Local Open Scope list_scope.

Section FaultFacts.

Variable W : Type.
Variable env : Env W.

(** X26. The overseer keeps going when a tool call is rejected.  For a
    call that is none of the three the overseer handles itself, a
    rejection of the router becomes the response of that call: an error
    payload with the message of the error, or "Thread execution fault"
    when the error has none or an empty one.  The variables of the
    attempt stay as they were, and a turn that consists of such a call
    goes on to send that error payload to the provider. *)
Theorem overseer_absorbs_tool_fault (call : FunctionCall) (e : Error) :
  String.eqb (call_name call) "generate_task_list" = false ->
  String.eqb (call_name call) "parallel_dispatch" = false ->
  String.eqb (call_name call) "generate_video" = false ->
  (forall l w w',
     callTool env (call_name call) (call_args call) w = (Throw e, w') ->
     executeCall env call l w = (fault call e, l, w')) /\
  fr_response (fault call e) = ResultError (orElse (message e) "Thread execution fault") /\
  (forall fuel turns_ response l w w',
     pendingCalls response = [call] -> (turns_ < MAX_TURNS)%nat ->
     callTool env (call_name call) (call_args call) (wait env 350 w) = (Throw e, w') ->
     turnLoop env (S fuel) turns_ response l w
     = match sendMessage env (FunctionResponses [fault call e]) w' with
       | (Throw e', w2) =>
           Some {| last := Throw e'; locals := l; turns := turns_; after := w2 |}
       | (Return response', w2) => turnLoop env fuel (S turns_) response' l w2
       end).
Proof.
  intros H1 H2 H3.
  assert (Hexec : forall l w w',
             callTool env (call_name call) (call_args call) w = (Throw e, w') ->
             executeCall env call l w = (fault call e, l, w')).
  { intros l w w' Htool. unfold executeCall. rewrite H1, H2, H3, Htool. reflexivity. }
  split; [exact Hexec|]. split; [reflexivity|].
  intros fuel turns_ response l w w' Hp Ht Htool.
  cbn [turnLoop]. unfold hasCalls. rewrite Hp. cbn [List.length Nat.eqb negb andb].
  apply Nat.ltb_lt in Ht. rewrite Ht.
  cbn [executeCalls]. rewrite (Hexec l _ _ Htool). reflexivity.
Qed.

End FaultFacts.

(** The environment of [calmEnv] with a router that knows no tool. *)
Definition strayEnv : Env nat :=
  {| clock := clock OrchestrationFacts.calmEnv;
     credential := credential OrchestrationFacts.calmEnv;
     sendMessage := sendMessage OrchestrationFacts.calmEnv;
     runHrManagerAgent := runHrManagerAgent OrchestrationFacts.calmEnv;
     runIntegrationAgent := runIntegrationAgent OrchestrationFacts.calmEnv;
     runResearcherAgent := runResearcherAgent OrchestrationFacts.calmEnv;
     runDataAnalystAgent := runDataAnalystAgent OrchestrationFacts.calmEnv;
     runDeveloperAgent := runDeveloperAgent OrchestrationFacts.calmEnv;
     runAntigravityAgent := runAntigravityAgent OrchestrationFacts.calmEnv;
     runSpeedsterAgent := runSpeedsterAgent OrchestrationFacts.calmEnv;
     runNavigatorAgent := runNavigatorAgent OrchestrationFacts.calmEnv;
     generateImage := generateImage OrchestrationFacts.calmEnv;
     generateVideo := generateVideo OrchestrationFacts.calmEnv;
     callTool := fun n args w => mcpClient.callTool AgentFacts.silent n args [] w;
     wait := wait OrchestrationFacts.calmEnv;
     backoffWait := backoffWait OrchestrationFacts.calmEnv |}.

Lemma overseer_absorbs_tool_fault_witness :
  fst (fst (executeCall strayEnv OrchestrationFacts.listContainers noLocals 0%nat))
  = {| fr_name := "list_active_containers";
       fr_response :=
         ResultError "Tool 'list_active_containers' not found in any active MCP connection.";
       fr_id := Some "c1" |}.
Proof.
  rewrite (proj1 (@overseer_absorbs_tool_fault nat strayEnv OrchestrationFacts.listContainers
                    (mcpClient.toolNotFound "list_active_containers")
                    eq_refl eq_refl eq_refl) noLocals 0%nat 0%nat eq_refl).
  reflexivity.
Defined.

End FaultFacts.

(** ** Video generation: the fallback happens once *)

Module VideoFacts.
Import Js Types videoService.
Local Open Scope string_scope.
Local Open Scope list_scope.

(** The model the fallback switches to. *)
Definition zeroScope : VideoModel :=
  {| model_id := "cerspense/zeroscope_v2_576w"; model_name := "ZeroScope v2";
     model_provider := viaHuggingFace; tier := 2; capabilities := [t2v];
     apiPath := Some "cerspense/zeroscope_v2_576w" |}.

(** The id that is asked for and the model that is used for it. *)
Definition requested (modelId : option string) : string :=
  match modelId with
  | Some EmptyString | None => model_id firstModel
  | Some i => i
  end.

Definition chosen (modelId : option string) : VideoModel :=
  match find (fun m => String.eqb (model_id m) (requested modelId)) VIDEO_MODELS with
  | Some m => m
  | None => firstModel
  end.

Definition imageMissing (m : VideoModel) : Error :=
  newError (model_name m ++ " is an Image-to-Video model. Please attach an image.").

Lemma chosen_listed (modelId : option string) :
  In (chosen modelId) VIDEO_MODELS /\
  model_provider (chosen modelId) = viaHuggingFace /\
  (String.eqb (requested modelId) FALLBACK_MODEL_ID = false ->
   model_id (chosen modelId) <> FALLBACK_MODEL_ID).
Proof.
  assert (Hall : Forall (fun m => model_provider m = viaHuggingFace) VIDEO_MODELS)
    by (repeat constructor).
  unfold chosen.
  destruct (find _ VIDEO_MODELS) as [m|] eqn:F.
  - apply find_some in F. destruct F as [Hin Hid].
    split; [exact Hin|]. split.
    + rewrite Forall_forall in Hall. now apply Hall.
    + apply String.eqb_eq in Hid. rewrite Hid. intros H. now apply String.eqb_neq.
  - split; [now left|]. split; [reflexivity|]. intros _. discriminate.
Qed.

Section VideoFacts.

Variable W : Type.
Variable runHuggingFaceGeneration :
  VideoGenerationConfig -> VideoModel -> W -> Outcome Video * W.

(** What the [catch] block makes of an attempt it does not retry. *)
Definition settled (r : Outcome Video * W) : Outcome Video * W :=
  match r with
  | (Throw e, w1) =>
      match message e with
      | None => (Throw (newError "Cannot read properties of undefined (reading 'includes')"), w1)
      | Some _ => (Throw e, w1)
      end
  | (Return v, w1) => (Return v, w1)
  end.

Lemma generateVideo_fallback (fuel : nat) (config : VideoGenerationConfig) (w : W) :
  generateVideo runHuggingFaceGeneration (S fuel) config (Some FALLBACK_MODEL_ID) w
  = Some (settled (runHuggingFaceGeneration config zeroScope w)).
Proof.
  cbn [generateVideo].
  change (find _ VIDEO_MODELS) with (Some zeroScope).
  cbv beta iota zeta.
  change (can i2v zeroScope) with false. cbn [andb].
  change (model_provider zeroScope) with viaHuggingFace. cbv iota.
  unfold settled.
  destruct (runHuggingFaceGeneration config zeroScope w) as [[e|v] w1]; [|reflexivity].
  destruct (message e); reflexivity.
Qed.

(** The validation: an image-to-video model that cannot work from text
    is asked for a prompt without an image. *)
Definition needsImage (config : VideoGenerationConfig) (m : VideoModel) : bool :=
  can i2v m && negb (given (image config)) && given (prompt config) && negb (can t2v m).

(** The [catch] block hands the task over to ZeroScope: the model asked
    for is another one, the message tells of an access, quota or network
    failure, and the task is not one that only an image-to-video model
    can do. *)
Definition handsOver (config : VideoGenerationConfig) (modelId : option string)
    (msg : string) : bool :=
  negb (String.eqb (requested modelId) FALLBACK_MODEL_ID) &&
  isAuthError msg &&
  negb (given (image config) && negb fallbackAnimates && negb (given (prompt config))).

(** X27. [generateVideo] settles, and it calls the provider at most
    twice.  It rejects without any call when an image-to-video model is
    asked for a prompt without an image.  Otherwise it calls the provider
    for the model (the first of the table when the id is unknown or
    absent).  The value of that call is returned.  If the call is
    rejected, with an error that has no message the [catch] block itself
    fails; with a message that tells of an access, quota or network
    failure, on a model other than ZeroScope and for a task that can be
    handed over, the provider is called once more, for ZeroScope, in the
    world the first call left, and the outcome of that call, value or
    error, is the final one; in every other case the error of the first
    call is rethrown. *)
Theorem generateVideo_at_most_two (fuel : nat) (config : VideoGenerationConfig)
    (modelId : option string) (w : W) :
  (2 <= fuel)%nat ->
  let model := chosen modelId in
  let run := generateVideo runHuggingFaceGeneration fuel config modelId w in
  In model VIDEO_MODELS /\
  (needsImage config model = true -> run = Some (Throw (imageMissing model), w)) /\
  (needsImage config model = false ->
   (forall v w1,
       runHuggingFaceGeneration config model w = (Return v, w1) ->
       run = Some (Return v, w1)) /\
   (forall e w1,
       runHuggingFaceGeneration config model w = (Throw e, w1) ->
       message e = None ->
       run = Some (Throw (newError
                     "Cannot read properties of undefined (reading 'includes')"), w1)) /\
   (forall e msg w1,
       runHuggingFaceGeneration config model w = (Throw e, w1) ->
       message e = Some msg ->
       (handsOver config modelId msg = false -> run = Some (Throw e, w1)) /\
       (handsOver config modelId msg = true ->
        model_id model <> FALLBACK_MODEL_ID /\
        run = Some (settled (runHuggingFaceGeneration config zeroScope w1))))) /\
  (run = Some (Throw (imageMissing model), w) \/
   run = Some (settled (runHuggingFaceGeneration config model w)) \/
   exists e msg w1,
     runHuggingFaceGeneration config model w = (Throw e, w1) /\
     message e = Some msg /\ isAuthError msg = true /\
     model_id model <> FALLBACK_MODEL_ID /\
     run = Some (settled (runHuggingFaceGeneration config zeroScope w1))).
Proof.
  intros Hfuel model run.
  destruct (chosen_listed modelId) as (Hin & Hprov & Hne).
  split; [exact Hin|].
  destruct fuel as [|[|fuel]]; try lia.
  assert (Hrun : run
            = if needsImage config model then Some (Throw (imageMissing model), w)
              else
                match runHuggingFaceGeneration config model w with
                | (Return v, w1) => Some (Return v, w1)
                | (Throw e, w1) =>
                    match message e with
                    | None =>
                        Some (Throw (newError
                          "Cannot read properties of undefined (reading 'includes')"), w1)
                    | Some msg =>
                        if handsOver config modelId msg
                        then Some (settled (runHuggingFaceGeneration config zeroScope w1))
                        else Some (Throw e, w1)
                    end
                end).
  { unfold run, needsImage, handsOver.
    cbn [generateVideo]. fold (requested modelId). fold (chosen modelId). fold model.
    cbv zeta. fold model in Hprov. rewrite Hprov.
    destruct (can i2v model && negb (given (image config)) && given (prompt config)
              && negb (can t2v model)); [reflexivity|].
    destruct (runHuggingFaceGeneration config model w) as [[e|v] w1]; [|reflexivity].
    destruct (message e) as [msg|]; [|reflexivity].
    destruct (String.eqb (requested modelId) FALLBACK_MODEL_ID); [reflexivity|].
    destruct (isAuthError msg); [|reflexivity]. cbn [negb andb].
    destruct (given (image config) && negb fallbackAnimates && negb (given (prompt config)));
      [reflexivity|].
    apply (generateVideo_fallback fuel config w1). }
  clearbody run. subst run.
  assert (Hover : forall msg, handsOver config modelId msg = true ->
                    isAuthError msg = true /\ model_id model <> FALLBACK_MODEL_ID).
  { intros msg H. unfold handsOver in H.
    apply andb_prop in H. destruct H as [H _].
    apply andb_prop in H. destruct H as [H1 H2]. split; [exact H2|].
    apply Hne. now destruct (String.eqb (requested modelId) FALLBACK_MODEL_ID). }
  split; [now intros ->|]. split.
  - intros ->. split; [now intros v w1 ->|]. split.
    + intros e w1 -> He. now rewrite He.
    + intros e msg w1 -> He. rewrite He. split.
      * now intros ->.
      * intros H. rewrite H. split; [exact (proj2 (Hover msg H))|reflexivity].
  - destruct (needsImage config model); [now left|]. right.
    destruct (runHuggingFaceGeneration config model w) as [[e|v] w1];
      [|left; reflexivity].
    destruct (message e) as [msg|] eqn:Hmsg; [|left; simpl; now rewrite Hmsg].
    destruct (handsOver config modelId msg) eqn:H; [|left; simpl; now rewrite Hmsg].
    right. exists e, msg, w1. destruct (Hover msg H). repeat split; auto.
Qed.

End VideoFacts.

(** *** Scenario: the first model is out of quota, ZeroScope answers *)

Definition quotaOnFirst (config : VideoGenerationConfig) (m : VideoModel) (w : nat)
  : Outcome Video * nat :=
  if String.eqb (model_id m) FALLBACK_MODEL_ID
  then (Return {| uri := "blob:clip"; provider := "huggingface" |}, S w)
  else (Throw (newError "HuggingFace Error (429): Quota exceeded..."), S w).

Definition sunrise : VideoGenerationConfig :=
  {| prompt := Some "sunrise over the bay"; aspectRatio := "16:9";
     resolution := "720p"; image := None |}.

Lemma generateVideo_at_most_two_witness :
  (2 <= 2)%nat /\
  needsImage sunrise (chosen None) = false /\
  handsOver sunrise None "HuggingFace Error (429): Quota exceeded..." = true /\
  generateVideo quotaOnFirst 2 sunrise None 0%nat
  = Some (Return {| uri := "blob:clip"; provider := "huggingface" |}, 2%nat).
Proof.
  split; [lia|]. split; [reflexivity|]. split; [vm_compute; reflexivity|].
  refine (proj2 (proj2 (proj2 (proj2 (proj1 (proj2 (proj2
            (@generateVideo_at_most_two nat quotaOnFirst 2 sunrise None 0%nat _)))
            eq_refl)) (newError "HuggingFace Error (429): Quota exceeded...")
            "HuggingFace Error (429): Quota exceeded..." 1%nat eq_refl eq_refl) _)).
  - lia.
  - vm_compute; reflexivity.
Defined.

End VideoFacts.

(** ** Image generation: Hugging Face is the last resort *)

Module ImageFacts.
Import Js imageService.
Local Open Scope string_scope.
Local Open Scope list_scope.

Section ImageFacts.

Variable W : Type.
Variable requestGemini : ImageGenerationConfig -> string -> W -> Outcome Image * W.
Variable generateWithHuggingFace : ImageGenerationConfig -> string -> W -> Outcome Image * W.

(** [hfKey || ''] *)
Definition tokenOf (hfKey : option string) : string :=
  match hfKey with
  | Some EmptyString | None => ""
  | Some t => t
  end.

(** The outer [catch] of [generateImage]. *)
Definition reported (r : Outcome Image * W) : Outcome Image * W :=
  match r with
  | (Throw cause, w') =>
      (Throw (newError ("Image Generation Failed: " ++ show (message cause))), w')
  | (Return v, w') => (Return v, w')
  end.

Lemma generateImage_cases (googleKey hfKey : option string)
    (config : ImageGenerationConfig) (w : W) :
  generateImage requestGemini generateWithHuggingFace googleKey hfKey config w
  = reported (generateWithHuggingFace config (tokenOf hfKey) w) \/
  exists k,
    googleKey = Some k /\ k <> "" /\ provider config <> Some toHuggingFace /\
    ((exists v w1, requestGemini config k w = (Return v, w1) /\
                   generateImage requestGemini generateWithHuggingFace googleKey hfKey config w
                   = (Return v, w1)) \/
     (exists e w1, requestGemini config k w = (Throw e, w1) /\
                   generateImage requestGemini generateWithHuggingFace googleKey hfKey config w
                   = reported (generateWithHuggingFace config (tokenOf hfKey) w1))).
Proof.
  unfold generateImage, generateWithGemini, reported. fold (tokenOf hfKey).
  destruct googleKey as [[|c k]|].
  - left. destruct (provider config) as [[| |]|]; simpl;
      destruct (generateWithHuggingFace config (tokenOf hfKey) w) as [[e|v] w1];
      reflexivity.
  - destruct (provider config) as [[| |]|] eqn:P.
    2:{ left. simpl.
        destruct (generateWithHuggingFace config (tokenOf hfKey) w) as [[e|v] w1];
          reflexivity. }
    all: right; exists (String c k); repeat split; try discriminate;
      simpl; unfold present;
      destruct hfKey as [[|c' t]|]; simpl;
      destruct (requestGemini config (String c k) w) as [[e|v] w1];
      try (left; do 2 eexists; split; reflexivity);
      right; do 2 eexists; (split; [reflexivity|]);
      match goal with
      | |- context [generateWithHuggingFace ?a ?b ?c] =>
          destruct (generateWithHuggingFace a b c) as [[e'|v'] w2]; reflexivity
      end.
  - left. destruct (provider config) as [[| |]|]; simpl;
      destruct (generateWithHuggingFace config (tokenOf hfKey) w) as [[e|v] w1];
      reflexivity.
Qed.

(** X28. Hugging Face is the last resort of [generateImage], and the only
    source of the failures it reports: whenever [generateImage] rejects,
    a Hugging Face call was made and rejected, and the message reported
    is "Image Generation Failed: " followed by the message of that
    rejection; an error of Gemini, a missing Google key included, is
    never reported.  Without a Google key no request goes to Gemini at
    all, whatever provider the caller asked for. *)
Theorem generateImage_last_resort (googleKey hfKey : option string)
    (config : ImageGenerationConfig) (w : W) :
  (forall e w',
     generateImage requestGemini generateWithHuggingFace googleKey hfKey config w
     = (Throw e, w') ->
     exists cause w1,
       generateWithHuggingFace config (tokenOf hfKey) w1 = (Throw cause, w') /\
       e = newError ("Image Generation Failed: " ++ show (message cause))) /\
  (present googleKey = false ->
   generateImage requestGemini generateWithHuggingFace googleKey hfKey config w
   = reported (generateWithHuggingFace config (tokenOf hfKey) w)).
Proof.
  split.
  - intros e w' H.
    assert (Hrep : forall w1,
               reported (generateWithHuggingFace config (tokenOf hfKey) w1) = (Throw e, w') ->
               exists cause w2,
                 generateWithHuggingFace config (tokenOf hfKey) w2 = (Throw cause, w') /\
                 e = newError ("Image Generation Failed: " ++ show (message cause))).
    { intros w1 Hr. unfold reported in Hr.
      destruct (generateWithHuggingFace config (tokenOf hfKey) w1) as [[cause|v] w2] eqn:G;
        [|discriminate].
      injection Hr as <- <-. now exists cause, w1. }
    destruct (generateImage_cases googleKey hfKey config w)
      as [E|(k & _ & _ & _ & [(v & w1 & _ & E)|(e0 & w1 & _ & E)])];
      rewrite E in H.
    + now apply Hrep in H.
    + discriminate.
    + now apply Hrep in H.
  - intros Hno.
    destruct (generateImage_cases googleKey hfKey config w)
      as [E|(k & -> & Hk & _)]; [exact E|].
    destruct k; [contradiction|discriminate].
Qed.

End ImageFacts.

End ImageFacts.

(** ** The [save_memory] tool behind the server *)

Module ToolFacts.
Import Js Types Embedding memoryService internalTools.
Local Open Scope string_scope.
Local Open Scope list_scope.

(** X29. The [save_memory] tool, called through the server.  When the
    embedding call fails, the call is answered by the error result
    "Memory write failed." and the store is left as it was.  When it
    succeeds and the store is below capacity, the answer is not an error
    and names the id of a node that now heads the store, of type
    [system_note], with the tags of the call or none.  A call without
    arguments is answered by a fault result, and the store is left as it
    was. *)
Theorem save_memory_through_server (b : Browser) (p : Provider) (c : Clock)
    (server : mcpServer.Server Store SaveMemoryArgs) (a : SaveMemoryArgs) (s : Store) :
  let served := withSaveMemory b p c server in
  (MemoryFacts.embeddingFails p (save_content a) ->
   mcpServer.callTool served (Some "save_memory") (Some a) s
   = ({| result_content := Some [textContent "Memory write failed."];
         isError := Some true |}, s)) /\
  (forall e, getEmbedding p (save_content a) = Return (Some e) ->
     (List.length (memories s) < MAX_MEMORIES)%nat ->
     exists node,
       mcpServer.callTool served (Some "save_memory") (Some a) s
       = ({| result_content :=
               Some [textContent
                       ("[Neural Core] Memory successfully assimilated. ID: " ++ id node)];
             isError := None |},
          saveMemories b {| memories := node :: memories s; stored := stored s |}) /\
       memories (snd (mcpServer.callTool served (Some "save_memory") (Some a) s))
       = node :: memories s /\
       content node = save_content a /\ type node = system_note /\
       tags node = match save_tags a with Some ts => ts | None => [] end) /\
  mcpServer.callTool served (Some "save_memory") None s
  = (mcpServer.faultResult "Fault: Cannot read properties of undefined (reading 'tags')", s).
Proof.
  intros served.
  assert (Hcall : forall args,
             mcpServer.callTool served (Some "save_memory") args s
             = match save_memory b p c args s with
               | (Return r, s1) => (r, s1)
               | (Throw e, s1) =>
                   (mcpServer.faultResult ("Fault: " ++ show (message e)), s1)
               end).
  { intros args. unfold served, withSaveMemory, mcpServer.callTool, mcpServer.registerTool,
      mcpServer.lookup. cbn [mcpServer.tools].
    change (tool_name saveMemoryTool) with "save_memory".
    now rewrite ConnectionFacts.map_get_set_same. }
  split; [|split].
  - intros Hfail. rewrite Hcall. unfold save_memory, addMemory.
    now rewrite (MemoryFacts.getEmbedding_fails Hfail).
  - intros e He Hlen. rewrite Hcall. unfold save_memory, addMemory. rewrite He.
    eexists. split; [reflexivity|]. cbn [snd].
    rewrite StoreFacts.saveMemories_small by (simpl; lia).
    repeat split.
  - rewrite Hcall. reflexivity.
Qed.

End ToolFacts.

(** ** The overseer: the task list only grows *)

Module TaskFacts.
Import Js Types geminiService.
Local Open Scope string_scope.
Local Open Scope list_scope.

Section TaskFacts.

Variable W : Type.
Variable env : Env W.

(** The tasks a call adds to the list: those of a [generate_task_list]
    call that carries [tasks], made at the time of the call. *)
Definition tasksOf (call : FunctionCall) (w : W) : list Task :=
  if String.eqb (call_name call) "generate_task_list" then
    match call_args call with
    | Some args =>
        match a_tasks args with
        | Some ts => mapi (newTask (clock env w)) ts
        | None => []
        end
    | None => []
    end
  else [].

Lemma textCase_tasks (run : string -> W -> Outcome (option string) * W)
    (d : Dispatch) (l : Locals) (w : W) :
  l_tasks (snd (fst (textCase run d l w))) = l_tasks l.
Proof. unfold textCase. now destruct (run (d_prompt d) w) as [[e|out] w1]. Qed.

Lemma runDispatch_tasks (d : Dispatch) (l : Locals) (w : W) :
  l_tasks (snd (fst (runDispatch env d l w))) = l_tasks l.
Proof.
  unfold runDispatch.
  repeat match goal with
         | |- context [if ?b then _ else _] => destruct b
         end;
    try apply textCase_tasks;
    try match goal with
        | |- context [match ?x with pair _ _ => _ end] => destruct x as [[?|?] ?]
        end; reflexivity.
Qed.

Lemma runDispatches_tasks (ds : list Dispatch) (l : Locals) (w : W) :
  l_tasks (snd (fst (runDispatches env ds l w))) = l_tasks l.
Proof.
  revert l w. induction ds as [|d ds IH]; intros l w; simpl; [reflexivity|].
  pose proof (runDispatch_tasks d l w) as Hd.
  destruct (runDispatch env d l w) as [[r l1] w1].
  specialize (IH l1 w1).
  destruct (runDispatches env ds l1 w1) as [[rs l2] w2].
  simpl in *. congruence.
Qed.

Lemma executeCall_tasks (call : FunctionCall) (l : Locals) (w : W) :
  l_tasks (snd (fst (executeCall env call l w))) = l_tasks l ++ tasksOf call w.
Proof.
  unfold executeCall, tasksOf.
  destruct (String.eqb (call_name call) "generate_task_list") eqn:N1.
  - apply String.eqb_eq in N1.
    assert (N2 : String.eqb (call_name call) "parallel_dispatch" = false) by now rewrite N1.
    assert (N3 : String.eqb (call_name call) "generate_video" = false) by now rewrite N1.
    rewrite N2, N3.
    destruct (call_args call) as [args|]; [|simpl; now rewrite app_nil_r].
    destruct (a_tasks args) as [ts|];
      destruct (callTool env (call_name call) (Some args) w) as [[e|result] w3];
      try destruct (result_content result); simpl; now rewrite ?app_nil_r.
  - rewrite app_nil_r.
    destruct (String.eqb (call_name call) "parallel_dispatch").
    + destruct (call_args call) as [args|]; [|reflexivity].
      destruct (a_dispatches args) as [ds|].
      * pose proof (runDispatches_tasks ds l w) as Hd.
        destruct (runDispatches env ds l w) as [[rs l2] w2]. exact Hd.
      * destruct (String.eqb (call_name call) "generate_video").
        -- destruct (generateVideo env _ w) as [[e|v] w1];
             destruct (callTool env (call_name call) (Some args) w1) as [[e'|result] w3];
             try destruct (result_content result); reflexivity.
        -- destruct (callTool env (call_name call) (Some args) w) as [[e'|result] w3];
             try destruct (result_content result); reflexivity.
    + destruct (String.eqb (call_name call) "generate_video").
      * destruct (call_args call) as [args|].
        -- destruct (generateVideo env _ w) as [[e|v] w1];
             destruct (callTool env (call_name call) (Some args) w1) as [[e'|result] w3];
             try destruct (result_content result); reflexivity.
        -- destruct (callTool env (call_name call) None w) as [[e'|result] w3];
             try destruct (result_content result); reflexivity.
      * destruct (callTool env (call_name call) (call_args call) w) as [[e'|result] w3];
          try destruct (result_content result); reflexivity.
Qed.

Lemma executeCalls_tasks (calls : list FunctionCall) (l : Locals) (w : W) :
  exists added,
    l_tasks (snd (fst (executeCalls env calls l w))) = l_tasks l ++ added /\
    (Forall (fun call => String.eqb (call_name call) "generate_task_list" = false) calls ->
     added = []).
Proof.
  revert l w. induction calls as [|c calls IH]; intros l w; simpl.
  - exists []. split; [now rewrite app_nil_r|reflexivity].
  - pose proof (executeCall_tasks c l w) as Hc.
    destruct (executeCall env c l w) as [[fr l1] w1].
    destruct (IH l1 w1) as (added & Hadd & Hnone).
    destruct (executeCalls env calls l1 w1) as [[frs l2] w2].
    simpl in *. exists (tasksOf c w ++ added). split.
    + now rewrite Hadd, Hc, app_assoc.
    + intros Hall. inversion Hall as [|? ? Hn Hrest]; subst.
      rewrite (Hnone Hrest). unfold tasksOf. now rewrite Hn.
Qed.

Lemma turnLoop_tasks :
  forall fuel turns_ response l w run,
    turnLoop env fuel turns_ response l w = Some run ->
    exists added, l_tasks (locals run) = l_tasks l ++ added.
Proof.
  induction fuel as [|fuel IH]; intros turns_ response l w run; simpl; [discriminate|].
  destruct (hasCalls response && (turns_ <? MAX_TURNS)%nat).
  - destruct (executeCalls_tasks (pendingCalls response) l (wait env 350 w))
      as (added & Hadd & _).
    destruct (executeCalls env (pendingCalls response) l (wait env 350 w))
      as [[frs l1] w1].
    simpl in Hadd.
    destruct (sendMessage env (FunctionResponses frs) w1) as [[e|response'] w2].
    + intros [= <-]. now exists added.
    + intros H. destruct (IH _ _ _ _ _ H) as (added' & Hadd').
      exists (added ++ added'). now rewrite Hadd', Hadd, app_assoc.
  - intros [= <-]. exists []. simpl. now rewrite app_nil_r.
Qed.

(** X30. The task list of an attempt only grows.  Every call adds to it
    exactly the tasks of a [generate_task_list] call that carries
    [tasks], in their order and marked not completed, whether or not the
    router then accepts the call, and nothing for any other call; no
    call and no turn removes or reorders a task.  So the list the
    overseer ends a run of its loop with extends the list it started
    with, and a task keeps the id the provider gave it, if any. *)
Theorem overseer_tasks_accumulate :
  (forall call l w,
      l_tasks (snd (fst (executeCall env call l w))) = l_tasks l ++ tasksOf call w) /\
  (forall call w t, In t (tasksOf call w) -> completed t = false) /\
  (forall now_ spec idx given c s,
      t_id spec = Some given -> given = String c s ->
      task_id (newTask now_ spec idx) = given) /\
  (forall fuel turns_ response l w run,
      turnLoop env fuel turns_ response l w = Some run ->
      exists added, l_tasks (locals run) = l_tasks l ++ added).
Proof.
  split; [exact executeCall_tasks|]. split; [|split; [|exact turnLoop_tasks]].
  - intros call w t. unfold tasksOf.
    destruct (String.eqb _ _); [|contradiction].
    destruct (call_args call) as [args|]; [|contradiction].
    destruct (a_tasks args) as [ts|]; [|contradiction].
    unfold mapi. generalize 0%nat.
    induction ts as [|x ts IH]; intros n; simpl; [contradiction|].
    intros [<-|H]; [reflexivity|]. now apply (IH (S n)).
  - intros now_ spec idx given c s Hid ->. unfold newTask. simpl. now rewrite Hid.
Qed.

End TaskFacts.

End TaskFacts.
